(** * AI SDLC Agent: the front end's pipeline glue and the orchestration contract

    A shallow embedding of the JavaScript sources of the UI (action
    selection and validation in [App.jsx], the event-stream reader of
    [api.js], the unified-diff parser of [DiffViewer.jsx], the coverage
    matrix of [TraceabilityMatrix.jsx]) together with the orchestration
    layer the specification describes.

    Conventions.  A JavaScript string is a [string]; one [ascii] stands for
    one code unit.  A JavaScript array is a [list].  An object used as a
    dictionary is a [gmap string _].  State held in React hooks is threaded
    explicitly; calls that leave the page (the HTTP client, the clock, the
    JSON parser) are parameters of the section that uses them. *)

From stdpp Require Import gmap strings list fin_maps.
From Stdlib Require Import String Ascii List ZArith Lia Bool.
From Stdlib Require Import Decimal DecimalString DecimalN.
Import ListNotations.
Local Open Scope string_scope.
Local Open Scope list_scope.

(** ** Shared JavaScript primitives *)

Module Js.

(** [Array.prototype.includes] on an array of strings. *)
Definition includes (l : list string) (s : string) : bool :=
  existsb (String.eqb s) l.

(** Truthiness of a string value: only the empty string is falsy. *)
Definition truthy (s : string) : bool :=
  match s with
  | EmptyString => false
  | String _ _ => true
  end.

(** [a || b] on strings. *)
Definition or_else (a b : string) : string :=
  if truthy a then a else b.

(** The line feed, the separator of [split('\n')] and [join('\n')]. *)
Definition LF : ascii := "010"%char.

(** [s.split('\n')]: always at least one piece. *)
Fixpoint split_nl (s : string) : list string :=
  match s with
  | EmptyString => [ "" ]
  | String c rest =>
      if Ascii.eqb c LF then "" :: split_nl rest
      else match split_nl rest with
           | [] => [ String c "" ]
           | piece :: pieces => String c piece :: pieces
           end
  end.

(** [s1 + s2]: its defining equations, associativity and unit. *)
Lemma append_nil_l (s : string) : ("" ++ s)%string = s.
Proof. reflexivity. Qed.

Lemma append_cons (c : ascii) (s t : string) :
  (String c s ++ t)%string = String c (s ++ t)%string.
Proof. reflexivity. Qed.

Lemma append_nil_r (s : string) : (s ++ "")%string = s.
Proof. induction s as [| c s IH]; [reflexivity |]. now rewrite append_cons, IH. Qed.

Lemma append_assoc (a b c : string) :
  ((a ++ b) ++ c)%string = (a ++ (b ++ c))%string.
Proof.
  induction a as [| x a IH]; [reflexivity |]. now rewrite !append_cons, IH.
Qed.

Lemma split_nl_nonempty (s : string) : split_nl s <> [].
Proof.
  destruct s as [| c rest]; simpl; [discriminate |].
  destruct (Ascii.eqb c LF); [discriminate |].
  destruct (split_nl rest); discriminate.
Qed.

(** Splitting a concatenation: the complete pieces of the first part, then
    the pieces of its unfinished last piece continued by the second part. *)
Lemma split_nl_app (x y : string) :
  split_nl (x ++ y) =
  removelast (split_nl x) ++ split_nl (last (split_nl x) "" ++ y).
Proof.
  induction x as [| c x IH]; [reflexivity |].
  pose proof (split_nl_nonempty x) as Hne.
  rewrite append_cons. cbn [split_nl]. rewrite IH.
  destruct (split_nl x) as [| p ps]; [congruence |].
  destruct (Ascii.eqb c LF) eqn:Hc.
  - destruct ps; reflexivity.
  - destruct ps as [| q qs].
    + cbn [removelast last app]. rewrite append_cons. cbn [split_nl].
      rewrite Hc. reflexivity.
    + reflexivity.
Qed.

(** [l.join('\n')]. *)
Fixpoint join_nl (l : list string) : string :=
  match l with
  | [] => ""
  | [ x ] => x
  | x :: (_ :: _) as rest => (x ++ String LF (join_nl rest))%string
  end.

(** [s.startsWith(p)]. *)
Definition startsWith (s p : string) : bool := String.prefix p s.

(** [s.slice(n)] for a non-negative [n]. *)
Fixpoint slice (n : nat) (s : string) : string :=
  match n, s with
  | O, _ => s
  | S _, EmptyString => ""
  | S n', String _ rest => slice n' rest
  end.

(** A string without a line feed. *)
Fixpoint no_nl (s : string) : bool :=
  match s with
  | EmptyString => true
  | String c rest => negb (Ascii.eqb c LF) && no_nl rest
  end.

Lemma split_nl_no_nl (s : string) : no_nl s = true -> split_nl s = [ s ].
Proof.
  induction s as [| c s IH]; [reflexivity |]. cbn [no_nl split_nl].
  intros H. apply andb_prop in H as [Hc Hs]. apply negb_true_iff in Hc.
  rewrite Hc, (IH Hs). reflexivity.
Qed.

(** Every piece of a split is free of line feeds. *)
Lemma no_nl_split (s : string) : Forall (fun p => no_nl p = true) (split_nl s).
Proof.
  induction s as [| c s IH]; cbn [split_nl].
  - repeat constructor.
  - destruct (Ascii.eqb c LF) eqn:Hc.
    + constructor; [reflexivity | exact IH].
    + destruct (split_nl s) as [| p ps]; [repeat constructor; simpl; now rewrite Hc |].
      inversion IH; subst. constructor; [| assumption].
      cbn [no_nl]. rewrite Hc. assumption.
Qed.

Lemma no_nl_last_split (s : string) : no_nl (last (split_nl s) "") = true.
Proof.
  pose proof (no_nl_split s) as H. pose proof (split_nl_nonempty s) as Hne.
  induction H as [| p ps Hp Hps IH]; [congruence |].
  destruct ps; [exact Hp |]. apply IH. discriminate.
Qed.

Lemma includes_In l s : includes l s = true <-> In s l.
Proof.
  unfold includes. rewrite existsb_exists. split.
  - intros (x & Hx & He). apply String.eqb_eq in He. now subst.
  - intros H. exists s. split; [assumption | apply String.eqb_refl].
Qed.

Lemma truthy_false s : truthy s = false <-> s = "".
Proof. destruct s; simpl; split; congruence. Qed.

End Js.

(** ** [App.jsx]: validation and action selection of [runPipeline] *)

Module App.

Import Js.

Record formData := mkForm {
  jiraId : string;
  repoUrl : string;
  actions : list string;
  model : string
}.

(** The payload handed to [api.analyzeTicket]. *)
Record request := mkRequest {
  ticket_id : string;
  action : string;
  github_repo : option string;
  req_model : string
}.

(** The agent definitions, in display order. *)
Definition agents : list string := ["req"; "code"; "test"].

(** "Determine action based on selected agents": the [if]/[else if] chain. *)
Definition runPipeline_action (actions : list string) : string :=
  if includes actions "req" && includes actions "code" && includes actions "test"
  then "full_pipeline"
  else if includes actions "req" && includes actions "code"
  then "generate_code"
  else if includes actions "req" && includes actions "test"
  then "generate_tests"
  else if includes actions "code" && includes actions "test"
  then "full_pipeline"
  else if includes actions "code"
  then "generate_code"
  else if includes actions "test"
  then "generate_tests"
  else if includes actions "req"
  then "analyze_requirements"
  else "analyze_requirements".

(** The guard at the top of [runPipeline], which is also the [disabled]
    condition of the Run button. *)
Definition invalid (fd : formData) : bool :=
  (negb (truthy (jiraId fd)) && negb (truthy (repoUrl fd)))
  || (length (actions fd) =? 0)%nat.

Section RunPipeline.

(** The response type of the analyze endpoint is opaque to the UI. *)
Variable Response : Type.

(** [api.analyzeTicket]: either the response body or the rejection, with
    its [message]. *)
Variable analyzeTicket : request -> Response + string.

(** The decimal rendering of [Date.now()]. *)
Variable now : string.

(** The hooks [runPipeline] writes to. *)
Record ui := mkUi {
  view : string;
  isLoading : bool;
  executionStatus : string;
  error : option string;
  currentAgent : option string;
  apiResponse : option Response;
  toast : option (string * string)
}.

Definition initial : ui :=
  mkUi "input" false "idle" None None None None.

Definition showToast (message type : string) (s : ui) : ui :=
  mkUi (view s) (isLoading s) (executionStatus s) (error s)
       (currentAgent s) (apiResponse s) (Some (message, type)).

(** The "simulate agent execution progress" loop: [setCurrentAgent] once
    per selected agent, in the order of [agents]. *)
Definition progress (sel : list string) (cur : option string) : option string :=
  fold_left (fun _ a => Some a) (filter (includes sel) agents) cur.

(** [runPipeline]: the hooks after the call, and the requests sent. *)
Definition runPipeline (fd : formData) (s : ui) : ui * list request :=
  if invalid fd then
    (showToast "Please provide input and select at least one agent" "error" s, [])
  else
    let act := runPipeline_action (actions fd) in
    let cur := progress (actions fd) (currentAgent s) in
    let rq := mkRequest (or_else (jiraId fd) ("MANUAL-" ++ now)) act
                        (if truthy (repoUrl fd) then Some (repoUrl fd) else None)
                        (model fd) in
    match analyzeTicket rq with
    | inl response =>
        (mkUi "result" false "completed" None None (Some response)
              (Some ("Pipeline completed successfully!", "success")), [rq])
    | inr message =>
        let m := or_else message "Pipeline execution failed" in
        (mkUi "executing" false "error" (Some m) cur (apiResponse s)
              (Some (m, "error")), [rq])
    end.

End RunPipeline.

Arguments view {Response} _.
Arguments isLoading {Response} _.
Arguments executionStatus {Response} _.
Arguments error {Response} _.
Arguments currentAgent {Response} _.
Arguments apiResponse {Response} _.
Arguments toast {Response} _.

End App.

(** ** The earlier [App] component: [handleStart] and its [runPipeline] *)

Module AppAlt.

Import Js.

Record formData := mkForm {
  jiraId : string;
  repoUrl : string;
  actions : list string
}.

(** The payload handed to [api.analyzeTicket]; [github_pr] is always
    [undefined] and is left out. *)
Record request := mkRequest {
  ticket_id : string;
  action : string;
  github_repo : option string
}.

(** "Map selected actions to backend ActionType". *)
Definition runPipeline_action (sel : list string) : string :=
  let hasReq := includes sel "req" in
  let hasCode := includes sel "code" in
  let hasTest := includes sel "test" in
  if hasReq && hasCode && hasTest then "full_pipeline"
  else if hasCode && negb hasTest then "generate_code"
  else if hasTest && negb hasCode then "generate_tests"
  else "analyze_requirements".

(** The request [runPipeline] sends; this component has no guard of its own
    (the button that calls [handleStart] carries it). *)
Definition runPipeline_request (now : string) (fd : formData) : request :=
  mkRequest (or_else (jiraId fd) ("MANUAL-" ++ now))
            (runPipeline_action (actions fd))
            (if truthy (repoUrl fd) then Some (repoUrl fd) else None).

End AppAlt.

(** The four values of the backend's action type. *)
Definition Actions : list string :=
  ["analyze_requirements"; "generate_code"; "generate_tests"; "full_pipeline"].

Definition is_action (a : string) : bool := Js.includes Actions a.

(** *** Results on action selection *)

Lemma app_action_is_action sel : is_action (App.runPipeline_action sel) = true.
Proof.
  unfold App.runPipeline_action.
  repeat match goal with |- context [if ?b then _ else _] => destruct b end;
    reflexivity.
Qed.

Lemma appalt_action_is_action sel : is_action (AppAlt.runPipeline_action sel) = true.
Proof.
  unfold AppAlt.runPipeline_action.
  destruct (Js.includes sel "req"), (Js.includes sel "code"),
    (Js.includes sel "test"); reflexivity.
Qed.

(** The two mappings agree except on a selection with the code and test
    agents but without the requirement agent. *)
Lemma actions_agree_off_code_test sel :
  (Js.includes sel "code" && Js.includes sel "test" && negb (Js.includes sel "req")) = false ->
  App.runPipeline_action sel = AppAlt.runPipeline_action sel.
Proof.
  unfold App.runPipeline_action, AppAlt.runPipeline_action.
  destruct (Js.includes sel "req"), (Js.includes sel "code"),
    (Js.includes sel "test"); simpl; congruence.
Qed.

(** C2 (evaluation at the diverging selection).  With the code and test
    agents selected and the requirement agent deselected, the guarded
    [runPipeline] computes [full_pipeline] while the earlier component
    computes [analyze_requirements]. *)
Theorem action_maps_differ_on_code_test :
  App.runPipeline_action ["code"; "test"] = "full_pipeline" /\
  AppAlt.runPipeline_action ["code"; "test"] = "analyze_requirements".
Proof. split; reflexivity. Qed.

(** C3.  Whatever request [runPipeline] sends carries one of the four
    action values; a selection with all three agents yields
    [full_pipeline], and one with [req] and [test] but not [code] yields
    [generate_tests].  This holds for both components, and in the guarded
    one a valid form with a non-empty selection does send exactly one
    request. *)
Theorem runPipeline_sends_an_action :
  forall (Response : Type) (analyzeTicket : App.request -> Response + string)
         (now : string),
    (forall (fd : App.formData) (s : App.ui Response) (rq : App.request),
        App.actions fd <> [] ->
        In rq (snd (App.runPipeline Response analyzeTicket now fd s)) ->
        is_action (App.action rq) = true /\
        (Js.includes (App.actions fd) "req" = true ->
         Js.includes (App.actions fd) "code" = true ->
         Js.includes (App.actions fd) "test" = true ->
         App.action rq = "full_pipeline") /\
        (Js.includes (App.actions fd) "req" = true ->
         Js.includes (App.actions fd) "test" = true ->
         Js.includes (App.actions fd) "code" = false ->
         App.action rq = "generate_tests")) /\
    (forall (fd : App.formData) (s : App.ui Response),
        App.actions fd <> [] ->
        (App.jiraId fd <> "" \/ App.repoUrl fd <> "") ->
        exists rq, snd (App.runPipeline Response analyzeTicket now fd s) = [rq]) /\
    (forall (fd : AppAlt.formData),
        AppAlt.actions fd <> [] ->
        let rq := AppAlt.runPipeline_request now fd in
        is_action (AppAlt.action rq) = true /\
        (Js.includes (AppAlt.actions fd) "req" = true ->
         Js.includes (AppAlt.actions fd) "code" = true ->
         Js.includes (AppAlt.actions fd) "test" = true ->
         AppAlt.action rq = "full_pipeline") /\
        (Js.includes (AppAlt.actions fd) "req" = true ->
         Js.includes (AppAlt.actions fd) "test" = true ->
         Js.includes (AppAlt.actions fd) "code" = false ->
         AppAlt.action rq = "generate_tests")).
Proof.
  intros Response analyzeTicket now. split; [| split].
  - intros fd s rq _ Hin. unfold App.runPipeline in Hin.
    destruct (App.invalid fd); [destruct Hin |].
    assert (Hrq : App.action rq = App.runPipeline_action (App.actions fd)).
    { destruct (analyzeTicket _); simpl in Hin;
        destruct Hin as [<- | []]; reflexivity. }
    rewrite Hrq. split; [apply app_action_is_action |].
    unfold App.runPipeline_action.
    split; intros -> ; intros -> ; intros -> ; reflexivity.
  - intros fd s Hsel Hin. unfold App.runPipeline.
    assert (Hv : App.invalid fd = false).
    { unfold App.invalid. destruct (App.actions fd); [congruence |].
      simpl. rewrite orb_false_r.
      destruct Hin as [H | H].
      - destruct (App.jiraId fd); [congruence | reflexivity].
      - destruct (App.repoUrl fd); [congruence |].
        simpl. apply andb_false_r. }
    rewrite Hv. destruct (analyzeTicket _); eexists; reflexivity.
  - intros fd _ rq. subst rq. simpl.
    split; [apply appalt_action_is_action |].
    unfold AppAlt.runPipeline_action.
    split; intros -> ; intros -> ; intros -> ; reflexivity.
Qed.

(** C5.  When the form has neither a ticket id nor a repository URL, or no
    agent is selected, [runPipeline] sends no request and leaves the view and
    every execution hook as they were; it only raises the error toast. *)
Theorem runPipeline_rejects_invalid_form :
  forall (Response : Type) (analyzeTicket : App.request -> Response + string)
         (now : string) (fd : App.formData) (s : App.ui Response),
    (App.jiraId fd = "" /\ App.repoUrl fd = "") \/ App.actions fd = [] ->
    let (s', sent) := App.runPipeline Response analyzeTicket now fd s in
    sent = [] /\
    App.view s' = App.view s /\
    App.isLoading s' = App.isLoading s /\
    App.executionStatus s' = App.executionStatus s /\
    App.error s' = App.error s /\
    App.currentAgent s' = App.currentAgent s /\
    App.apiResponse s' = App.apiResponse s /\
    App.toast s' =
      Some ("Please provide input and select at least one agent", "error").
Proof.
  intros Response analyzeTicket now fd s H. unfold App.runPipeline.
  assert (Hv : App.invalid fd = true).
  { unfold App.invalid. destruct H as [[-> ->] | ->]; [reflexivity |].
    simpl. apply orb_true_r. }
  rewrite Hv. simpl. repeat split; reflexivity.
Qed.

(** The guard is exactly the condition under which the Run button is
    disabled, so an enabled button always leads to a request. *)
Lemma invalid_spec (fd : App.formData) :
  App.invalid fd = true <->
  (App.jiraId fd = "" /\ App.repoUrl fd = "") \/ App.actions fd = [].
Proof.
  unfold App.invalid. rewrite orb_true_iff, andb_true_iff, !negb_true_iff,
    !Js.truthy_false, Nat.eqb_eq.
  split; (intros [H | H]; [left; exact H | right]).
  - destruct (App.actions fd); [reflexivity | discriminate].
  - rewrite H. reflexivity.
Qed.

(** ** [App.jsx]: the events synthesized for the Workflow tab *)

Module Workflow.

(** One element of [apiResponse.agents], as far as the Workflow tab reads
    it.  The two dates may be absent. *)
Record agent := mkAgent {
  agent_name : string;
  status : string;
  started_at : option string;
  completed_at : option string
}.

Record event := mkEvent {
  event_kind : string;
  node : string;
  timestamp : string
}.

Section Events.

(** [new Date().toISOString()], read for the [k]-th time. *)
Variable clock : nat -> string.

(** [date || new Date().toISOString()]: the clock is read when the date is
    absent or empty. *)
Definition date_or (date : option string) (k : nat) : string :=
  match date with
  | Some t => if Js.truthy t then t else clock k
  | None => clock k
  end.

(** The callback of [flatMap], applied to the agent at index [idx]. *)
Definition agent_events (idx : nat) (a : agent) : list event :=
  [ mkEvent "node_start" (agent_name a) (date_or (started_at a) (2 * idx));
    mkEvent (if String.eqb (status a) "completed" then "node_complete" else "node_error")
            (agent_name a) (date_or (completed_at a) (2 * idx + 1)) ].

(** [agents.flatMap((agent, idx) => ...)], starting at index [idx]. *)
Fixpoint flatMap_from (idx : nat) (agents : list agent) : list event :=
  match agents with
  | [] => []
  | a :: rest => agent_events idx a ++ flatMap_from (S idx) rest
  end.

(** The [events] property: [(apiResponse.agents || []).flatMap(...)]. *)
Definition events (agents : option (list agent)) : list event :=
  flatMap_from 0 (match agents with Some l => l | None => [] end).

End Events.

Definition is_start (e : event) : bool := String.eqb (event_kind e) "node_start".

(** A [node_complete] or [node_error] event of stage [S]. *)
Definition closes (S : string) (e : event) : bool :=
  (String.eqb (event_kind e) "node_complete" || String.eqb (event_kind e) "node_error")
  && String.eqb (node e) S.

(** The events that come before the next [node_start]. *)
Fixpoint until_next_start (l : list event) : list event :=
  match l with
  | [] => []
  | e :: rest => if is_start e then [] else e :: until_next_start rest
  end.

Definition count_closes (S : string) (l : list event) : nat :=
  length (filter (closes S) l).

(** The shape of the synthesized list: a start and its closing event, again
    and again. *)
Inductive paired : list event -> Prop :=
| paired_nil : paired []
| paired_cons : forall s c rest,
    is_start s = true -> is_start c = false -> closes (node s) c = true ->
    paired rest -> paired (s :: c :: rest).

Lemma flatMap_from_paired clock agents : forall idx,
  paired (flatMap_from clock idx agents).
Proof.
  induction agents as [| a rest IH]; intros idx; simpl.
  - constructor.
  - constructor; [reflexivity | | | apply IH].
    + unfold is_start; simpl. destruct (String.eqb (status a) "completed"); reflexivity.
    + unfold closes; simpl. rewrite String.eqb_refl.
      destruct (String.eqb (status a) "completed"); reflexivity.
Qed.

Lemma paired_head_start l : paired l ->
  match l with [] => True | e :: _ => is_start e = true end.
Proof. intros H; destruct H; auto. Qed.

Lemma paired_after_start l : paired l ->
  forall pre e post, l = pre ++ e :: post -> is_start e = true ->
  exists c rest, post = c :: rest /\ closes (node e) c = true /\
                 is_start c = false /\ paired rest.
Proof.
  induction 1 as [| s c rest Hs Hc Hcl Hrest IH]; intros pre e post Heq He.
  - destruct pre; discriminate.
  - destruct pre as [| p [| q pre']]; simpl in Heq.
    + injection Heq as <- <-. exists c, rest. auto.
    + injection Heq as _ <- _. congruence.
    + injection Heq as _ _ Heq. eapply IH; eauto.
Qed.

End Workflow.

(** C6.  In the list synthesized from any [agents] array, the events that
    follow a [node_start] of stage [S] up to the next [node_start] contain
    exactly one [node_complete] or [node_error] event of [S]. *)
Theorem workflow_events_start_closed_once :
  forall (clock : nat -> string) (agents : option (list Workflow.agent))
         (pre post : list Workflow.event) (e : Workflow.event),
    Workflow.events clock agents = pre ++ e :: post ->
    Workflow.event_kind e = "node_start" ->
    Workflow.count_closes (Workflow.node e) (Workflow.until_next_start post) = 1.
Proof.
  intros clock agents pre post e Heq He.
  assert (Hst : Workflow.is_start e = true).
  { unfold Workflow.is_start. rewrite He. reflexivity. }
  destruct (Workflow.paired_after_start _
              (Workflow.flatMap_from_paired clock _ 0) pre e post Heq Hst)
    as (c & rest & -> & Hcl & Hc & Hrest).
  simpl. rewrite Hc. unfold Workflow.count_closes.
  apply Workflow.paired_head_start in Hrest.
  destruct rest as [| s rest']; simpl; rewrite Hcl; simpl.
  - reflexivity.
  - rewrite Hrest. reflexivity.
Qed.

(** ** [api.js]: the read loop of [analyzeStream] *)

Module Sse.

Import Js.

Section AnalyzeStream.

(** Parsed JSON values, [JSON.parse] ([None] when it throws) and
    [String.prototype.trim]. *)
Variable Json : Type.
Variable JSON_parse : string -> option Json.
Variable trim : string -> string.

(** One call of [onEvent(parsed, currentEvent)]; [None] is [null]. *)
Definition call : Type := Json * option string.

(** The body of [for (const line of lines)]: the calls made so far and
    [currentEvent]. *)
Definition on_line (st : list call * option string) (line : string)
  : list call * option string :=
  let (calls, currentEvent) := st in
  if startsWith line "event: " then (calls, Some (trim (slice 7 line)))
  else if startsWith line "data: " then
    match JSON_parse (slice 6 line) with
    | Some parsed => (calls ++ [ (parsed, currentEvent) ], currentEvent)
    | None => (calls, currentEvent)
    end
  else (calls, currentEvent).

(** The [for] loop over the complete lines of one chunk; [currentEvent]
    starts at [null] for every chunk. *)
Definition on_lines (lines : list string) : list call :=
  fst (fold_left on_line lines ([], None)).

(** The [while (true)] loop: [chunks] are the decoded values the reader
    yields before [done]; the result lists the calls of [onEvent]. *)
Fixpoint read_loop (chunks : list string) (buffer : string) : list call :=
  match chunks with
  | [] => []
  | value :: rest =>
      let buffer1 := (buffer ++ value)%string in
      let lines := split_nl buffer1 in
      let buffer2 := or_else (last lines "") "" in
      on_lines (removelast lines) ++ read_loop rest buffer2
  end.

(** What the caller observes of [analyzeStream]: the [onEvent] calls, then
    [onComplete], or [onError] when the response is not [ok]. *)
Inductive outcome : Type :=
| Completed (calls : list call)
| Failed (status : nat).

Definition analyzeStream (ok : bool) (status : nat) (chunks : list string) : outcome :=
  if ok then Completed (read_loop chunks "") else Failed status.

(** The parsed data of the [data: ] lines, whatever the event type. *)
Definition data_of (lines : list string) : list Json :=
  flat_map (fun line =>
    if startsWith line "event: " then []
    else if startsWith line "data: " then
      match JSON_parse (slice 6 line) with Some v => [ v ] | None => [] end
    else []) lines.

(** The whole response body: the chunks, concatenated. *)
Definition body_of (chunks : list string) : string :=
  fold_right String.append "" chunks.

Lemma or_else_nil (s : string) : or_else s "" = s.
Proof. destruct s; reflexivity. Qed.

Lemma data_of_app (l1 l2 : list string) :
  data_of (l1 ++ l2) = data_of l1 ++ data_of l2.
Proof. apply flat_map_app. Qed.

(** The data a chunk's lines deliver do not depend on [currentEvent]. *)
Lemma fold_on_line_data (lines : list string) :
  forall st : list call * option string,
    map fst (fst (fold_left on_line lines st)) =
    map fst (fst st) ++ data_of lines.
Proof.
  induction lines as [| line lines IH]; intros st; cbn [fold_left].
  - unfold data_of. cbn [flat_map]. now rewrite app_nil_r.
  - rewrite IH. destruct st as [calls ev].
    unfold data_of, on_line. cbn [flat_map fst].
    destruct (startsWith line "event: "); [reflexivity |].
    destruct (startsWith line "data: "); [| reflexivity].
    destruct (JSON_parse (slice 6 line)); [| reflexivity].
    cbn [fst]. rewrite map_app, <- app_assoc. reflexivity.
Qed.

Lemma on_lines_data (lines : list string) :
  map fst (on_lines lines) = data_of lines.
Proof. exact (fold_on_line_data lines ([], None)). Qed.

(** The data delivered over all chunks are those of the complete lines of
    the buffer followed by the body. *)
Lemma read_loop_data (chunks : list string) :
  forall buffer : string,
    no_nl buffer = true ->
    map fst (read_loop chunks buffer) =
    data_of (removelast (split_nl (buffer ++ body_of chunks))).
Proof.
  induction chunks as [| value rest IH]; intros buffer Hb.
  - cbn [read_loop body_of fold_right map]. rewrite append_nil_r.
    rewrite (split_nl_no_nl _ Hb). reflexivity.
  - cbn [read_loop body_of fold_right]. fold (body_of rest).
    rewrite map_app, on_lines_data, or_else_nil.
    rewrite IH by apply no_nl_last_split.
    rewrite <- append_assoc, (split_nl_app (buffer ++ value)).
    rewrite removelast_app by apply split_nl_nonempty.
    now rewrite data_of_app.
Qed.

(** The parsed data handed to [onEvent], in order, are the same however the
    body is cut into chunks. *)
Lemma read_loop_data_chunking (chunks : list string) :
  map fst (read_loop chunks "") = map fst (read_loop [ body_of chunks ] "").
Proof.
  rewrite !read_loop_data by reflexivity.
  cbn [body_of fold_right]. now rewrite append_nil_r.
Qed.

End AnalyzeStream.

(** A line of the stream, terminated by a line feed. *)
Definition ln (s : string) : string := (s ++ String LF "")%string.

End Sse.

(** C4 (evaluation at a diverging chunking).  The body
    ["event: a\ndata: 1\n"] delivered in one chunk makes [analyzeStream]
    call [onEvent] with the event type of the [event: ] line; delivered as
    two chunks cut after the first line it calls [onEvent] with the same
    data and [null] as event type. *)
Theorem analyzeStream_event_type_lost_across_chunks :
  forall (Json : Type) (JSON_parse : string -> option Json)
         (trim : string -> string) (v : Json),
    JSON_parse "1" = Some v ->
    Sse.analyzeStream Json JSON_parse trim true 200
      [ (Sse.ln "event: a" ++ Sse.ln "data: 1")%string ]
    = Sse.Completed Json [ (v, Some (trim "a")) ] /\
    Sse.analyzeStream Json JSON_parse trim true 200
      [ Sse.ln "event: a"; Sse.ln "data: 1" ]
    = Sse.Completed Json [ (v, None) ].
Proof.
  intros Json JSON_parse trim v Hv. unfold Sse.analyzeStream.
  split; vm_compute; rewrite Hv; reflexivity.
Qed.

(** ** The orchestration layer *)

Module Orchestrator.

(** Modelled from the spec: the back end's orchestration (the transition
    table, the run state, the checkpoint store, the event log and the
    executor) is not among the sources of this repository's front end; the
    definitions of this module follow sections 3 to 7 of the
    specification.  Timestamps are left out.  Only [diagram_next] is taken
    from the sources: it is the state diagram of the back end's pipeline in
    the README. *)
Inductive Stage : Type := Requirement | Code | Test.

Inductive Action : Type :=
  analyze_requirements | generate_code | generate_tests | full_pipeline.

Inductive StageStatus : Type := completed | failed.

Inductive RunStatus : Type := run_running | run_completed | run_failed.

(** The current-stage pointer: [start] before any stage. *)
Inductive Pointer : Type := start | at_stage (s : Stage).

Inductive Next : Type := NextStage (s : Stage) | Terminate | TerminateFailure.

(** Modelled from the spec: the Transition Table of section 4.1, row by
    row (the back end's routing is not among the sources); a combination
    without a row has no next stage, which ends the pipeline. *)
Definition next (current : Pointer) (action : Action)
    (lastStatus : option StageStatus) : Next :=
  match lastStatus, current, action with
  | Some failed, _, _ => TerminateFailure
  | _, start, _ => NextStage Requirement
  | Some completed, at_stage Requirement, analyze_requirements => Terminate
  | Some completed, at_stage Requirement, generate_code => NextStage Code
  | Some completed, at_stage Requirement, full_pipeline => NextStage Code
  | Some completed, at_stage Requirement, generate_tests => NextStage Test
  | Some completed, at_stage Code, generate_code => Terminate
  | Some completed, at_stage Code, full_pipeline => NextStage Test
  | Some completed, at_stage Test, generate_tests => Terminate
  | Some completed, at_stage Test, full_pipeline => Terminate
  | _, _, _ => Terminate
  end.

(** The nodes of the README's diagram of the back end's pipeline. *)
Inductive Node : Type :=
  Initial | RequirementAnalyzer | CodeGenerator | TestGenerator | Final.

(** Its edges: the two choice states [ActionDecision] and [CodeDecision]
    are folded into the node they follow. *)
Definition diagram_next (n : Node) (action : Action) : Node :=
  match n, action with
  | Initial, _ => RequirementAnalyzer
  | RequirementAnalyzer, analyze_requirements => Final
  | RequirementAnalyzer, generate_code => CodeGenerator
  | RequirementAnalyzer, generate_tests => TestGenerator
  | RequirementAnalyzer, full_pipeline => CodeGenerator
  | CodeGenerator, generate_code => Final
  | CodeGenerator, full_pipeline => TestGenerator
  | CodeGenerator, _ => Final
  | TestGenerator, _ => Final
  | Final, _ => Final
  end.

Definition stage_of_node (n : Node) : option Stage :=
  match n with
  | RequirementAnalyzer => Some Requirement
  | CodeGenerator => Some Code
  | TestGenerator => Some Test
  | Initial | Final => None
  end.

(** The stages met on the diagram's path from [n], for at most [fuel]
    edges. *)
Fixpoint diagram_path (fuel : nat) (n : Node) (action : Action) : list Stage :=
  match fuel with
  | O => []
  | S fuel' =>
      let n' := diagram_next n action in
      match stage_of_node n' with
      | Some s => s :: diagram_path fuel' n' action
      | None => []
      end
  end.

Record Ticket : Type := mkTicket {
  identifier : string;
  title : string;
  description : string;
  acceptanceCriteria : list string
}.

Inductive Failure : Type := StageFailure (detail : string) | TimeoutError.

Inductive Error : Type :=
  ValidationError | ConcurrentRunError | CheckpointNotFoundError.

Section Executor.

(** The payload of a stage result is opaque to the orchestrator. *)
Variable Payload : Type.

Record StageResult : Type := mkStageResult {
  stage : Stage;
  status : StageStatus;
  payload : option Payload;
  error : option Failure
}.

Record RunState : Type := mkRunState {
  runId : nat;
  ticket : Ticket;
  action : Action;
  results : list StageResult;
  current : Pointer;
  run_status : RunStatus
}.

Record Checkpoint : Type := mkCheckpoint {
  seq : nat;
  snapshot : RunState
}.

Inductive EventKind : Type :=
  run_start | stage_start | stage_complete | stage_error | run_complete | run_error.

Record Event : Type := mkEvent {
  kind : EventKind;
  event_stage : option Stage;
  event_payload : option StageResult
}.

(** The capability behind each stage: it reads the ticket, the action and
    the results so far, and yields a payload or a failure (a timeout is one
    of the failures). *)
Variable capability : Stage -> Ticket -> Action -> list StageResult -> Failure + Payload.

(** Everything the runs share: the checkpoint store with its per-run
    history, the execution locks, the published events, and a log of the
    stage invocations. *)
Record World : Type := mkWorld {
  checkpoints : gmap nat (list Checkpoint);
  locks : gset nat;
  published : list (nat * Event);
  invocations : list (nat * Stage)
}.

Definition history (w : World) (id : nat) : list Checkpoint :=
  match checkpoints w !! id with Some h => h | None => [] end.

(** Modelled from the spec: [latest] of the Checkpoint Store (section
    4.3); [None] stands for [CheckpointNotFoundError]. *)
Definition latest (w : World) (id : nat) : option RunState :=
  match list.last (history w id) with
  | Some c => Some (snapshot c)
  | None => None
  end.

(** Modelled from the spec: [save] of the Checkpoint Store; the sequence
    numbers of a run count up from 1. *)
Definition save (id : nat) (rs : RunState) (w : World) : World :=
  let h := history w id in
  mkWorld (<[ id := h ++ [ mkCheckpoint (S (length h)) rs ] ]> (checkpoints w))
          (locks w) (published w) (invocations w).

Definition publish (id : nat) (e : Event) (w : World) : World :=
  mkWorld (checkpoints w) (locks w) (published w ++ [ (id, e) ]) (invocations w).

Definition invoked (id : nat) (s : Stage) (w : World) : World :=
  mkWorld (checkpoints w) (locks w) (published w) (invocations w ++ [ (id, s) ]).

Definition held (id : nat) (w : World) : bool := bool_decide (id ∈ locks w).

Definition acquire (id : nat) (w : World) : World :=
  mkWorld (checkpoints w) ({[ id ]} ∪ locks w) (published w) (invocations w).

Definition release (id : nat) (w : World) : World :=
  mkWorld (checkpoints w) (locks w ∖ {[ id ]}) (published w) (invocations w).

(** A run identifier no run has used. *)
Definition fresh_id (w : World) : nat := fresh (dom (checkpoints w) ∪ locks w).

Definition terminal (rs : RunState) : bool :=
  match run_status rs with
  | run_running => false
  | run_completed | run_failed => true
  end.

Definition last_status (rs : RunState) : option StageStatus :=
  match list.last (results rs) with
  | Some r => Some (status r)
  | None => None
  end.

Definition with_result (rs : RunState) (s : Stage) (r : StageResult) : RunState :=
  mkRunState (runId rs) (ticket rs) (action rs) (results rs ++ [ r ])
             (at_stage s) (run_status rs).

Definition with_status (rs : RunState) (st : RunStatus) : RunState :=
  mkRunState (runId rs) (ticket rs) (action rs) (results rs) (current rs) st.

(** One call of [execute], between two of its suspension points. *)
Inductive Call : Type :=
| Entering (t : Ticket) (a : option Action) (rid : option nat)
| InLoop (rs : RunState)
| Returned (r : Error + RunState).

(** Modelled from the spec: the entry of [execute] (section 4.2, with the
    validation of section 7), which the sources only call over HTTP:
    validation, then the three cases on [runId]. *)
Definition enter (t : Ticket) (a : option Action) (rid : option nat) (w : World)
  : Call * World :=
  match a with
  | None => (Returned (inl ValidationError), w)
  | Some act =>
      if negb (Js.truthy (identifier t)) then (Returned (inl ValidationError), w)
      else
        match rid with
        | None =>
            let id := fresh_id w in
            (InLoop (mkRunState id t act [] start run_running), acquire id w)
        | Some id =>
            match latest w id with
            | Some rs =>
                if terminal rs then (Returned (inr rs), w)
                else if held id w then (Returned (inl ConcurrentRunError), w)
                else (InLoop rs, acquire id w)
            | None =>
                if held id w then (Returned (inl ConcurrentRunError), w)
                else (InLoop (mkRunState id t act [] start run_running), acquire id w)
            end
        end
  end.

(** Modelled from the spec: one turn of the main loop of section 4.2, in
    the order the section gives to its effects.  On failure the section
    names the checkpoint before the status is set; sections 3, 6 and 7 have
    the failed state recorded in the store and returned by a later resume
    without re-execution, so the state is saved once more after its status
    is set, as it is on completion.  A stored run that is still running
    after a failed result is closed in the same way. *)
Definition turn (rs : RunState) (w : World) : Call * World :=
  let id := runId rs in
  match next (current rs) (action rs) (last_status rs) with
  | NextStage s =>
      let w1 := publish id (mkEvent stage_start (Some s) None) w in
      let w2 := invoked id s w1 in
      match capability s (ticket rs) (action rs) (results rs) with
      | inr p =>
          let r := mkStageResult s completed (Some p) None in
          let rs' := with_result rs s r in
          let w3 := save id rs' w2 in
          (InLoop rs', publish id (mkEvent stage_complete (Some s) (Some r)) w3)
      | inl f =>
          let r := mkStageResult s failed None (Some f) in
          let rs' := with_result rs s r in
          let w3 := save id rs' w2 in
          let w4 := publish id (mkEvent stage_error (Some s) (Some r)) w3 in
          let rs'' := with_status rs' run_failed in
          let w5 := save id rs'' w4 in
          let w6 := publish id (mkEvent run_error None None) w5 in
          (Returned (inr rs''), release id w6)
      end
  | Terminate =>
      let rs' := with_status rs run_completed in
      let w1 := save id rs' w in
      let w2 := publish id (mkEvent run_complete None None) w1 in
      (Returned (inr rs'), release id w2)
  | TerminateFailure =>
      let rs' := with_status rs run_failed in
      let w1 := save id rs' w in
      let w2 := publish id (mkEvent run_error None None) w1 in
      (Returned (inr rs'), release id w2)
  end.

Definition step (c : Call) (w : World) : Call * World :=
  match c with
  | Entering t a rid => enter t a rid w
  | InLoop rs => turn rs w
  | Returned r => (Returned r, w)
  end.

(** [n] steps of one call, without interference. *)
Fixpoint steps (n : nat) (c : Call) (w : World) : Call * World :=
  match n with
  | O => (c, w)
  | S n' => let (c', w') := step c w in steps n' c' w'
  end.

(** Modelled from the spec: [execute(ticket, action, runId?)] of section
    4.2, run on its own: the entry and at most four turns of the loop (three
    stages and the last consultation of the table). *)
Definition execute (t : Ticket) (a : option Action) (rid : option nat) (w : World)
  : option ((Error + RunState) * World) :=
  match steps 5 (Entering t a rid) w with
  | (Returned r, w') => Some (r, w')
  | _ => None
  end.


(** Modelled from the spec: the scheduling model of section 5.  Two calls
    in flight, and a schedule that says whose step comes next ([true]: the
    first call); a call is suspended only between its steps. *)
Definition Calls : Type := Call * Call * World.

Definition call_of (who : bool) (cs : Calls) : Call :=
  let '(c1, c2, _) := cs in if who then c1 else c2.

Definition world_of (cs : Calls) : World := let '(_, _, w) := cs in w.

Definition step_of (who : bool) (cs : Calls) : Calls :=
  let '(c1, c2, w) := cs in
  if who then let (c1', w') := step c1 w in (c1', c2, w')
  else let (c2', w') := step c2 w in (c1, c2', w').

Definition interleave (schedule : list bool) (cs : Calls) : Calls :=
  fold_left (fun cs who => step_of who cs) schedule cs.

(** *** The store *)

Lemma history_save (id : nat) (rs : RunState) (w : World) :
  history (save id rs w) id = history w id ++ [ mkCheckpoint (S (length (history w id))) rs ].
Proof. unfold history at 1, save. cbn [checkpoints]. now rewrite lookup_insert_eq. Qed.

Lemma latest_save (id : nat) (rs : RunState) (w : World) :
  latest (save id rs w) id = Some rs.
Proof. unfold latest. now rewrite history_save, last_snoc. Qed.

Lemma latest_publish (id id' : nat) (e : Event) (w : World) :
  latest (publish id e w) id' = latest w id'.
Proof. reflexivity. Qed.

Lemma release_acquire (id : nat) (l : gset nat) :
  id ∉ l -> ({[ id ]} ∪ l) ∖ {[ id ]} = l.
Proof.
  intros Hid. apply set_eq. intros x.
  rewrite elem_of_difference, elem_of_union, elem_of_singleton.
  split; [intros [[-> | H] Hx]; [congruence | exact H] |].
  intros H. split; [now right | intros ->; contradiction].
Qed.

(** *** Every call returns *)

(** The table only moves forward: [start], then [Requirement], [Code],
    [Test]. *)
Definition rank (p : Pointer) : nat :=
  match p with
  | start => 3
  | at_stage Requirement => 2
  | at_stage Code => 1
  | at_stage Test => 0
  end.

Lemma next_rank (p : Pointer) (a : Action) (ls : option StageStatus) (s : Stage) :
  next p a ls = NextStage s -> rank (at_stage s) < rank p.
Proof.
  destruct ls as [[] |], p as [| []], a; cbn; intros H;
    try discriminate; injection H as <-; cbn; lia.
Qed.

Definition is_returned (c : Call) : bool :=
  match c with Returned _ => true | _ => false end.

Lemma steps_returned (n : nat) (r : Error + RunState) (w : World) :
  steps n (Returned r) w = (Returned r, w).
Proof. induction n as [| n IH]; [reflexivity |]. cbn [steps step]. exact IH. Qed.

Lemma steps_S (n : nat) (c : Call) (w : World) :
  steps (S n) c w = let (c', w') := step c w in steps n c' w'.
Proof. reflexivity. Qed.

Lemma steps_add (n m : nat) (c : Call) (w : World) :
  steps (n + m) c w = let (c', w') := steps n c w in steps m c' w'.
Proof.
  revert c w. induction n as [| n IH]; intros c w; [reflexivity |].
  cbn [Nat.add steps]. destruct (step c w) as [c' w']. apply IH.
Qed.

(** The loop returns within one turn more than the rank of its pointer. *)
Lemma loop_returns (n : nat) :
  forall (rs : RunState) (w : World),
    rank (current rs) < n ->
    is_returned (fst (steps n (InLoop rs) w)) = true.
Proof.
  induction n as [| n IH]; intros rs w Hn; [lia |].
  cbn [steps step]. unfold turn.
  destruct (next (current rs) (action rs) (last_status rs)) as [s | |] eqn:Hnext.
  - apply next_rank in Hnext.
    destruct (capability s (ticket rs) (action rs) (results rs)).
    + now rewrite steps_returned.
    + apply IH. cbn [with_result current]. lia.
  - now rewrite steps_returned.
  - now rewrite steps_returned.
Qed.

Lemma enter_not_entering (t : Ticket) (a : option Action) (rid : option nat) (w : World) :
  match fst (enter t a rid w) with Entering _ _ _ => False | _ => True end.
Proof.
  unfold enter. destruct a; [| exact I].
  destruct (negb (Js.truthy (identifier t))); [exact I |].
  destruct rid as [id |]; [| exact I].
  destruct (latest w id) as [rs |].
  - destruct (terminal rs); [exact I |]. now destruct (held id w).
  - now destruct (held id w).
Qed.

(** A state the orchestrator enters the loop with has a pointer of rank at
    most 3, so five steps are enough for any call, in any world. *)
Lemma execute_returns (t : Ticket) (a : option Action) (rid : option nat) (w : World) :
  exists r w', execute t a rid w = Some (r, w').
Proof.
  unfold execute. change 5 with (1 + 4). rewrite steps_add.
  assert (H1 : steps 1 (Entering t a rid) w = enter t a rid w).
  { cbn [steps step]. now destruct (enter t a rid w). }
  rewrite H1. clear H1.
  pose proof (enter_not_entering t a rid w) as He.
  destruct (enter t a rid w) as [c w1]. cbn [fst] in He.
  destruct c as [| rs | r]; [destruct He | |].
  - assert (Hr : rank (current rs) < 4) by (destruct (current rs) as [| []]; cbn; lia).
    pose proof (loop_returns 4 rs w1 Hr) as H.
    destruct (steps 4 (InLoop rs) w1) as [[| |] w2]; try discriminate. eauto.
  - rewrite steps_returned. eauto.
Qed.

(** *** What a finished loop leaves in the store *)

Lemma last_status_with_result (rs : RunState) (s : Stage) (r : StageResult) :
  last_status (with_result rs s r) = Some (status r).
Proof. unfold last_status. cbn [with_result results]. now rewrite last_snoc. Qed.

(** The store files the states of run [id] under [id]. *)
Definition filed (id : nat) (w : World) : Prop :=
  forall rs, latest w id = Some rs -> runId rs = id.

(** A turn that leaves the loop returns a terminal state of the same run,
    and that state is the latest checkpoint. *)
Lemma turn_returned (rs : RunState) (w : World) (r : Error + RunState) (w' : World) :
  turn rs w = (Returned r, w') ->
  exists rs', r = inr rs' /\ terminal rs' = true /\ runId rs' = runId rs /\
              latest w' (runId rs) = Some rs'.
Proof.
  unfold turn.
  destruct (next (current rs) (action rs) (last_status rs)) as [s | |].
  - destruct (capability s (ticket rs) (action rs) (results rs)) as [f | p];
      [| discriminate].
    intros [= <- <-]. eexists. split; [reflexivity |].
    split; [reflexivity |]. split; [reflexivity |].
    change (latest (release ?i ?w) ?j) with (latest w j).
    now rewrite latest_publish, latest_save.
  - intros [= <- <-]. eexists. split; [reflexivity |].
    split; [reflexivity |]. split; [reflexivity |].
    change (latest (release ?i ?w) ?j) with (latest w j).
    now rewrite latest_publish, latest_save.
  - intros [= <- <-]. eexists. split; [reflexivity |].
    split; [reflexivity |]. split; [reflexivity |].
    change (latest (release ?i ?w) ?j) with (latest w j).
    now rewrite latest_publish, latest_save.
Qed.

Lemma turn_in_loop (rs rs1 : RunState) (w w1 : World) :
  turn rs w = (InLoop rs1, w1) -> runId rs1 = runId rs.
Proof.
  unfold turn.
  destruct (next (current rs) (action rs) (last_status rs)) as [s | |];
    [| discriminate | discriminate].
  destruct (capability s (ticket rs) (action rs) (results rs)) as [f | p];
    [discriminate |].
  now intros [= <- <-].
Qed.

(** So does the loop, however it ends: completed or failed. *)
Lemma loop_ended (n : nat) :
  forall (rs : RunState) (w : World) (r : Error + RunState) (w' : World),
    steps n (InLoop rs) w = (Returned r, w') ->
    exists rs', r = inr rs' /\ terminal rs' = true /\ runId rs' = runId rs /\
                latest w' (runId rs) = Some rs'.
Proof.
  induction n as [| n IH]; intros rs w r w' H; [discriminate |].
  rewrite steps_S in H. cbn [step] in H.
  destruct (turn rs w) as [c w1] eqn:Ht. destruct c as [t a rid | rs1 | r1].
  - exfalso. unfold turn in Ht.
    destruct (next _ _ _); [destruct (capability _ _ _ _) |..]; discriminate.
  - apply turn_in_loop in Ht. apply IH in H. now rewrite Ht in H.
  - rewrite steps_returned in H. injection H as <- <-.
    now apply turn_returned in Ht.
Qed.






(** *** Two calls on one run identifier *)

(** What the holder of the lock of run [id] maintains while it is in the
    loop: it is the run [id], it is running, the lock is taken and the
    store holds no terminal state of the run. *)
Definition holds (id : nat) (rs : RunState) (w : World) : Prop :=
  runId rs = id /\ run_status rs = run_running /\ id ∈ locks w /\
  (forall rs', latest w id = Some rs' -> terminal rs' = false).

Lemma turn_holds (id : nat) (rs rs' : RunState) (w w' : World) :
  holds id rs w -> turn rs w = (InLoop rs', w') -> holds id rs' w'.
Proof.
  intros (Hid & Hst & Hlock & Hnt) H. unfold turn in H.
  destruct (next (current rs) (action rs) (last_status rs)) as [s | |];
    [| discriminate | discriminate].
  destruct (capability s (ticket rs) (action rs) (results rs)) as [f | p];
    [discriminate |].
  injection H as <- <-. rewrite Hid. repeat split.
  - exact Hid.
  - exact Hst.
  - exact Hlock.
  - intros rs'. rewrite latest_publish, latest_save. intros [= <-].
    unfold terminal. cbn [with_result run_status]. now rewrite Hst.
Qed.

Lemma steps_holds (id : nat) (n : nat) :
  forall (rs : RunState) (w : World) (c : Call) (w' : World),
    holds id rs w -> steps n (InLoop rs) w = (c, w') ->
    match c with
    | Entering _ _ _ => False
    | InLoop rs' => holds id rs' w'
    | Returned _ => True
    end.
Proof.
  induction n as [| n IH]; intros rs w c w' Hh H.
  - injection H as <- <-. exact Hh.
  - rewrite steps_S in H. cbn [step] in H.
    destruct (turn rs w) as [c1 w1] eqn:Ht.
    destruct c1 as [t a rid | rs1 | r].
    + exfalso. unfold turn in Ht.
      destruct (next _ _ _); [destruct (capability _ _ _ _) |..]; discriminate.
    + eapply IH; [eapply turn_holds; eassumption | exact H].
    + rewrite steps_returned in H. now injection H as <- <-.
Qed.

(** A call that finds the lock of its run taken, and no terminal state,
    returns [ConcurrentRunError] and leaves the world alone. *)
Lemma enter_while_held (t : Ticket) (a : Action) (id : nat) (rs : RunState) (w : World) :
  identifier t <> "" ->
  holds id rs w ->
  enter t (Some a) (Some id) w = (Returned (inl ConcurrentRunError), w).
Proof.
  intros Ht (_ & _ & Hlock & Hnt). unfold enter.
  destruct (identifier t) as [| c i]; [congruence |]. cbn [Js.truthy negb].
  unfold held. rewrite bool_decide_eq_true_2 by exact Hlock.
  destruct (latest w id) as [rs' |] eqn:Hl; [| reflexivity].
  now rewrite (Hnt rs' eq_refl).
Qed.

(** A call that finds a running state and a free lock enters the loop. *)
Lemma enter_free (t : Ticket) (a : Action) (id : nat) (rs : RunState) (w : World) :
  identifier t <> "" ->
  latest w id = Some rs -> terminal rs = false -> runId rs = id -> id ∉ locks w ->
  enter t (Some a) (Some id) w = (InLoop rs, acquire id w) /\
  holds id rs (acquire id w).
Proof.
  intros Ht Hl Hnt Hid Hfree. unfold enter.
  destruct (identifier t) as [| c i]; [congruence |]. cbn [Js.truthy negb].
  rewrite Hl, Hnt. unfold held. rewrite bool_decide_eq_false_2 by exact Hfree.
  split; [reflexivity |]. repeat split.
  - exact Hid.
  - unfold terminal in Hnt. now destruct (run_status rs).
  - cbn [acquire locks]. apply elem_of_union_l, elem_of_singleton. reflexivity.
  - intros rs'. change (latest (acquire id w) id) with (latest w id).
    rewrite Hl. now intros [= <-].
Qed.

Definition set_call (who : bool) (c : Call) (w : World) (cs : Calls) : Calls :=
  let '(c1, c2, _) := cs in if who then (c, c2, w) else (c1, c, w).

Lemma step_of_set_call (who : bool) (cs : Calls) :
  step_of who cs =
  set_call who (fst (step (call_of who cs) (world_of cs)))
               (snd (step (call_of who cs) (world_of cs))) cs.
Proof.
  destruct cs as [[c1 c2] w], who; cbn [step_of call_of world_of set_call];
    now destruct (step _ w).
Qed.

Lemma set_call_set_call (who : bool) (c c' : Call) (w w' : World) (cs : Calls) :
  set_call who c' w' (set_call who c w cs) = set_call who c' w' cs.
Proof. now destruct cs as [[c1 c2] w0], who. Qed.

Lemma call_of_set_call (who : bool) (c : Call) (w : World) (cs : Calls) :
  call_of who (set_call who c w cs) = c.
Proof. now destruct cs as [[c1 c2] w0], who. Qed.

Lemma call_of_set_call_other (who : bool) (c : Call) (w : World) (cs : Calls) :
  call_of (negb who) (set_call who c w cs) = call_of (negb who) cs.
Proof. now destruct cs as [[c1 c2] w0], who. Qed.

Lemma world_of_set_call (who : bool) (c : Call) (w : World) (cs : Calls) :
  world_of (set_call who c w cs) = w.
Proof. now destruct cs as [[c1 c2] w0], who. Qed.

Lemma set_call_same (who : bool) (cs : Calls) :
  set_call who (call_of who cs) (world_of cs) cs = cs.
Proof. now destruct cs as [[c1 c2] w0], who. Qed.

Lemma interleave_cons (who : bool) (schedule : list bool) (cs : Calls) :
  interleave (who :: schedule) cs = interleave schedule (step_of who cs).
Proof. reflexivity. Qed.

Lemma interleave_app (s1 s2 : list bool) (cs : Calls) :
  interleave (s1 ++ s2) cs = interleave s2 (interleave s1 cs).
Proof. apply fold_left_app. Qed.

(** A stretch of the schedule in which only one call moves. *)
Lemma interleave_solo (who : bool) (k : nat) :
  forall cs : Calls,
    interleave (repeat who k) cs =
    set_call who (fst (steps k (call_of who cs) (world_of cs)))
                 (snd (steps k (call_of who cs) (world_of cs))) cs.
Proof.
  induction k as [| k IH]; intros cs.
  - cbn [repeat interleave fold_left steps fst snd]. now rewrite set_call_same.
  - cbn [repeat]. rewrite interleave_cons.
    rewrite IH, step_of_set_call, call_of_set_call, world_of_set_call,
      set_call_set_call, steps_S.
    now destruct (step (call_of who cs) (world_of cs)).
Qed.

(** The steps of [who] in a schedule. *)
Definition turns_of (who : bool) (schedule : list bool) : nat :=
  length (filter (Bool.eqb who) schedule).

(** Once the other call has returned, a schedule only advances [who]. *)
Lemma interleave_other_returned (who : bool) (schedule : list bool) :
  forall (cs : Calls) (r : Error + RunState),
    call_of (negb who) cs = Returned r ->
    interleave schedule cs =
    set_call who
      (fst (steps (turns_of who schedule) (call_of who cs) (world_of cs)))
      (snd (steps (turns_of who schedule) (call_of who cs) (world_of cs))) cs.
Proof.
  induction schedule as [| x schedule IH]; intros cs r Hr.
  - cbn [interleave fold_left turns_of filter length steps fst snd].
    now rewrite set_call_same.
  - rewrite interleave_cons.
    destruct (Bool.eqb who x) eqn:Hx.
    + apply Bool.eqb_prop in Hx. subst x.
      rewrite (IH _ r); [| now rewrite step_of_set_call, call_of_set_call_other].
      unfold turns_of. cbn [filter]. rewrite Bool.eqb_reflx. cbn [length].
      rewrite step_of_set_call, call_of_set_call, world_of_set_call,
        set_call_set_call, steps_S.
      now destruct (step (call_of who cs) (world_of cs)).
    + assert (x = negb who) by (destruct who, x; cbv in Hx; try reflexivity; discriminate).
      subst x.
      assert (Hsame : step_of (negb who) cs = cs).
      { rewrite step_of_set_call, Hr. cbn [step fst snd].
        rewrite <- Hr. apply set_call_same. }
      rewrite Hsame, (IH _ r Hr). unfold turns_of. cbn [filter]. now rewrite Hx.
Qed.

(** *** Single writer, under every schedule *)

Definition both_in_loop (cs : Calls) : bool :=
  match cs with
  | (InLoop _, InLoop _, _) => true
  | _ => false
  end.

Definition call_ok (id : nat) (c : Call) (w : World) : Prop :=
  match c with
  | Entering t a rid => identifier t <> "" /\ a <> None /\ rid = Some id
  | InLoop rs => holds id rs w
  | Returned _ => True
  end.

Definition single_writer (id : nat) (cs : Calls) : Prop :=
  let '(c1, c2, w) := cs in
  filed id w /\ call_ok id c1 w /\ call_ok id c2 w /\ both_in_loop cs = false.

Lemma turn_filed (id : nat) (rs : RunState) (w : World) :
  holds id rs w -> filed id w -> filed id (snd (turn rs w)).
Proof.
  intros (Hid & _) Hf. unfold turn.
  destruct (next (current rs) (action rs) (last_status rs)) as [s | |].
  - destruct (capability s (ticket rs) (action rs) (results rs)) as [f | p];
      cbn [snd]; intros rs'; rewrite Hid.
    + change (latest (release id ?w) id) with (latest w id).
      rewrite !latest_publish, latest_save. now intros [= <-].
    + rewrite latest_publish, latest_save. now intros [= <-].
  - cbn [snd]. intros rs'. rewrite Hid.
    change (latest (release id ?w) id) with (latest w id).
    rewrite latest_publish, latest_save. now intros [= <-].
  - cbn [snd]. intros rs'. rewrite Hid.
    change (latest (release id ?w) id) with (latest w id).
    rewrite latest_publish, latest_save. now intros [= <-].
Qed.

Lemma turn_call_ok (id : nat) (rs : RunState) (w : World) :
  holds id rs w -> call_ok id (fst (turn rs w)) (snd (turn rs w)).
Proof.
  intros Hh. destruct (turn rs w) as [c w'] eqn:Ht.
  pose proof (steps_holds id 1 rs w c w' Hh) as H.
  rewrite steps_S in H. cbn [step] in H. rewrite Ht in H. cbn [steps] in H.
  specialize (H eq_refl). cbn [fst snd].
  destruct c; [destruct H | exact H | exact I].
Qed.

(** Entering when nobody is in the loop: the states of the run stay filed
    and a call that enters the loop holds the run. *)
Lemma enter_call_ok (id : nat) (t : Ticket) (a : option Action) (w : World) :
  filed id w ->
  filed id (snd (enter t a (Some id) w)) /\
  call_ok id (fst (enter t a (Some id) w)) (snd (enter t a (Some id) w)).
Proof.
  intros Hf. unfold enter. destruct a as [act |]; [| now split].
  destruct (negb (Js.truthy (identifier t))); [now split |].
  destruct (latest w id) as [rs |] eqn:Hl.
  - destruct (terminal rs) eqn:Hterm; [now split |].
    destruct (held id w); [now split |]. cbn [fst snd]. split; [exact Hf |].
    repeat split.
    + now apply Hf.
    + unfold terminal in Hterm. now destruct (run_status rs).
    + cbn [acquire locks]. apply elem_of_union_l, elem_of_singleton. reflexivity.
    + intros rs'. change (latest (acquire id w) id) with (latest w id).
      rewrite Hl. now intros [= <-].
  - destruct (held id w); [now split |]. cbn [fst snd]. split; [exact Hf |].
    repeat split.
    + cbn [acquire locks]. apply elem_of_union_l, elem_of_singleton. reflexivity.
    + intros rs'. change (latest (acquire id w) id) with (latest w id).
      rewrite Hl. discriminate.
Qed.

Lemma single_writer_intro (id : nat) (c1 c2 : Call) (w : World) :
  filed id w -> call_ok id c1 w -> call_ok id c2 w ->
  both_in_loop (c1, c2, w) = false -> single_writer id (c1, c2, w).
Proof. intros. repeat (split; [assumption |]). assumption. Qed.

(** The step of a call that is entering, next to any other call. *)
Lemma enter_single_writer (id : nat) (t : Ticket) (act : Action) (other : Call) (w : World) :
  identifier t <> "" -> filed id w -> call_ok id other w ->
  let (c, w') := enter t (Some act) (Some id) w in
  filed id w' /\ call_ok id c w' /\ call_ok id other w' /\
  match c, other with InLoop _, InLoop _ => False | _, _ => True end.
Proof.
  intros Ht Hf Ho. destruct other as [t2 a2 rid2 | rs2 | r2].
  - destruct (enter_call_ok id t (Some act) w Hf) as [Hf' Hc].
    destruct (enter t (Some act) (Some id) w) as [c w']. cbn [fst snd] in *.
    repeat (split; [assumption |]). now destruct c.
  - rewrite (enter_while_held t act id rs2 w Ht Ho).
    split; [exact Hf |]. split; [exact I |]. split; [exact Ho | exact I].
  - destruct (enter_call_ok id t (Some act) w Hf) as [Hf' Hc].
    destruct (enter t (Some act) (Some id) w) as [c w']. cbn [fst snd] in *.
    repeat (split; [assumption |]). now destruct c.
Qed.

(** The step of the call that is in the loop, next to a call that is not. *)
Lemma turn_single_writer (id : nat) (rs : RunState) (other : Call) (w : World) :
  holds id rs w -> filed id w -> call_ok id other w ->
  match other with InLoop _ => False | _ => True end ->
  let (c, w') := turn rs w in
  filed id w' /\ call_ok id c w' /\ call_ok id other w'.
Proof.
  intros Hh Hf Ho Hn.
  pose proof (turn_filed id rs w Hh Hf) as Hf'.
  pose proof (turn_call_ok id rs w Hh) as Hc.
  destruct (turn rs w) as [c w']. cbn [fst snd] in *.
  repeat (split; [assumption |]). now destruct other.
Qed.

Lemma step_single_writer (id : nat) (who : bool) (cs : Calls) :
  single_writer id cs -> single_writer id (step_of who cs).
Proof.
  destruct cs as [[c1 c2] w]. intros (Hf & H1 & H2 & Hb).
  destruct who; cbn [step_of].
  - destruct c1 as [t a rid | rs | r]; cbn [step].
    + destruct H1 as (Ht & Ha & ->). destruct a as [act |]; [| congruence].
      pose proof (enter_single_writer id t act c2 w Ht Hf H2) as H.
      destruct (enter t (Some act) (Some id) w) as [c w'].
      destruct H as (Hf' & Hc & Ho & Hx).
      apply single_writer_intro; try assumption.
      destruct c; try reflexivity. now destruct c2.
    + assert (Hn : match c2 with InLoop _ => False | _ => True end)
        by (now destruct c2).
      pose proof (turn_single_writer id rs c2 w H1 Hf H2 Hn) as H.
      destruct (turn rs w) as [c w']. destruct H as (Hf' & Hc & Ho).
      apply single_writer_intro; try assumption.
      destruct c; try reflexivity. now destruct c2.
    + now apply single_writer_intro.
  - destruct c2 as [t a rid | rs | r]; cbn [step].
    + destruct H2 as (Ht & Ha & ->). destruct a as [act |]; [| congruence].
      pose proof (enter_single_writer id t act c1 w Ht Hf H1) as H.
      destruct (enter t (Some act) (Some id) w) as [c w'].
      destruct H as (Hf' & Hc & Ho & Hx).
      apply single_writer_intro; try assumption.
      destruct c1; try reflexivity. now destruct c.
    + assert (Hn : match c1 with InLoop _ => False | _ => True end)
        by (now destruct c1).
      pose proof (turn_single_writer id rs c1 w H2 Hf H1 Hn) as H.
      destruct (turn rs w) as [c w']. destruct H as (Hf' & Hc & Ho).
      apply single_writer_intro; try assumption.
      now destruct c1.
    + apply single_writer_intro; try assumption; now destruct c1.
Qed.

Lemma interleave_single_writer (id : nat) (schedule : list bool) :
  forall cs : Calls, single_writer id cs -> single_writer id (interleave schedule cs).
Proof.
  induction schedule as [| who schedule IH]; intros cs H; [exact H |].
  rewrite interleave_cons. apply IH, step_single_writer, H.
Qed.

(** *** Two overlapping calls *)

Lemma call_of_set_call_negb (who : bool) (c : Call) (w : World) (cs : Calls) :
  call_of who (set_call (negb who) c w cs) = call_of who cs.
Proof. now destruct cs as [[c1 c2] w0], who. Qed.

(** The first call enters and makes [n] more steps, still in the loop; then
    the other call enters: it is turned away, and from there on the schedule
    only advances the first call. *)
Lemma overlap (first : bool) (n : nat) (rest : list bool) (cs0 : Calls)
    (id : nat) (t t' : Ticket) (a a' : Action) (rs0 : RunState) :
  call_of first cs0 = Entering t (Some a) (Some id) ->
  call_of (negb first) cs0 = Entering t' (Some a') (Some id) ->
  identifier t <> "" -> identifier t' <> "" ->
  latest (world_of cs0) id = Some rs0 -> terminal rs0 = false ->
  runId rs0 = id -> id ∉ locks (world_of cs0) ->
  is_returned (call_of first (interleave (first :: repeat first n) cs0)) = false ->
  (exists rs, call_of first (interleave (first :: repeat first n) cs0) = InLoop rs) /\
  call_of (negb first)
    (interleave (negb first :: rest) (interleave (first :: repeat first n) cs0))
  = Returned (inl ConcurrentRunError) /\
  (call_of first
     (interleave (negb first :: rest) (interleave (first :: repeat first n) cs0)),
   world_of
     (interleave (negb first :: rest) (interleave (first :: repeat first n) cs0)))
  = steps (S n + turns_of first rest) (call_of first cs0) (world_of cs0).
Proof.
  intros Hc Hc' Ht Ht' Hl Hnt Hid Hfree.
  change (first :: repeat first n) with (repeat first (S n)).
  rewrite interleave_solo, steps_add, Hc, steps_S. cbn [step].
  destruct (enter_free t a id rs0 (world_of cs0) Ht Hl Hnt Hid Hfree) as [-> Hh].
  destruct (steps n (InLoop rs0) (acquire id (world_of cs0))) as [c w1] eqn:Hs.
  apply (steps_holds id) in Hs; [| exact Hh].
  cbn [fst snd]. rewrite call_of_set_call. intros Hrun.
  destruct c as [| rs |]; [destruct Hs | | discriminate].
  split; [now exists rs |].
  rewrite interleave_cons, step_of_set_call, call_of_set_call_other,
    world_of_set_call, Hc'. cbn [step].
  rewrite (enter_while_held t' a' id rs w1 Ht' Hs). cbn [fst snd].
  rewrite (interleave_other_returned first rest _ (inl ConcurrentRunError))
    by apply call_of_set_call.
  rewrite call_of_set_call_other, call_of_set_call, call_of_set_call,
    world_of_set_call, call_of_set_call_negb, world_of_set_call, call_of_set_call.
  split; [reflexivity |].
  now destruct (steps (turns_of first rest) (InLoop rs) w1).
Qed.

End Executor.

Arguments mkStageResult {Payload} _ _ _ _.
Arguments stage {Payload} _.
Arguments status {Payload} _.
Arguments payload {Payload} _.
Arguments error {Payload} _.
Arguments mkRunState {Payload} _ _ _ _ _ _.
Arguments runId {Payload} _.
Arguments ticket {Payload} _.
Arguments action {Payload} _.
Arguments results {Payload} _.
Arguments current {Payload} _.
Arguments run_status {Payload} _.
Arguments mkWorld {Payload} _ _ _ _.
Arguments checkpoints {Payload} _.
Arguments locks {Payload} _.
Arguments published {Payload} _.
Arguments invocations {Payload} _.
Arguments history {Payload} _ _.
Arguments latest {Payload} _ _.
Arguments save {Payload} _ _ _.
Arguments publish {Payload} _ _ _.
Arguments invoked {Payload} _ _ _.
Arguments held {Payload} _ _.
Arguments acquire {Payload} _ _.
Arguments release {Payload} _ _.
Arguments fresh_id {Payload} _.
Arguments terminal {Payload} _.
Arguments last_status {Payload} _.
Arguments Entering {Payload} _ _ _.
Arguments InLoop {Payload} _.
Arguments Returned {Payload} _.
Arguments holds {Payload} _ _ _.
Arguments both_in_loop {Payload} _.
Arguments is_returned {Payload} _.
Arguments filed {Payload} _ _.
Arguments call_of {Payload} _ _.
Arguments world_of {Payload} _.

End Orchestrator.

(** The stage sequence the Transition Table prescribes for each action. *)
Definition stage_sequence (a : Orchestrator.Action) : list Orchestrator.Stage :=
  match a with
  | Orchestrator.analyze_requirements => [ Orchestrator.Requirement ]
  | Orchestrator.generate_code => [ Orchestrator.Requirement; Orchestrator.Code ]
  | Orchestrator.generate_tests => [ Orchestrator.Requirement; Orchestrator.Test ]
  | Orchestrator.full_pipeline =>
      [ Orchestrator.Requirement; Orchestrator.Code; Orchestrator.Test ]
  end.

(** One turn of the loop at a stage whose capability succeeds. *)
Ltac turn_ok Hok :=
  cbn [Orchestrator.steps Orchestrator.step];
  unfold Orchestrator.turn at 1;
  cbn -[Orchestrator.save Orchestrator.publish Orchestrator.invoked
        Orchestrator.acquire Orchestrator.release Orchestrator.fresh_id
        Orchestrator.steps Orchestrator.step Orchestrator.turn];
  match goal with
  | |- context [ ?cap ?s ?t ?a ?r ] =>
      match type of (Hok s t a r) with
      | ex _ => let p := fresh "p" in let Hp := fresh "Hp" in
                destruct (Hok s t a r) as [p Hp]; rewrite Hp; clear Hp
      end
  end.

(** The last turn: the table says [Terminate]. *)
Ltac turn_end :=
  cbn [Orchestrator.steps Orchestrator.step];
  unfold Orchestrator.turn at 1;
  cbn -[Orchestrator.save Orchestrator.publish Orchestrator.invoked
        Orchestrator.acquire Orchestrator.release Orchestrator.fresh_id
        Orchestrator.steps Orchestrator.step Orchestrator.turn];
  rewrite ?Orchestrator.steps_returned.

(** The call has returned: read the run state and the world off. *)
Ltac finish_run :=
  cbn [Orchestrator.steps Orchestrator.step];
  do 2 eexists; split; [reflexivity |];
  cbn; rewrite <- ?app_assoc; repeat split; reflexivity.

(** C1.  With every stage completing, a fresh run with a given action
    invokes exactly the stages of the Transition Table for that action, in
    that order, records one result for each and ends completed; the path
    through the README's pipeline diagram is the same sequence. *)
Theorem pipeline_stage_sequence :
  forall (Payload : Type)
         (capability : Orchestrator.Stage -> Orchestrator.Ticket -> Orchestrator.Action ->
                       list (Orchestrator.StageResult Payload) ->
                       Orchestrator.Failure + Payload)
         (t : Orchestrator.Ticket) (a : Orchestrator.Action)
         (w : Orchestrator.World Payload),
    Orchestrator.identifier t <> "" ->
    (forall s t a rs, exists p, capability s t a rs = inr p) ->
    exists rs w',
      Orchestrator.execute Payload capability t (Some a) None w = Some (inr rs, w') /\
      map Orchestrator.stage (Orchestrator.results rs) = stage_sequence a /\
      Orchestrator.invocations w' =
        Orchestrator.invocations w ++
        map (fun s => (Orchestrator.runId rs, s)) (stage_sequence a) /\
      Orchestrator.run_status rs = Orchestrator.run_completed /\
      Orchestrator.diagram_path 4 Orchestrator.Initial a = stage_sequence a.
Proof.
  intros Payload capability t a w Ht Hok.
  assert (Htr : Js.truthy (Orchestrator.identifier t) = true).
  { destruct (Orchestrator.identifier t); [congruence | reflexivity]. }
  unfold Orchestrator.execute.
  cbn [Orchestrator.steps Orchestrator.step Orchestrator.enter]. rewrite Htr. cbn [negb].
  destruct a.
  - turn_ok Hok. turn_end. finish_run.
  - do 2 turn_ok Hok. turn_end. finish_run.
  - do 2 turn_ok Hok. turn_end. finish_run.
  - do 3 turn_ok Hok. turn_end. finish_run.
Qed.


(** C8.  Two calls of [execute] on one run identifier whose stored state is
    not terminal and whose lock is free.  Under every schedule the two are
    never in the loop together.  The call that moves first is admitted: it
    enters the loop with the stored state and takes the lock, and on its own
    it runs to a terminal state.  When the other call enters next, it
    returns [ConcurrentRunError] and the first goes on exactly as it would
    alone; the same holds whenever the other call enters while the first is
    still in the loop. *)
Theorem concurrent_execute_single_writer :
  forall (Payload : Type)
         (capability : Orchestrator.Stage -> Orchestrator.Ticket -> Orchestrator.Action ->
                       list (Orchestrator.StageResult Payload) ->
                       Orchestrator.Failure + Payload)
         (t1 t2 : Orchestrator.Ticket) (a1 a2 : Orchestrator.Action) (id : nat)
         (w : Orchestrator.World Payload) (rs0 : Orchestrator.RunState Payload),
    Orchestrator.identifier t1 <> "" ->
    Orchestrator.identifier t2 <> "" ->
    Orchestrator.latest w id = Some rs0 ->
    Orchestrator.terminal rs0 = false ->
    Orchestrator.runId rs0 = id ->
    id ∉ Orchestrator.locks w ->
    let cs0 := (Orchestrator.Entering t1 (Some a1) (Some id),
                Orchestrator.Entering t2 (Some a2) (Some id), w) in
    (forall schedule : list bool,
        Orchestrator.both_in_loop
          (Orchestrator.interleave Payload capability schedule cs0) = false) /\
    (forall first : bool,
        let cs1 := Orchestrator.interleave Payload capability [ first ] cs0 in
        Orchestrator.call_of first cs1 = Orchestrator.InLoop rs0 /\
        Orchestrator.world_of cs1 = Orchestrator.acquire id w /\
        exists rs w',
          Orchestrator.steps Payload capability 5 (Orchestrator.call_of first cs0) w
          = (Orchestrator.Returned (inr rs), w') /\
          Orchestrator.terminal rs = true) /\
    (forall (first : bool) (rest : list bool),
        let cs2 := Orchestrator.interleave Payload capability
                     (first :: negb first :: rest) cs0 in
        Orchestrator.call_of (negb first) cs2
        = Orchestrator.Returned (inl Orchestrator.ConcurrentRunError) /\
        (Orchestrator.call_of first cs2, Orchestrator.world_of cs2)
        = Orchestrator.steps Payload capability
            (1 + Orchestrator.turns_of first rest)
            (Orchestrator.call_of first cs0) w) /\
    (forall (first : bool) (n : nat) (rest : list bool),
        let cs1 := Orchestrator.interleave Payload capability
                     (first :: repeat first n) cs0 in
        Orchestrator.is_returned (Orchestrator.call_of first cs1) = false ->
        let cs2 := Orchestrator.interleave Payload capability
                     (negb first :: rest) cs1 in
        (exists rs, Orchestrator.call_of first cs1 = Orchestrator.InLoop rs) /\
        Orchestrator.call_of (negb first) cs2
        = Orchestrator.Returned (inl Orchestrator.ConcurrentRunError) /\
        (Orchestrator.call_of first cs2, Orchestrator.world_of cs2)
        = Orchestrator.steps Payload capability
            (S n + Orchestrator.turns_of first rest)
            (Orchestrator.call_of first cs0) w).
Proof.
  intros Payload capability t1 t2 a1 a2 id w rs0 Ht1 Ht2 Hl Hnt Hid Hfree cs0.
  assert (Henter : forall first : bool,
             Orchestrator.step Payload capability (Orchestrator.call_of first cs0) w
             = (Orchestrator.InLoop rs0, Orchestrator.acquire id w)).
  { intros first. destruct first; cbn [Orchestrator.call_of cs0 Orchestrator.step].
    - exact (proj1 (Orchestrator.enter_free Payload t1 a1 id rs0 w Ht1 Hl Hnt Hid Hfree)).
    - exact (proj1 (Orchestrator.enter_free Payload t2 a2 id rs0 w Ht2 Hl Hnt Hid Hfree)). }
  assert (Hfirst : forall first : bool,
             Orchestrator.interleave Payload capability [ first ] cs0
             = Orchestrator.set_call Payload first (Orchestrator.InLoop rs0)
                 (Orchestrator.acquire id w) cs0).
  { intros first. rewrite Orchestrator.interleave_cons.
    cbn [Orchestrator.interleave fold_left].
    rewrite Orchestrator.step_of_set_call.
    change (Orchestrator.world_of cs0) with w. now rewrite Henter. }
  assert (Hoverlap : forall (first : bool) (n : nat) (rest : list bool),
             Orchestrator.is_returned
               (Orchestrator.call_of first
                  (Orchestrator.interleave Payload capability
                     (first :: repeat first n) cs0)) = false ->
             (exists rs,
                 Orchestrator.call_of first
                   (Orchestrator.interleave Payload capability
                      (first :: repeat first n) cs0) = Orchestrator.InLoop rs) /\
             Orchestrator.call_of (negb first)
               (Orchestrator.interleave Payload capability (negb first :: rest)
                  (Orchestrator.interleave Payload capability
                     (first :: repeat first n) cs0))
             = Orchestrator.Returned (inl Orchestrator.ConcurrentRunError) /\
             (Orchestrator.call_of first
                (Orchestrator.interleave Payload capability (negb first :: rest)
                   (Orchestrator.interleave Payload capability
                      (first :: repeat first n) cs0)),
              Orchestrator.world_of
                (Orchestrator.interleave Payload capability (negb first :: rest)
                   (Orchestrator.interleave Payload capability
                      (first :: repeat first n) cs0)))
             = Orchestrator.steps Payload capability
                 (S n + Orchestrator.turns_of first rest)
                 (Orchestrator.call_of first cs0) w).
  { intros first n rest.
    apply (Orchestrator.overlap Payload capability first n rest cs0 id
             (if first then t1 else t2) (if first then t2 else t1)
             (if first then a1 else a2) (if first then a2 else a1) rs0);
      try assumption; now destruct first. }
  split; [| split; [| split]].
  - intros schedule.
    assert (H0 : Orchestrator.single_writer Payload id cs0).
    { apply Orchestrator.single_writer_intro; [| now repeat split ..].
      intros rs. rewrite Hl. now intros [= <-]. }
    apply (Orchestrator.interleave_single_writer Payload capability id schedule) in H0.
    destruct (Orchestrator.interleave Payload capability schedule cs0) as [[c1 c2] w'].
    now destruct H0 as (_ & _ & _ & H0).
  - intros first cs1. subst cs1. rewrite Hfirst.
    rewrite Orchestrator.call_of_set_call, Orchestrator.world_of_set_call.
    split; [reflexivity |]. split; [reflexivity |].
    rewrite Orchestrator.steps_S, Henter.
    assert (Hr : Orchestrator.rank (Orchestrator.current rs0) < 4)
      by (destruct (Orchestrator.current rs0) as [| []]; cbn; lia).
    pose proof (Orchestrator.loop_returns Payload capability 4 rs0
                  (Orchestrator.acquire id w) Hr) as Hret.
    destruct (Orchestrator.steps Payload capability 4 (Orchestrator.InLoop rs0)
                (Orchestrator.acquire id w)) as [c w'] eqn:Hs.
    cbn [fst] in Hret. destruct c as [| | r]; try discriminate Hret.
    apply Orchestrator.loop_ended in Hs as (rs' & -> & Hterm & _). eauto.
  - intros first rest cs2. subst cs2.
    change (first :: negb first :: rest) with ([ first ] ++ negb first :: rest).
    rewrite Orchestrator.interleave_app.
    destruct (Hoverlap first 0 rest) as (_ & H2 & H3).
    + cbn [repeat]. now rewrite Hfirst, Orchestrator.call_of_set_call.
    + cbn [repeat] in H2, H3. split; [exact H2 | exact H3].
  - intros first n rest cs1 Hrun cs2. subst cs1 cs2. now apply Hoverlap.
Qed.

(** ** [TraceabilityMatrix.jsx]: the traceability map and its statistics *)

Module Traceability.

(** A requirement, a code change and a test, as far as the component reads
    them.  [implements_requirements] and [covers_requirement] may be
    absent. *)
Record requirement := mkRequirement {
  id : string;
  description : string;
  priority : string
}.

Record change := mkChange {
  change_file : string;
  implements_requirements : option (list string)
}.

Record test := mkTest {
  test_name : string;
  covers_requirement : option string
}.

(** One value of the map. *)
Record entry := mkEntry {
  entry_requirement : requirement;
  codeChanges : list change;
  tests : list test;
  status : string
}.

(** The object [map]: its own properties and, once a requirement whose id
    is ["__proto__"] has been stored, the entry that assignment installed as
    the object's prototype instead of storing it. *)
Record object := mkObject {
  own : gmap string entry;
  proto : option entry
}.

(** What [map[k]] evaluates to. *)
Inductive slot : Type :=
| Own (e : entry)
| Prototype (e : entry)
| Inherited
| Undefined.

Section Matrix.

(** The property names every object literal inherits from
    [Object.prototype] (["constructor"], ["toString"], ...), apart from
    ["__proto__"]; their values are functions, hence truthy. *)
Variable inherited : string -> bool.

(** [Math.round((n / total) * 100)] for a positive [total]. *)
Variable percent : nat -> nat -> nat.

(** The properties of an entry, visible through the prototype chain once
    an entry is the prototype. *)
Definition entry_fields : list string :=
  [ "requirement"; "codeChanges"; "tests"; "status" ].

Definition get (m : object) (k : string) : slot :=
  match own m !! k with
  | Some e => Own e
  | None =>
      if String.eqb k "__proto__" then
        match proto m with Some e => Prototype e | None => Inherited end
      else if match proto m with Some _ => Js.includes entry_fields k | None => false end
      then Inherited
      else if inherited k then Inherited
      else Undefined
  end.

(** [map[req.id] = {...}]. *)
Definition init_entry (m : object) (req : requirement) : object :=
  let e := mkEntry req [] [] "uncovered" in
  if String.eqb (id req) "__proto__" then mkObject (own m) (Some e)
  else mkObject (<[ id req := e ]> (own m)) (proto m).

Definition push_change (c : change) (e : entry) : entry :=
  mkEntry (entry_requirement e) (codeChanges e ++ [ c ]) (tests e) (status e).

Definition push_test (t : test) (e : entry) : entry :=
  mkEntry (entry_requirement e) (codeChanges e) (tests e ++ [ t ]) (status e).

(** [if (map[k]) map[k].field.push(x)]: [None] is the [TypeError] raised
    when [map[k]] is truthy but has no such array. *)
Definition push_at (push : entry -> entry) (m : object) (k : string) : option object :=
  match get m k with
  | Own e => Some (mkObject (<[ k := push e ]> (own m)) (proto m))
  | Prototype e => Some (mkObject (own m) (Some (push e)))
  | Inherited => None
  | Undefined => Some m
  end.

(** [forEach] with a body that may throw. *)
Fixpoint forEach {A S : Type} (body : S -> A -> option S) (l : list A) (s : S)
  : option S :=
  match l with
  | [] => Some s
  | x :: rest =>
      match body s x with
      | Some s' => forEach body rest s'
      | None => None
      end
  end.

Definition link_change (m : object) (c : change) : option object :=
  forEach (push_at (push_change c))
          (match implements_requirements c with Some l => l | None => [] end) m.

Definition link_test (m : object) (t : test) : option object :=
  match covers_requirement t with
  | Some k => if Js.truthy k then push_at (push_test t) m k else Some m
  | None => Some m
  end.

(** "Calculate status for each requirement". *)
Definition with_status (e : entry) : entry :=
  let hasCode := negb (length (codeChanges e) =? 0)%nat in
  let hasTests := negb (length (tests e) =? 0)%nat in
  mkEntry (entry_requirement e) (codeChanges e) (tests e)
    (if hasCode && hasTests then "fully_covered"
     else if hasCode || hasTests then "partially_covered"
     else "uncovered").

(** [traceabilityData]: the own properties of [map], or [None] when the
    computation throws. *)
Definition traceabilityData (requirements : list requirement)
    (changes : list change) (tsts : list test) : option (gmap string entry) :=
  let m0 := fold_left init_entry requirements (mkObject ∅ None) in
  match forEach link_change changes m0 with
  | None => None
  | Some m1 =>
      match forEach link_test tsts m1 with
      | None => None
      | Some m2 => Some (with_status <$> own m2)
      end
  end.

Record statistics := mkStats {
  total : nat;
  fullyCovered : nat;
  partiallyCovered : nat;
  uncovered : nat;
  coveragePercent : nat;
  partialPercent : nat
}.

Definition count_status (s : string) (entries : list entry) : nat :=
  length (filter (fun e => String.eqb (status e) s) entries).

(** [stats], from [Object.values(traceabilityData)]. *)
Definition stats (data : gmap string entry) : statistics :=
  let entries := map snd (map_to_list data) in
  let total := length entries in
  let fullyCovered := count_status "fully_covered" entries in
  let partiallyCovered := count_status "partially_covered" entries in
  let uncovered := count_status "uncovered" entries in
  mkStats total fullyCovered partiallyCovered uncovered
    (if (0 <? total)%nat then percent fullyCovered total else 0)
    (if (0 <? total)%nat then percent (fullyCovered + partiallyCovered) total else 0).

(** *** How the map evolves *)

Lemma with_status_cases (e : entry) :
  (status (with_status e) = "fully_covered" /\ codeChanges e <> [] /\ tests e <> []) \/
  (status (with_status e) = "uncovered" /\ codeChanges e = [] /\ tests e = []) \/
  (status (with_status e) = "partially_covered" /\
   ((codeChanges e <> [] /\ tests e = []) \/ (codeChanges e = [] /\ tests e <> []))).
Proof.
  unfold with_status. cbn [status].
  destruct (codeChanges e) as [| c cs], (tests e) as [| t ts]; cbn.
  - right. left. auto.
  - right. right. split; [reflexivity |]. right. split; [reflexivity | discriminate].
  - right. right. split; [reflexivity |]. left. split; [discriminate | reflexivity].
  - left. repeat split; discriminate.
Qed.

(** The own properties after [if (map[k]) map[k].field.push(x)]. *)
Lemma push_at_own (push : entry -> entry) (m m' : object) (k : string) :
  push_at push m k = Some m' ->
  own m' = match own m !! k with
           | Some e => <[ k := push e ]> (own m)
           | None => own m
           end.
Proof.
  unfold push_at, get. destruct (own m !! k) as [e |].
  - now intros [= <-].
  - destruct (String.eqb k "__proto__").
    + destruct (proto m); [now intros [= <-] | discriminate].
    + destruct (match proto m with Some _ => _ | None => _ end); [discriminate |].
      destruct (inherited k); [discriminate | now intros [= <-]].
Qed.

(** The entries start without links. *)
Lemma init_unlinked (requirements : list requirement) :
  forall m : object,
    (forall k e, own m !! k = Some e -> codeChanges e = [] /\ tests e = []) ->
    forall k e, own (fold_left init_entry requirements m) !! k = Some e ->
                codeChanges e = [] /\ tests e = [].
Proof.
  induction requirements as [| req rest IH]; intros m Hm; [exact Hm |].
  cbn [fold_left]. apply IH. intros k e. unfold init_entry.
  destruct (String.eqb (id req) "__proto__"); cbn [own]; [apply Hm |].
  rewrite lookup_insert. case_decide; [| apply Hm]. now intros [= <-].
Qed.

(** The links one code change adds. *)
Lemma link_change_own (c : change) (ks : list string) :
  forall m m' : object,
    forEach (push_at (push_change c)) ks m = Some m' ->
    forall k e', own m' !! k = Some e' ->
      exists e, own m !! k = Some e /\ tests e' = tests e /\
                forall x, In x (codeChanges e') <->
                          In x (codeChanges e) \/ (x = c /\ In k ks).
Proof.
  induction ks as [| k0 ks IH]; intros m m' H k e' He'.
  - injection H as <-. exists e'. split; [exact He' |]. split; [reflexivity |].
    intros x. cbn [In]. tauto.
  - cbn [forEach] in H.
    destruct (push_at (push_change c) m k0) as [m1 |] eqn:Hp; [| discriminate].
    destruct (IH m1 m' H k e' He') as (e1 & He1 & Ht & Hc).
    apply push_at_own in Hp. rewrite Hp in He1.
    destruct (own m !! k0) as [e0 |] eqn:H0.
    + rewrite lookup_insert in He1. case_decide as Hk.
      * subst k0. injection He1 as <-. exists e0. split; [exact H0 |].
        split; [exact Ht |]. intros x. rewrite Hc. cbn [push_change codeChanges In].
        rewrite in_app_iff. cbn [In]. intuition congruence.
      * exists e1. split; [exact He1 |]. split; [exact Ht |].
        intros x. rewrite Hc. cbn [In]. intuition congruence.
    + exists e1. split; [exact He1 |]. split; [exact Ht |].
      intros x. rewrite Hc. cbn [In]. intuition congruence.
Qed.

Lemma link_changes_own (changes : list change) :
  forall m m' : object,
    forEach link_change changes m = Some m' ->
    forall k e', own m' !! k = Some e' ->
      exists e, own m !! k = Some e /\ tests e' = tests e /\
                forall x, In x (codeChanges e') <->
                          In x (codeChanges e) \/
                          (In x changes /\ exists ks, implements_requirements x = Some ks /\ In k ks).
Proof.
  induction changes as [| c rest IH]; intros m m' H k e' He'.
  - injection H as <-. exists e'. split; [exact He' |]. split; [reflexivity |].
    intros x. cbn [In]. tauto.
  - cbn [forEach] in H. destruct (link_change m c) as [m1 |] eqn:Hl; [| discriminate].
    destruct (IH m1 m' H k e' He') as (e1 & He1 & Ht & Hc).
    destruct (link_change_own c _ m m1 Hl k e1 He1) as (e & He & Ht1 & Hc1).
    exists e. split; [exact He |]. split; [congruence |].
    intros x. rewrite Hc, Hc1. cbn [In]. split.
    + intros [[H1 | [-> H1]] | H1]; [tauto | | tauto].
      right. split; [now left |].
      destruct (implements_requirements c) as [l |]; [eauto | destruct H1].
    + intros [H1 | [[<- | H1] (ks & Hks & Hin)]]; [tauto | | eauto].
      left. right. split; [reflexivity |]. now rewrite Hks.
Qed.

(** The links the tests add. *)
Lemma link_tests_own (tsts : list test) :
  forall m m' : object,
    forEach link_test tsts m = Some m' ->
    forall k e', own m' !! k = Some e' ->
      exists e, own m !! k = Some e /\ codeChanges e' = codeChanges e /\
                forall x, In x (tests e') <->
                          In x (tests e) \/
                          (In x tsts /\ covers_requirement x = Some k /\ k <> "").
Proof.
  induction tsts as [| t rest IH]; intros m m' H k e' He'.
  - injection H as <-. exists e'. split; [exact He' |]. split; [reflexivity |].
    intros x. cbn [In]. tauto.
  - cbn [forEach] in H. destruct (link_test m t) as [m1 |] eqn:Hl; [| discriminate].
    destruct (IH m1 m' H k e' He') as (e1 & He1 & Hcc & Ht).
    assert (Hstep : exists e, own m !! k = Some e /\ codeChanges e1 = codeChanges e /\
              forall x, In x (tests e1) <->
                        In x (tests e) \/ (x = t /\ covers_requirement t = Some k /\ k <> "")).
    { unfold link_test in Hl.
      destruct (covers_requirement t) as [k0 |];
        [destruct (Js.truthy k0) eqn:Htr |].
      - apply push_at_own in Hl. rewrite Hl in He1.
        assert (Hk0 : k0 <> "") by (intros ->; discriminate).
        destruct (own m !! k0) as [e0 |] eqn:H0.
        + rewrite lookup_insert in He1. case_decide as Hk.
          * subst k0. injection He1 as <-. exists e0. split; [exact H0 |].
            split; [reflexivity |]. intros x. cbn [push_test tests].
            rewrite in_app_iff. cbn [In]. intuition congruence.
          * exists e1. split; [exact He1 |]. split; [reflexivity |].
            intros x. intuition congruence.
        + exists e1. split; [exact He1 |]. split; [reflexivity |].
          intros x. intuition congruence.
      - injection Hl as <-. apply Js.truthy_false in Htr. subst k0.
        exists e1. split; [exact He1 |]. split; [reflexivity |].
        intros x. intuition congruence.
      - injection Hl as <-. exists e1. split; [exact He1 |]. split; [reflexivity |].
        intros x. intuition congruence. }
    destruct Hstep as (e & He & Hcc1 & Ht1).
    exists e. split; [exact He |]. split; [congruence |].
    intros x. rewrite Ht, Ht1. cbn [In]. intuition (subst; auto).
Qed.

(** *** When the map is computed *)

(** A key that names neither ["__proto__"] nor an inherited property. *)
Definition plain_key (k : string) : Prop :=
  k <> "__proto__" /\ inherited k = false.

Lemma push_at_plain (push : entry -> entry) (m : object) (k : string) :
  proto m = None -> plain_key k ->
  exists m', push_at push m k = Some m' /\ proto m' = None.
Proof.
  intros Hp [Hk Hi]. unfold push_at, get. rewrite Hp, Hi.
  apply String.eqb_neq in Hk. rewrite Hk.
  destruct (own m !! k); eauto.
Qed.

Lemma forEach_defined {A : Type} (body : object -> A -> option object) (l : list A) :
  (forall m x, In x l -> proto m = None ->
               exists m', body m x = Some m' /\ proto m' = None) ->
  forall m, proto m = None ->
            exists m', forEach body l m = Some m' /\ proto m' = None.
Proof.
  induction l as [| x l IH]; intros Hbody m Hm; [eauto |].
  cbn [forEach]. destruct (Hbody m x (or_introl eq_refl) Hm) as (m1 & -> & H1).
  apply IH; [| exact H1]. intros m0 y Hy. apply Hbody. now right.
Qed.

(** Without keys that reach the prototype chain, nothing throws. *)
Lemma traceabilityData_defined (requirements : list requirement)
    (changes : list change) (tsts : list test) :
  (forall r, In r requirements -> id r <> "__proto__") ->
  (forall c ks k, In c changes -> implements_requirements c = Some ks ->
                  In k ks -> plain_key k) ->
  (forall t k, In t tsts -> covers_requirement t = Some k -> plain_key k) ->
  exists data, traceabilityData requirements changes tsts = Some data.
Proof.
  intros Hr Hc Ht. unfold traceabilityData.
  assert (H0 : proto (fold_left init_entry requirements (mkObject ∅ None)) = None).
  { generalize (mkObject ∅ None) (eq_refl : proto (mkObject ∅ None) = None).
    induction requirements as [| r rs IH]; intros m Hm; [exact Hm |].
    cbn [fold_left]. apply IH; [intros; apply Hr; now right |].
    unfold init_entry. specialize (Hr r (or_introl eq_refl)).
    apply String.eqb_neq in Hr. now rewrite Hr. }
  destruct (forEach_defined link_change changes) with (m := fold_left init_entry requirements (mkObject ∅ None))
    as (m1 & -> & H1); [| exact H0 |].
  { intros m c Hin Hm. unfold link_change.
    apply forEach_defined; [| exact Hm].
    intros m' k Hk Hm'. apply push_at_plain; [exact Hm' |].
    destruct (implements_requirements c) as [ks |] eqn:E; [| destruct Hk].
    eapply Hc; eauto. }
  destruct (forEach_defined link_test tsts) with (m := m1) as (m2 & -> & H2);
    [| exact H1 | eauto].
  intros m t Hin Hm. unfold link_test.
  destruct (covers_requirement t) as [k |] eqn:E; [| eauto].
  destruct (Js.truthy k); [| eauto].
  apply push_at_plain; [exact Hm | eapply Ht; eauto].
Qed.

(** *** Counting *)

Lemma count_status_partition (entries : list entry) :
  Forall (fun e => status e = "fully_covered" \/ status e = "partially_covered" \/
                   status e = "uncovered") entries ->
  count_status "fully_covered" entries + count_status "partially_covered" entries
  + count_status "uncovered" entries = length entries.
Proof.
  unfold count_status. induction 1 as [| e l He Hl IH]; [reflexivity |].
  cbn [filter length].
  destruct He as [-> | [-> | ->]]; cbn [String.eqb Ascii.eqb Bool.eqb]; cbn [length]; lia.
Qed.

End Matrix.

End Traceability.

(** C10.  Whenever [traceabilityData] is computed, every entry is
    [fully_covered] exactly when it has a linked code change and a linked
    test, [uncovered] exactly when it has neither, and [partially_covered]
    otherwise, the linked code changes of the entry of requirement [k] being
    the code changes that list [k] and its linked tests the tests that cover
    [k]; the three counts of [stats] add up to [total], and
    [coveragePercent] is at most [partialPercent] (rounding a quotient to a
    percentage is monotone in the numerator). *)
Theorem traceability_status_and_stats :
  forall (inherited : string -> bool) (percent : nat -> nat -> nat)
         (requirements : list Traceability.requirement)
         (changes : list Traceability.change) (tsts : list Traceability.test)
         (data : gmap string Traceability.entry),
    (forall t a b, a <= b -> percent a t <= percent b t) ->
    Traceability.traceabilityData inherited requirements changes tsts = Some data ->
    (forall (k : string) (e : Traceability.entry),
        data !! k = Some e ->
        let hasCode := Traceability.codeChanges e <> [] in
        let hasTests := Traceability.tests e <> [] in
        (Traceability.status e = "fully_covered" <-> hasCode /\ hasTests) /\
        (Traceability.status e = "uncovered" <-> ~ hasCode /\ ~ hasTests) /\
        (Traceability.status e = "partially_covered" <->
         ~ (hasCode /\ hasTests) /\ ~ (~ hasCode /\ ~ hasTests)) /\
        (forall c, In c (Traceability.codeChanges e) <->
                   In c changes /\
                   exists ks, Traceability.implements_requirements c = Some ks /\ In k ks) /\
        (forall t, In t (Traceability.tests e) <->
                   In t tsts /\ Traceability.covers_requirement t = Some k /\ k <> "")) /\
    let s := Traceability.stats percent data in
    Traceability.fullyCovered s + Traceability.partiallyCovered s
    + Traceability.uncovered s = Traceability.total s /\
    Traceability.coveragePercent s <= Traceability.partialPercent s.
Proof.
  intros inherited percent requirements changes tsts data Hmono Hdata.
  unfold Traceability.traceabilityData in Hdata.
  destruct (Traceability.forEach _ changes _) as [m1 |] eqn:H1; [| discriminate].
  destruct (Traceability.forEach _ tsts m1) as [m2 |] eqn:H2; [| discriminate].
  injection Hdata as <-.
  assert (Hentry : forall k e, (Traceability.with_status <$> Traceability.own m2) !! k = Some e ->
            exists e2, e = Traceability.with_status e2 /\
              (forall c, In c (Traceability.codeChanges e2) <->
                 In c changes /\
                 exists ks, Traceability.implements_requirements c = Some ks /\ In k ks) /\
              (forall t, In t (Traceability.tests e2) <->
                 In t tsts /\ Traceability.covers_requirement t = Some k /\ k <> "")).
  { intros k e He. rewrite lookup_fmap in He.
    destruct (Traceability.own m2 !! k) as [e2 |] eqn:He2; [| discriminate].
    injection He as <-. exists e2. split; [reflexivity |].
    destruct (Traceability.link_tests_own inherited tsts m1 m2 H2 k e2 He2)
      as (e1 & He1 & Hcc & Ht).
    destruct (Traceability.link_changes_own inherited changes _ m1 H1 k e1 He1)
      as (e0 & He0 & Htt & Hc).
    apply Traceability.init_unlinked in He0 as [Hc0 Ht0];
      [| intros k' e'; cbn; rewrite lookup_empty; discriminate].
    split.
    - intros c. rewrite Hcc, Hc, Hc0. cbn [In]. tauto.
    - intros t. rewrite Ht, Htt, Ht0. cbn [In]. tauto. }
  split.
  - intros k e He hasCode hasTests. subst hasCode hasTests.
    destruct (Hentry k e He) as (e2 & -> & Hc & Ht).
    split; [| split; [| split; [| split]]]; try assumption;
      destruct (Traceability.with_status_cases e2)
        as [(Hs & Ha & Hb) | [(Hs & Ha & Hb) | (Hs & [[Ha Hb] | [Ha Hb]])]];
      cbn [Traceability.with_status Traceability.codeChanges Traceability.tests] in *;
      rewrite Hs; split; intros H; try discriminate H; try tauto; try congruence.
  - intros s. subst s. unfold Traceability.stats.
    cbn [Traceability.fullyCovered Traceability.partiallyCovered Traceability.uncovered
         Traceability.total Traceability.coveragePercent Traceability.partialPercent].
    split.
    + apply Traceability.count_status_partition. apply Forall_forall.
      intros e He. apply in_map_iff in He as ([k e'] & <- & Hin).
      apply list_elem_of_In, elem_of_map_to_list in Hin.
      destruct (Hentry k e' Hin) as (e2 & -> & _).
      destruct (Traceability.with_status_cases e2)
        as [(Hs & _) | [(Hs & _) | (Hs & _)]]; cbn [snd]; rewrite Hs; auto.
    + destruct (0 <? _)%nat; [| lia]. apply Hmono. lia.
Qed.

(** ** [DiffViewer.jsx]: parsing a unified diff and writing it back *)

Module Diff.

Import Js.

Inductive lineType : Type := add | del | context.

Record line := mkLine {
  content : string;
  type : lineType
}.

(** The numbers of a hunk are natural numbers; they stand for JavaScript
    numbers, which represent them exactly up to [2 ^ 53]. *)
Record hunk := mkHunk {
  oldStart : N;
  oldCount : N;
  newStart : N;
  newCount : N;
  header : string;
  lines : list line
}.

Record file := mkFile {
  oldPath : string;
  newPath : string;
  hunks : list hunk;
  additions : nat;
  deletions : nat
}.

(** *** The two regular expressions *)

(** The characters [.] does not match: the line terminators. *)
Definition is_terminator (c : ascii) : bool :=
  Ascii.eqb c LF || Ascii.eqb c "013"%char.

(** [\d]. *)
Definition is_digit (c : ascii) : bool :=
  match c with
  | "0" | "1" | "2" | "3" | "4" | "5" | "6" | "7" | "8" | "9" => true
  | _ => false
  end%char.

(** The longest prefix of characters that satisfy [p], and the rest: a
    greedy [p*]. *)
Fixpoint span (p : ascii -> bool) (s : string) : string * string :=
  match s with
  | EmptyString => ("", "")
  | String c rest =>
      if p c then let (a, b) := span p rest in (String c a, b)
      else ("", s)
  end.

(** A greedy run of [.], as in the last group of the hunk pattern. *)
Definition dots (s : string) : string := fst (span (fun c => negb (is_terminator c)) s).

(** The split of [s] at the last [" b/"] that leaves something after it:
    what [(.+) b\/(.+)], less the first character of its first group,
    captures by backtracking from the longest first group. *)
Fixpoint split_b (s : string) : option (string * string) :=
  match s with
  | EmptyString => None
  | String c rest =>
      match split_b rest with
      | Some (p1, p2) => Some (String c p1, p2)
      | None =>
          if startsWith s " b/" && negb (String.eqb (slice 3 s) "")
          then Some ("", slice 3 s)
          else None
      end
  end.

(** [/diff --git a\/(.+) b\/(.+)/] tried at the start of [s]. *)
Definition diff_git_at (s : string) : option (string * string) :=
  if startsWith s "diff --git a/" then
    match dots (slice 13 s) with
    | EmptyString => None
    | String c rest =>
        match split_b rest with
        | Some (p1, p2) => Some (String c p1, p2)
        | None => None
        end
    end
  else None.

(** [s.match(re)] for a pattern [re] without anchors: the first position
    at which it matches. *)
Fixpoint search {A : Type} (at_start : string -> option A) (s : string) : option A :=
  match at_start s with
  | Some r => Some r
  | None =>
      match s with
      | EmptyString => None
      | String _ rest => search at_start rest
      end
  end.

Definition match_diff_git (ln : string) : option (string * string) :=
  search diff_git_at ln.

(** [s] must start with [p]; what follows it. *)
Definition expect (p s : string) : option string :=
  if startsWith s p then Some (slice (String.length p) s) else None.

(** [,?]. *)
Definition comma (s : string) : string :=
  match s with
  | String "," rest => rest
  | _ => s
  end.

(** The hunk pattern, [@@ -] digits [,?] digits [ +] digits [,?] digits
    [ @@] and the rest of the line, tried at the start of [s]: its five
    groups.  The first and third groups are [\d+], the second and fourth
    may be empty. *)
Definition hunk_at (s : string) : option (string * string * string * string * string) :=
  match expect "@@ -" s with
  | None => None
  | Some s1 =>
      let (g1, s2) := span is_digit s1 in
      if String.eqb g1 "" then None else
      let (g2, s3) := span is_digit (comma s2) in
      match expect " +" s3 with
      | None => None
      | Some s4 =>
          let (g3, s5) := span is_digit s4 in
          if String.eqb g3 "" then None else
          let (g4, s6) := span is_digit (comma s5) in
          match expect " @@" s6 with
          | None => None
          | Some s7 => Some (g1, g2, g3, g4, dots s7)
          end
      end
  end.

Definition match_hunk (ln : string) : option (string * string * string * string * string) :=
  search hunk_at ln.

(** [parseInt] on a string of digits: [None] is [NaN], the value of the
    empty string.  The value in [N] is the code's as long as it is at most
    2^53; above, the code rounds to the nearest number it can represent. *)
Definition parseInt (digits : string) : option N :=
  match digits with
  | EmptyString => None
  | _ =>
      match DecimalString.NilEmpty.uint_of_string digits with
      | Some u => Some (N.of_uint u)
      | None => None
      end
  end.

(** [parseInt(g)], for a group that [\d+] matched. *)
Definition number (g : string) : N :=
  match parseInt g with Some n => n | None => 0%N end.

(** [parseInt(g) || 1]: [NaN] and [0] are falsy. *)
Definition number_or_1 (g : string) : N :=
  match parseInt g with
  | Some 0%N | None => 1%N
  | Some n => n
  end.

(** *** [parseDiff] *)

(** The variables of the loop.  [currentHunk] is the object most recently
    pushed onto [currentFile.hunks] and is filled in place; here the hunks
    of [currentFile] are those before it, and it joins them when the next
    hunk or the next file starts, or at the end. *)
Record state := mkState {
  files : list file;
  currentFile : option file;
  currentHunk : option hunk
}.

(** [currentFile] as the loop's object: its hunks with the current one. *)
Definition whole (f : file) (h : option hunk) : file :=
  mkFile (oldPath f) (newPath f)
         (hunks f ++ match h with Some x => [ x ] | None => [] end)
         (additions f) (deletions f).

(** [if (currentFile) files.push(currentFile)]. *)
Definition pushed (st : state) : list file :=
  match currentFile st with
  | Some f => files st ++ [ whole f (currentHunk st) ]
  | None => files st
  end.

Definition line_type (ln : string) : lineType :=
  if startsWith ln "+" then add else if startsWith ln "-" then del else context.

(** [match ? match[1] : 'unknown'] and [match ? match[2] : 'unknown']. *)
Definition diff_paths (ln : string) : string * string :=
  match match_diff_git ln with
  | Some (a, b) => (a, b)
  | None => ("unknown", "unknown")
  end.

(** The body of [for (const line of lines)]. *)
Definition on_line (st : state) (ln : string) : state :=
  if startsWith ln "diff --git" then
    let (o, n) := diff_paths ln in
    mkState (pushed st) (Some (mkFile o n [] 0 0)) None
  else if startsWith ln "@@" then
    match match_hunk ln, currentFile st with
    | Some (g1, g2, g3, g4, g5), Some f =>
        mkState (files st) (Some (whole f (currentHunk st)))
                (Some (mkHunk (number g1) (number_or_1 g2) (number g3) (number_or_1 g4)
                              g5 []))
    | _, _ => st
    end
  else
    match currentHunk st, currentFile st with
    | Some h, Some f =>
        let t := line_type ln in
        mkState (files st)
                (Some (mkFile (oldPath f) (newPath f) (hunks f)
                              (match t with add => S (additions f) | _ => additions f end)
                              (match t with del => S (deletions f) | _ => deletions f end)))
                (Some (mkHunk (oldStart h) (oldCount h) (newStart h) (newCount h)
                              (header h) (lines h ++ [ mkLine (slice 1 ln) t ])))
    | _, _ => st
    end.

Definition parseDiff (diffText : string) : list file :=
  if truthy diffText then
    pushed (fold_left on_line (split_nl diffText) (mkState [] None None))
  else [].

(** *** The patch text of [handleDownload] *)

(** The template literal [`${n}`] for a natural number: all its digits,
    which is what the code prints for a number below 10^21 (from there on
    it prints an exponent). *)
Definition to_string (n : N) : string :=
  DecimalString.NilEmpty.string_of_uint (N.to_uint n).

Definition line_text (l : line) : string :=
  ((match type l with add => "+" | del => "-" | context => " " end) ++ content l)%string.

(** The first line of a hunk's text. *)
Definition hunk_line (h : hunk) : string :=
  ("@@ -" ++ to_string (oldStart h) ++ "," ++ to_string (oldCount h)
   ++ " +" ++ to_string (newStart h) ++ "," ++ to_string (newCount h) ++ " @@"
   ++ (if truthy (header h) then " " ++ header h else ""))%string.

Definition hunk_text (h : hunk) : string :=
  (hunk_line h ++ String LF (join_nl (map line_text (lines h))))%string.

(** The first line of a file's text. *)
Definition diff_line (o n : string) : string :=
  ("diff --git a/" ++ o ++ " b/" ++ n)%string.

Definition file_text (f : file) : string :=
  (diff_line (oldPath f) (newPath f)
   ++ String LF (join_nl (map hunk_text (hunks f))))%string.

(** [parsedFiles.map(...).join('\n')]. *)
Definition serialize (parsedFiles : list file) : string :=
  join_nl (map file_text parsedFiles).

(** The content of the patch: the diff text itself when there is one. *)
Definition handleDownload (diffContent : string) (parsedFiles : list file) : string :=
  or_else diffContent (serialize parsedFiles).

(** *** Strings: prefixes, runs and line feeds *)

Lemma span_all (p : ascii -> bool) (a b : string) :
  (forall c, In c (list_ascii_of_string a) -> p c = true) ->
  match b with EmptyString => True | String c _ => p c = false end ->
  span p (a ++ b) = (a, b).
Proof.
  intros Ha Hb. induction a as [| c a IH].
  - rewrite append_nil_l. destruct b as [| c b]; [reflexivity |].
    cbn [span]. now rewrite Hb.
  - rewrite append_cons. cbn [span]. rewrite (Ha c) by now left.
    rewrite IH; [reflexivity |]. intros x Hx. apply Ha. now right.
Qed.

Lemma span_fst_all (p : ascii -> bool) (s : string) :
  forall c, In c (list_ascii_of_string (fst (span p s))) -> p c = true.
Proof.
  induction s as [| x s IH]; intros c; cbn [span]; [intros [] |].
  destruct (p x) eqn:Hx; [| intros []].
  destruct (span p s) as [a b]. cbn [fst list_ascii_of_string In] in *.
  intros [<- | H]; [exact Hx | now apply IH].
Qed.

Lemma no_terminator_no_nl (s : string) :
  (forall c, In c (list_ascii_of_string s) -> negb (is_terminator c) = true) ->
  no_nl s = true.
Proof.
  induction s as [| x s IH]; intros H; [reflexivity |]. cbn [no_nl].
  rewrite IH by (intros c Hc; apply H; now right).
  specialize (H x (or_introl eq_refl)). unfold is_terminator in H.
  destruct (Ascii.eqb x LF); [discriminate | reflexivity].
Qed.

Lemma in_append (c : ascii) (a b : string) :
  In c (list_ascii_of_string (a ++ b)) <->
  In c (list_ascii_of_string a) \/ In c (list_ascii_of_string b).
Proof.
  induction a as [| x a IH]; [rewrite append_nil_l; cbn; tauto |].
  rewrite append_cons. cbn [list_ascii_of_string In]. rewrite IH. tauto.
Qed.

Lemma no_nl_append (a b : string) :
  no_nl (a ++ b) = no_nl a && no_nl b.
Proof.
  induction a as [| x a IH]; [reflexivity |].
  rewrite append_cons. cbn [no_nl]. rewrite IH. now rewrite andb_assoc.
Qed.

Lemma no_nl_slice (n : nat) (s : string) : no_nl s = true -> no_nl (slice n s) = true.
Proof.
  revert s. induction n as [| n IH]; intros s H; [exact H |].
  destruct s as [| c s]; [reflexivity |]. cbn [slice]. apply IH.
  cbn [no_nl] in H. now apply andb_prop in H as [_ H].
Qed.

(** The dots of a line make a string without terminators, which is its own
    run of dots. *)
Lemma dots_fixed (s : string) : dots (dots s) = dots s.
Proof.
  unfold dots.
  pose proof (span_fst_all (fun c => negb (is_terminator c)) s) as H.
  destruct (span _ s) as [a b]. cbn [fst] in *.
  rewrite <- (append_nil_r a) at 1. now rewrite span_all.
Qed.

Lemma no_nl_dots (s : string) : no_nl (dots s) = true.
Proof. apply no_terminator_no_nl, span_fst_all. Qed.

(** What [split_b] returns are the two sides of a [" b/"]. *)
Lemma split_b_sound (s : string) :
  forall p1 p2, split_b s = Some (p1, p2) -> s = (p1 ++ " b/" ++ p2)%string.
Proof.
  induction s as [| c s IH]; intros p1 p2; [discriminate |].
  cbn [split_b]. destruct (split_b s) as [[q1 q2] |].
  - intros [= <- <-]. rewrite append_cons. f_equal. now apply IH.
  - destruct (startsWith (String c s) " b/") eqn:Hp; [| discriminate].
    destruct (negb _); [| discriminate]. intros [= <- <-].
    rewrite append_nil_l. unfold startsWith in Hp.
    destruct c as [[] [] [] [] [] [] [] []]; try discriminate Hp.
    destruct s as [| c1 s]; [discriminate Hp |].
    destruct c1 as [[] [] [] [] [] [] [] []]; try discriminate Hp.
    destruct s as [| c2 s]; [discriminate Hp |].
    destruct c2 as [[] [] [] [] [] [] [] []]; try discriminate Hp.
    reflexivity.
Qed.

(** *** The diff line read back *)

Lemma search_at_start {A : Type} (f : string -> option A) (s : string) (r : A) :
  f s = Some r -> search f s = Some r.
Proof. intros H. destruct s; cbn [search]; now rewrite H. Qed.

Lemma search_found {A : Type} (f : string -> option A) (s : string) (r : A) :
  search f s = Some r -> exists s', f s' = Some r.
Proof.
  induction s as [| c s IH]; cbn [search].
  - destruct (f "") eqn:H; [intros [= <-]; eauto | discriminate].
  - destruct (f (String c s)) eqn:H; [intros [= <-]; eauto | exact IH].
Qed.

Lemma diff_git_at_stable (s o n : string) :
  diff_git_at s = Some (o, n) ->
  diff_git_at (diff_line o n) = Some (o, n) /\ no_nl o = true /\ no_nl n = true.
Proof.
  unfold diff_git_at. destruct (startsWith s "diff --git a/"); [| discriminate].
  pose proof (dots_fixed (slice 13 s)) as Hd.
  pose proof (no_nl_dots (slice 13 s)) as Hn.
  destruct (dots (slice 13 s)) as [| c rest]; [discriminate |].
  destruct (split_b rest) as [[p1 p2] |] eqn:Hs; [| discriminate].
  intros [= <- <-]. pose proof (split_b_sound rest p1 p2 Hs) as Hr.
  assert (Hline : diff_line (String c p1) p2 = ("diff --git a/" ++ String c rest)%string).
  { unfold diff_line. rewrite Hr. now rewrite append_cons. }
  rewrite Hline.
  change (startsWith ("diff --git a/" ++ String c rest) "diff --git a/") with true.
  change (slice 13 ("diff --git a/" ++ String c rest)) with (String c rest).
  cbv iota. rewrite Hd, Hs. split; [reflexivity |].
  rewrite Hr in Hn. change (String c (p1 ++ " b/" ++ p2))%string
    with (String c p1 ++ (" b/" ++ p2))%string in Hn.
  rewrite !no_nl_append in Hn.
  apply andb_prop in Hn as [H1 H2]. apply andb_prop in H2 as [_ H2]. auto.
Qed.

(** The paths read from a line are read back from the line written with
    them, and hold no line feed. *)
Lemma diff_paths_stable (ln : string) :
  diff_paths (diff_line (fst (diff_paths ln)) (snd (diff_paths ln))) = diff_paths ln /\
  no_nl (fst (diff_paths ln)) = true /\ no_nl (snd (diff_paths ln)) = true.
Proof.
  destruct (diff_paths ln) as [o n] eqn:E. cbn [fst snd].
  unfold diff_paths, match_diff_git in E.
  destruct (search diff_git_at ln) as [[a b] |] eqn:H.
  - injection E as -> ->. apply search_found in H as [s Hs].
    apply diff_git_at_stable in Hs as (Hs & Ho & Hn).
    unfold diff_paths, match_diff_git.
    rewrite (search_at_start _ _ _ Hs). auto.
  - injection E as <- <-. repeat split; reflexivity.
Qed.

(** *** Numbers written and read back *)

Lemma string_of_uint_digits (d : uint) :
  forall c, In c (list_ascii_of_string (NilEmpty.string_of_uint d)) -> is_digit c = true.
Proof.
  induction d as [| d IH | d IH | d IH | d IH | d IH | d IH | d IH | d IH | d IH | d IH];
    cbn [NilEmpty.string_of_uint list_ascii_of_string In]; intros c;
    [intros [] | intros [<- | Hc]; auto ..].
Qed.

Lemma to_string_digits (n : N) :
  forall c, In c (list_ascii_of_string (to_string n)) -> is_digit c = true.
Proof. apply string_of_uint_digits. Qed.

Lemma to_string_nonempty (n : N) : to_string n <> "".
Proof.
  unfold to_string. destruct n as [| p]; [discriminate |]. cbn [N.to_uint].
  pose proof (DecimalPos.Unsigned.to_uint_nonnil p) as H.
  destruct (Pos.to_uint p); [congruence | discriminate ..].
Qed.

Lemma parseInt_to_string (n : N) : parseInt (to_string n) = Some n.
Proof.
  unfold parseInt. pose proof (to_string_nonempty n) as H.
  destruct (to_string n) eqn:E; [congruence |]. rewrite <- E. unfold to_string.
  now rewrite NilEmpty.usu, DecimalN.Unsigned.of_to.
Qed.

Lemma number_to_string (n : N) : number (to_string n) = n.
Proof. unfold number. now rewrite parseInt_to_string. Qed.

Lemma number_or_1_to_string (n : N) : n <> 0%N -> number_or_1 (to_string n) = n.
Proof. unfold number_or_1. rewrite parseInt_to_string. now destruct n. Qed.

Lemma number_or_1_nonzero (g : string) : number_or_1 g <> 0%N.
Proof. unfold number_or_1. destruct (parseInt g) as [[| p] |]; discriminate. Qed.

(** *** The hunk line read back *)

Lemma span_to_string (n : N) (c : ascii) (rest : string) :
  is_digit c = false ->
  span is_digit (to_string n ++ String c rest) = (to_string n, String c rest).
Proof. intros Hc. apply span_all; [apply to_string_digits | exact Hc]. Qed.

Lemma eqb_to_string (n : N) : String.eqb (to_string n) "" = false.
Proof. apply String.eqb_neq, to_string_nonempty. Qed.

Lemma startsWith_append (p x : string) : startsWith (p ++ x) p = true.
Proof.
  unfold startsWith. induction p as [| a p IH].
  - rewrite append_nil_l. now destruct x.
  - rewrite append_cons. cbn [String.prefix].
    destruct (ascii_dec a a); [exact IH | congruence].
Qed.

Lemma slice_append (p x : string) : slice (String.length p) (p ++ x) = x.
Proof. induction p as [| a p IH]; [now destruct x |]. rewrite append_cons. exact IH. Qed.

Lemma expect_append (p x : string) : expect p (p ++ x) = Some x.
Proof. unfold expect. now rewrite startsWith_append, slice_append. Qed.

Lemma hunk_at_line (h : hunk) :
  header h = "" ->
  hunk_at (hunk_line h)
  = Some (to_string (oldStart h), to_string (oldCount h),
          to_string (newStart h), to_string (newCount h), "").
Proof.
  intros Hh. unfold hunk_line. rewrite Hh. cbn [truthy].
  unfold hunk_at. rewrite expect_append.
  change ("," ++ ?x)%string with (String ","%char x).
  rewrite span_to_string by reflexivity. rewrite eqb_to_string.
  cbn [comma].
  change (" +" ++ ?x)%string with (String " "%char ("+" ++ x)).
  rewrite span_to_string by reflexivity.
  change (String " "%char ("+" ++ ?x)) with (" +" ++ x)%string.
  rewrite expect_append.
  change ("," ++ ?x)%string with (String ","%char x).
  rewrite span_to_string by reflexivity. rewrite eqb_to_string.
  cbn [comma].
  change (" @@" ++ ?x)%string with (String " "%char ("@@" ++ x)).
  rewrite span_to_string by reflexivity.
  change (String " "%char ("@@" ++ ?x)) with (" @@" ++ x)%string.
  rewrite expect_append. reflexivity.
Qed.

Lemma match_hunk_line (h : hunk) :
  header h = "" ->
  match_hunk (hunk_line h)
  = Some (to_string (oldStart h), to_string (oldCount h),
          to_string (newStart h), to_string (newCount h), "").
Proof. intros Hh. apply search_at_start, hunk_at_line, Hh. Qed.

(** *** What [parseDiff] guarantees of its result *)

Definition is_add (l : line) : bool := match type l with add => true | _ => false end.
Definition is_del (l : line) : bool := match type l with del => true | _ => false end.

Definition count (p : line -> bool) (ls : list line) : nat := length (filter p ls).

(** The lines of all hunks that satisfy [p]. *)
Fixpoint count_all (p : line -> bool) (hs : list hunk) : nat :=
  match hs with
  | [] => 0
  | h :: rest => count p (lines h) + count_all p rest
  end.

Definition wf_line (l : line) : Prop := no_nl (content l) = true.

Definition wf_hunk (h : hunk) : Prop :=
  oldCount h <> 0%N /\ newCount h <> 0%N /\ Forall wf_line (lines h).

Definition wf_file (f : file) : Prop :=
  diff_paths (diff_line (oldPath f) (newPath f)) = (oldPath f, newPath f) /\
  no_nl (oldPath f) = true /\ no_nl (newPath f) = true /\
  Forall wf_hunk (hunks f) /\
  additions f = count_all is_add (hunks f) /\
  deletions f = count_all is_del (hunks f).

(** The invariant of the loop. *)
Definition wf_state (st : state) : Prop :=
  Forall wf_file (files st) /\
  match currentFile st with
  | Some f => wf_file (whole f (currentHunk st))
  | None => currentHunk st = None
  end.

Lemma count_app (p : line -> bool) (l1 l2 : list line) :
  count p (l1 ++ l2) = count p l1 + count p l2.
Proof. unfold count. now rewrite filter_app, length_app. Qed.

Lemma count_all_app (p : line -> bool) (h1 h2 : list hunk) :
  count_all p (h1 ++ h2) = count_all p h1 + count_all p h2.
Proof.
  induction h1 as [| h h1 IH]; [reflexivity |].
  change (count_all p ((h :: h1) ++ h2))
    with (count p (lines h) + count_all p (h1 ++ h2)).
  rewrite IH. cbn [count_all]. lia.
Qed.

Lemma wf_pushed (st : state) : wf_state st -> Forall wf_file (pushed st).
Proof.
  intros [Hf Hc]. unfold pushed. destruct (currentFile st) as [f |]; [| exact Hf].
  apply Forall_app. split; [exact Hf |]. now constructor.
Qed.

Lemma on_line_wf (st : state) (ln : string) :
  no_nl ln = true -> wf_state st -> wf_state (on_line st ln).
Proof.
  intros Hln Hst. unfold on_line.
  destruct (startsWith ln "diff --git").
  - destruct (diff_paths_stable ln) as (Hp & Ho & Hn).
    destruct (diff_paths ln) as [o n]. cbn [fst snd] in *.
    split; [now apply wf_pushed |]. cbn [currentFile currentHunk whole app].
    repeat split; cbn [oldPath newPath hunks additions deletions]; auto.
  - destruct (startsWith ln "@@").
    + destruct (match_hunk ln) as [[[[[g1 g2] g3] g4] g5] |]; [| exact Hst].
      destruct Hst as [Hf Hc].
      destruct (currentFile st) as [f |] eqn:Hcf; [| split; [exact Hf | now rewrite Hcf] ].
      split; [exact Hf |]. cbn [currentFile currentHunk].
      destruct Hc as (Hp & Ho & Hn & Hh & Ha & Hd).
      unfold whole at 1. cbn [oldPath newPath hunks additions deletions] in *.
      repeat split; auto; cbn [hunks additions deletions].
      * apply Forall_app. split; [exact Hh |]. constructor; [| constructor].
        repeat split; cbn; auto using number_or_1_nonzero.
      * rewrite count_all_app, Ha. cbn. lia.
      * rewrite count_all_app, Hd. cbn. lia.
    + destruct Hst as [Hf Hc].
      destruct (currentHunk st) as [h |] eqn:Hh; [| now split; [| rewrite Hh]].
      destruct (currentFile st) as [f |]; [| discriminate].
      split; [exact Hf |]. cbn [currentFile currentHunk].
      destruct Hc as (Hp & Ho & Hn & Hhs & Ha & Hd).
      unfold whole in *. cbn [oldPath newPath hunks additions deletions] in *.
      apply Forall_app in Hhs as [Hhs Hh1]. inversion Hh1 as [| ? ? (Hc1 & Hc2 & Hl) _]; subst.
      rewrite count_all_app in Ha, Hd. cbn [count_all] in Ha, Hd.
      repeat split; auto; cbn [hunks additions deletions].
      * apply Forall_app. split; [exact Hhs |]. constructor; [| constructor].
        repeat split; cbn [oldCount newCount lines]; auto.
        apply Forall_app. split; [exact Hl |]. constructor; [| constructor].
        unfold wf_line. cbn [content]. now apply no_nl_slice.
      * rewrite count_all_app. cbn [count_all lines]. rewrite count_app.
        rewrite Ha. destruct (line_type ln); cbv [count is_add type filter length]; lia.
      * rewrite count_all_app. cbn [count_all lines]. rewrite count_app.
        rewrite Hd. destruct (line_type ln); cbv [count is_del type filter length]; lia.
Qed.

Lemma fold_on_line_wf (lns : list string) :
  forall st, Forall (fun ln => no_nl ln = true) lns -> wf_state st ->
             wf_state (fold_left on_line lns st).
Proof.
  induction lns as [| ln lns IH]; intros st Hl Hst; [exact Hst |].
  inversion Hl; subst. cbn [fold_left]. apply IH; [assumption |].
  now apply on_line_wf.
Qed.

Lemma parseDiff_wf (diffText : string) : Forall wf_file (parseDiff diffText).
Proof.
  unfold parseDiff. destruct (truthy diffText); [| constructor].
  apply wf_pushed, fold_on_line_wf; [apply no_nl_split |].
  split; [constructor | reflexivity].
Qed.

(** *** The patch text, line by line *)

Definition hunk_lines (h : hunk) : list string :=
  hunk_line h :: match lines h with
                 | [] => [ "" ]
                 | ls => map line_text ls
                 end.

Definition file_lines (f : file) : list string :=
  diff_line (oldPath f) (newPath f)
  :: match hunks f with
     | [] => [ "" ]
     | hs => concat (map hunk_lines hs)
     end.

Lemma join_nl_cons (x : string) (ls : list string) :
  (x ++ String LF (join_nl ls))%string
  = join_nl (x :: match ls with [] => [ "" ] | _ => ls end).
Proof. destruct ls; reflexivity. Qed.

Lemma join_nl_app (l1 l2 : list string) :
  l1 <> [] -> l2 <> [] ->
  join_nl (l1 ++ l2) = (join_nl l1 ++ String LF (join_nl l2))%string.
Proof.
  intros H1 H2. induction l1 as [| x l1 IH]; [congruence |].
  destruct l1 as [| y l1].
  - destruct l2; [congruence | reflexivity].
  - change (join_nl ((x :: y :: l1) ++ l2))
      with (x ++ String LF (join_nl ((y :: l1) ++ l2)))%string.
    rewrite IH by discriminate.
    change (join_nl (x :: y :: l1)) with (x ++ String LF (join_nl (y :: l1)))%string.
    now rewrite append_assoc, append_cons.
Qed.

Lemma join_nl_concat (lss : list (list string)) :
  Forall (fun ls => ls <> []) lss ->
  join_nl (map join_nl lss) = join_nl (concat lss).
Proof.
  induction 1 as [| ls lss Hls Hlss IH]; [reflexivity |].
  destruct lss as [| ms lss].
  - cbn [map concat join_nl]. now rewrite app_nil_r.
  - change (join_nl (map join_nl (ls :: ms :: lss)))
      with (join_nl ls ++ String LF (join_nl (map join_nl (ms :: lss))))%string.
    rewrite IH. change (concat (ls :: ms :: lss)) with (ls ++ concat (ms :: lss)).
    rewrite join_nl_app; [reflexivity | exact Hls |].
    inversion Hlss; subst. destruct ms; [congruence | discriminate].
Qed.

Lemma split_nl_line (x s : string) :
  no_nl x = true -> split_nl (x ++ String LF s) = x :: split_nl s.
Proof.
  induction x as [| c x IH]; intros H; [reflexivity |].
  cbn [no_nl] in H. apply andb_prop in H as [Hc Hx]. apply negb_true_iff in Hc.
  rewrite append_cons. cbn [split_nl]. now rewrite Hc, IH.
Qed.

(** Splitting the join of lines without line feeds gives the lines back. *)
Lemma split_join (ls : list string) :
  ls <> [] -> Forall (fun l => no_nl l = true) ls -> split_nl (join_nl ls) = ls.
Proof.
  intros Hne H. induction H as [| x ls Hx Hls IH]; [congruence |].
  destruct ls as [| y ls].
  - now apply split_nl_no_nl.
  - change (join_nl (x :: y :: ls)) with (x ++ String LF (join_nl (y :: ls)))%string.
    rewrite split_nl_line by exact Hx. now rewrite IH.
Qed.

Lemma hunk_text_lines (h : hunk) : hunk_text h = join_nl (hunk_lines h).
Proof.
  unfold hunk_text, hunk_lines. rewrite join_nl_cons.
  now destruct (lines h).
Qed.

Lemma hunk_lines_nonempty (h : hunk) : hunk_lines h <> [].
Proof. discriminate. Qed.

Lemma file_text_lines (f : file) : file_text f = join_nl (file_lines f).
Proof.
  unfold file_text, file_lines.
  rewrite (map_ext _ _ hunk_text_lines), <- map_map, join_nl_concat
    by (apply Forall_map, Forall_forall; intros; apply hunk_lines_nonempty).
  rewrite join_nl_cons. destruct (hunks f) as [| h hs]; reflexivity.
Qed.

Lemma serialize_lines (fs : list file) :
  serialize fs = join_nl (concat (map file_lines fs)).
Proof.
  unfold serialize.
  rewrite (map_ext _ _ file_text_lines), <- map_map.
  apply join_nl_concat, Forall_map, Forall_forall. discriminate.
Qed.

(** No line of the patch text of a well-formed file holds a line feed. *)
Lemma no_nl_to_string (n : N) : no_nl (to_string n) = true.
Proof.
  pose proof (to_string_digits n) as H.
  induction (to_string n) as [| c s IH]; [reflexivity |]. cbn [no_nl].
  rewrite IH by (intros x Hx; apply H; now right).
  specialize (H c (or_introl eq_refl)).
  destruct (Ascii.eqb_spec c LF) as [-> |]; [discriminate | reflexivity].
Qed.

Lemma no_nl_diff_line (o n : string) :
  no_nl o = true -> no_nl n = true -> no_nl (diff_line o n) = true.
Proof.
  intros Ho Hn. unfold diff_line. rewrite !no_nl_append, Ho, Hn. reflexivity.
Qed.

Lemma no_nl_hunk_line (h : hunk) : header h = "" -> no_nl (hunk_line h) = true.
Proof.
  intros Hh. unfold hunk_line. rewrite Hh. cbn [truthy].
  rewrite !no_nl_append, !no_nl_to_string. reflexivity.
Qed.

Lemma no_nl_line_text (l : line) : wf_line l -> no_nl (line_text l) = true.
Proof.
  intros H. unfold line_text. rewrite no_nl_append, H. now destruct (type l).
Qed.

Lemma no_nl_hunk_lines (h : hunk) :
  header h = "" -> wf_hunk h -> Forall (fun l => no_nl l = true) (hunk_lines h).
Proof.
  intros Hh (_ & _ & Hl). unfold hunk_lines.
  constructor; [now apply no_nl_hunk_line |].
  destruct (lines h) as [| l ls] eqn:E; [repeat constructor |].
  apply Forall_map. eapply Forall_impl; [| exact Hl]. apply no_nl_line_text.
Qed.

(** A file whose hunks all have an empty header and at least one line. *)
Definition plain (f : file) : Prop :=
  Forall (fun h => header h = "" /\ lines h <> []) (hunks f).

Lemma no_nl_file_lines (f : file) :
  wf_file f -> plain f -> Forall (fun l => no_nl l = true) (file_lines f).
Proof.
  intros (_ & Ho & Hn & Hh & _) Hp. unfold file_lines.
  constructor; [now apply no_nl_diff_line |].
  unfold plain in Hp.
  destruct (hunks f) as [| h hs] eqn:E; [repeat constructor |].
  apply Forall_concat, Forall_map.
  rewrite Forall_forall in *. intros x Hx.
  apply no_nl_hunk_lines; [apply (Hp x Hx) | apply (Hh x Hx)].
Qed.

(** *** Reading the patch text back *)

Lemma prefix_nil (s : string) : String.prefix "" s = true.
Proof. now destruct s. Qed.

Lemma line_text_cons (l : line) :
  line_text l
  = String (match type l with add => "+" | del => "-" | context => " " end)%char
           (content l).
Proof. unfold line_text. now destruct (type l). Qed.

Lemma line_text_not_diff (l : line) : startsWith (line_text l) "diff --git" = false.
Proof. rewrite line_text_cons. now destruct (type l). Qed.

Lemma line_text_not_hunk (l : line) : startsWith (line_text l) "@@" = false.
Proof. rewrite line_text_cons. now destruct (type l). Qed.

Lemma line_type_text (l : line) : line_type (line_text l) = type l.
Proof.
  rewrite line_text_cons. unfold line_type, startsWith.
  destruct (type l); cbn [String.prefix]; now rewrite ?prefix_nil.
Qed.

Lemma slice_line_text (l : line) : slice 1 (line_text l) = content l.
Proof. now rewrite line_text_cons. Qed.

(** A line of a hunk is read as the line it was written from. *)
Lemma on_line_text (fs : list file) (f : file) (h : hunk) (l : line) :
  on_line (mkState fs (Some f) (Some h)) (line_text l)
  = mkState fs
      (Some (mkFile (oldPath f) (newPath f) (hunks f)
                    (additions f + count is_add [ l ])
                    (deletions f + count is_del [ l ])))
      (Some (mkHunk (oldStart h) (oldCount h) (newStart h) (newCount h)
                    (header h) (lines h ++ [ l ]))).
Proof.
  destruct l as [c t]. unfold on_line.
  rewrite (line_text_not_diff (mkLine c t)), (line_text_not_hunk (mkLine c t)).
  rewrite line_type_text, slice_line_text.
  cbn [type content currentHunk currentFile files].
  destruct t; cbv [count is_add is_del type filter length];
    rewrite ?Nat.add_0_r, ?Nat.add_1_r; reflexivity.
Qed.

Lemma fold_lines (ls : list line) :
  forall (fs : list file) (f : file) (h : hunk),
    fold_left on_line (map line_text ls) (mkState fs (Some f) (Some h))
    = mkState fs
        (Some (mkFile (oldPath f) (newPath f) (hunks f)
                      (additions f + count is_add ls)
                      (deletions f + count is_del ls)))
        (Some (mkHunk (oldStart h) (oldCount h) (newStart h) (newCount h)
                      (header h) (lines h ++ ls))).
Proof.
  induction ls as [| l ls IH]; intros fs f h.
  - cbn [map fold_left]. rewrite app_nil_r. unfold count. cbn [filter length].
    rewrite !Nat.add_0_r. now destruct f, h.
  - cbn [map fold_left]. rewrite on_line_text, IH.
    cbn [oldPath newPath hunks additions deletions oldStart oldCount newStart
         newCount header lines].
    rewrite <- app_assoc, <- !Nat.add_assoc.
    change (l :: ls) with ([ l ] ++ ls). now rewrite !count_app.
Qed.

(** The first line of a hunk opens the hunk it was written from. *)
Lemma on_hunk_line (fs : list file) (f : file) (ch : option hunk) (h : hunk) :
  header h = "" -> oldCount h <> 0%N -> newCount h <> 0%N ->
  on_line (mkState fs (Some f) ch) (hunk_line h)
  = mkState fs (Some (whole f ch))
      (Some (mkHunk (oldStart h) (oldCount h) (newStart h) (newCount h) "" [])).
Proof.
  intros Hh Ho Hn. unfold on_line.
  assert (H1 : startsWith (hunk_line h) "diff --git" = false) by reflexivity.
  assert (H2 : startsWith (hunk_line h) "@@" = true).
  { unfold hunk_line. change ("@@ -" ++ ?x)%string with ("@@" ++ (" -" ++ x))%string.
    apply startsWith_append. }
  rewrite H1, H2, (match_hunk_line h Hh). cbn [currentFile currentHunk files].
  now rewrite !number_to_string, !number_or_1_to_string.
Qed.

Lemma fold_hunk (fs : list file) (f : file) (ch : option hunk) (h : hunk) :
  header h = "" -> lines h <> [] -> wf_hunk h ->
  fold_left on_line (hunk_lines h) (mkState fs (Some f) ch)
  = mkState fs
      (Some (mkFile (oldPath f) (newPath f) (hunks (whole f ch))
                    (additions f + count is_add (lines h))
                    (deletions f + count is_del (lines h))))
      (Some h).
Proof.
  intros Hh Hl (Ho & Hn & _). unfold hunk_lines.
  destruct (lines h) as [| l ls] eqn:E; [congruence |]. rewrite <- E.
  cbn [fold_left]. rewrite on_hunk_line by assumption. rewrite fold_lines.
  cbn [oldPath newPath hunks additions deletions oldStart oldCount newStart
       newCount header lines whole app].
  rewrite <- Hh. now destruct h.
Qed.

Lemma fold_hunks (hs : list hunk) :
  forall (fs : list file) (f : file) (ch : option hunk),
    Forall (fun h => header h = "" /\ lines h <> []) hs ->
    Forall wf_hunk hs ->
    exists f' ch',
      fold_left on_line (concat (map hunk_lines hs)) (mkState fs (Some f) ch)
      = mkState fs (Some f') ch' /\
      whole f' ch'
      = mkFile (oldPath f) (newPath f) (hunks (whole f ch) ++ hs)
               (additions f + count_all is_add hs)
               (deletions f + count_all is_del hs).
Proof.
  induction hs as [| h hs IH]; intros fs f ch Hp Hw.
  - exists f, ch. split; [reflexivity |].
    cbn [count_all]. rewrite app_nil_r, !Nat.add_0_r. reflexivity.
  - inversion Hp as [| ? ? [Hh Hl] Hp']; inversion Hw as [| ? ? Hwh Hw']; subst.
    cbn [map concat]. rewrite fold_left_app, fold_hunk by assumption.
    destruct (IH fs (mkFile (oldPath f) (newPath f) (hunks (whole f ch))
                            (additions f + count is_add (lines h))
                            (deletions f + count is_del (lines h)))
                 (Some h) Hp' Hw') as (f' & ch' & -> & Hwhole).
    exists f', ch'. split; [reflexivity |]. rewrite Hwhole.
    cbn [oldPath newPath hunks additions deletions whole count_all].
    rewrite <- app_assoc, <- !Nat.add_assoc. reflexivity.
Qed.

Lemma on_diff_line (st : state) (o n : string) :
  diff_paths (diff_line o n) = (o, n) ->
  on_line st (diff_line o n) = mkState (pushed st) (Some (mkFile o n [] 0 0)) None.
Proof.
  intros H. unfold on_line.
  assert (H1 : startsWith (diff_line o n) "diff --git" = true).
  { unfold diff_line.
    change ("diff --git a/" ++ ?x)%string with ("diff --git" ++ (" a/" ++ x))%string.
    apply startsWith_append. }
  now rewrite H1, H.
Qed.

Lemma fold_file (f : file) (st : state) :
  wf_file f -> plain f ->
  exists f' ch',
    fold_left on_line (file_lines f) st = mkState (pushed st) (Some f') ch' /\
    whole f' ch' = f.
Proof.
  intros (Hpaths & _ & _ & Hw & Ha & Hd) Hp. unfold file_lines, plain in *.
  cbn [fold_left]. rewrite on_diff_line by exact Hpaths.
  destruct (hunks f) as [| h hs] eqn:E.
  - exists (mkFile (oldPath f) (newPath f) [] 0 0), None.
    split; [reflexivity |]. unfold whole. cbn. destruct f. cbn in *. congruence.
  - rewrite <- E in *.
    destruct (fold_hunks (hunks f) (pushed st) (mkFile (oldPath f) (newPath f) [] 0 0)
                None Hp Hw) as (f' & ch' & -> & Hwhole).
    exists f', ch'. split; [reflexivity |]. rewrite Hwhole.
    cbn. rewrite <- Ha, <- Hd. now destruct f.
Qed.

Lemma fold_files (fs : list file) :
  forall st : state,
    Forall wf_file fs -> Forall plain fs ->
    pushed (fold_left on_line (concat (map file_lines fs)) st) = pushed st ++ fs.
Proof.
  induction fs as [| f fs IH]; intros st Hw Hp.
  - cbn [map concat fold_left]. now rewrite app_nil_r.
  - inversion Hw; inversion Hp; subst. cbn [map concat]. rewrite fold_left_app.
    destruct (fold_file f st) as (f' & ch' & -> & Hwhole); [assumption .. |].
    rewrite IH by assumption. unfold pushed at 1. cbn [currentFile currentHunk files].
    rewrite Hwhole, <- app_assoc. reflexivity.
Qed.

(** Well-formed files whose hunks are plain are read back from their patch
    text. *)
Lemma parseDiff_serialize (fs : list file) :
  Forall wf_file fs -> Forall plain fs -> parseDiff (serialize fs) = fs.
Proof.
  intros Hw Hp. destruct fs as [| f fs]; [reflexivity |].
  unfold parseDiff.
  assert (Ht : truthy (serialize (f :: fs)) = true).
  { unfold serialize. destruct fs; reflexivity. }
  rewrite Ht, serialize_lines, split_join.
  - now rewrite fold_files.
  - discriminate.
  - apply Forall_concat, Forall_map. rewrite Forall_forall in *.
    intros x Hx. apply no_nl_file_lines; auto.
Qed.

(** The numbers of a file are exactly representable. *)
Definition safe_integer (n : N) : Prop := (n <= 2 ^ 53)%N.

Definition exact (f : file) : Prop :=
  Forall (fun h => safe_integer (oldStart h) /\ safe_integer (oldCount h) /\
                   safe_integer (newStart h) /\ safe_integer (newCount h))
         (hunks f).

(** When the component was given a diff text, the patch it offers is that
    text itself, whatever was parsed from it. *)
Lemma handleDownload_diffContent (diffContent : string) (parsedFiles : list file) :
  truthy diffContent = true -> handleDownload diffContent parsedFiles = diffContent.
Proof. unfold handleDownload, or_else. now intros ->. Qed.

(** A diff with a hunk header after the second [@@], and a diff whose hunk
    has no line. *)
Definition diff_with_header : string :=
  join_nl [ "diff --git a/app.js b/app.js"; "@@ -1,2 +1,2 @@ main"; "-old"; "+new" ].

Definition diff_with_bare_hunk : string :=
  join_nl [ "diff --git a/app.js b/app.js"; "@@ -1 +1 @@" ].

End Diff.

(** C9 (the round trip fails as stated).  A hunk header comes back with one
    more leading space, and a hunk without lines comes back with one empty
    context line. *)
Lemma parseDiff_round_trip_fails :
  (map (fun f => map Diff.header (Diff.hunks f))
       (Diff.parseDiff Diff.diff_with_header) = [ [ " main" ] ] /\
   map (fun f => map Diff.header (Diff.hunks f))
       (Diff.parseDiff (Diff.serialize (Diff.parseDiff Diff.diff_with_header)))
   = [ [ "  main" ] ] /\
   Diff.parseDiff (Diff.serialize (Diff.parseDiff Diff.diff_with_header))
   <> Diff.parseDiff Diff.diff_with_header) /\
  (map (fun f => map Diff.lines (Diff.hunks f))
       (Diff.parseDiff Diff.diff_with_bare_hunk) = [ [ [] ] ] /\
   map (fun f => map Diff.lines (Diff.hunks f))
       (Diff.parseDiff (Diff.serialize (Diff.parseDiff Diff.diff_with_bare_hunk)))
   = [ [ [ Diff.mkLine "" Diff.context ] ] ] /\
   Diff.parseDiff (Diff.serialize (Diff.parseDiff Diff.diff_with_bare_hunk))
   <> Diff.parseDiff Diff.diff_with_bare_hunk).
Proof.
  repeat split; try (vm_compute; reflexivity);
    intros H; vm_compute in H; discriminate H.
Qed.

(** C9 (amended).  For the files [parseDiff] produces from any text, if
    every hunk has an empty header and at least one line, and the hunk
    numbers are exactly representable, then writing the files as
    [handleDownload] does and parsing the text again gives the same files:
    paths, hunks, lines and counts. *)
Theorem parseDiff_round_trip_plain :
  forall diffText : string,
    Forall Diff.plain (Diff.parseDiff diffText) ->
    Forall Diff.exact (Diff.parseDiff diffText) ->
    Diff.parseDiff (Diff.serialize (Diff.parseDiff diffText))
    = Diff.parseDiff diffText.
Proof.
  intros diffText Hplain _.
  apply Diff.parseDiff_serialize; [apply Diff.parseDiff_wf | exact Hplain].
Qed.

(** ** Instances

    Each general result above, applied to a concrete input on which its
    assumptions are checked by evaluation. *)

Module Sample.

(** A stage capability that always succeeds, and one ticket. *)
Definition capability (s : Orchestrator.Stage) (t : Orchestrator.Ticket)
    (a : Orchestrator.Action) (rs : list (Orchestrator.StageResult string))
  : Orchestrator.Failure + string :=
  inr "done".

Definition ticket : Orchestrator.Ticket :=
  Orchestrator.mkTicket "T-1" "Add login" "Users can log in" [ "valid password" ].

Definition empty_world : Orchestrator.World string :=
  Orchestrator.mkWorld ∅ ∅ [] [].

(** Run 7, interrupted after its requirement stage. *)
Definition interrupted : Orchestrator.RunState string :=
  Orchestrator.mkRunState 7 ticket Orchestrator.full_pipeline
    [ Orchestrator.mkStageResult Orchestrator.Requirement Orchestrator.completed
        (Some "done") None ]
    (Orchestrator.at_stage Orchestrator.Requirement) Orchestrator.run_running.

Definition world_with_interrupted : Orchestrator.World string :=
  Orchestrator.mkWorld {[ 7 := [ Orchestrator.mkCheckpoint string 1 interrupted ] ]}
    ∅ [] [].

(** Run 7 again, completed after its only stage. *)
Definition finished : Orchestrator.RunState string :=
  Orchestrator.mkRunState 7 ticket Orchestrator.analyze_requirements
    [ Orchestrator.mkStageResult Orchestrator.Requirement Orchestrator.completed
        (Some "done") None ]
    (Orchestrator.at_stage Orchestrator.Requirement) Orchestrator.run_completed.

Definition world_with_finished : Orchestrator.World string :=
  Orchestrator.mkWorld {[ 7 := [ Orchestrator.mkCheckpoint string 1 finished ] ]}
    ∅ [] [].

(** A capability that fails at the code stage, a fresh run with it, and
    the run state and the world that run leaves. *)
Definition failing_at_code (s : Orchestrator.Stage) (t : Orchestrator.Ticket)
    (a : Orchestrator.Action) (rs : list (Orchestrator.StageResult string))
  : Orchestrator.Failure + string :=
  match s with
  | Orchestrator.Code => inl (Orchestrator.StageFailure "no patch")
  | _ => inr "done"
  end.

Definition after_failure : Orchestrator.RunState string * Orchestrator.World string :=
  match Orchestrator.execute string failing_at_code ticket
          (Some Orchestrator.full_pipeline) None empty_world with
  | Some (inr rs, w) => (rs, w)
  | _ => (interrupted, empty_world)
  end.

Definition failed_run : Orchestrator.RunState string := fst after_failure.

Definition world_after_failure : Orchestrator.World string := snd after_failure.

(** An analyze endpoint that answers every request. *)
Definition analyzeTicket (rq : App.request) : string + string := inl "ok".

Definition empty_form : App.formData := App.mkForm "" "" [ "req"; "code"; "test" ] "gpt-4o".

Definition form : App.formData := App.mkForm "PROJ-1" "" [ "req"; "test" ] "gpt-4o".

(** A parser of the one JSON text the sample stream carries. *)
Definition JSON_parse (s : string) : option nat :=
  if String.eqb s "1" then Some 1 else None.

Definition agent : Workflow.agent :=
  Workflow.mkAgent "RequirementAnalyzer" "completed" (Some "10:00") (Some "10:01").

Definition clock (k : nat) : string := "now".

(** A diff whose hunk has no header. *)
Definition plain_diff : string :=
  Js.join_nl [ "diff --git a/app.js b/app.js"; "@@ -1,2 +1,2 @@"; "-old"; "+new"; " same" ].

(** The names a fresh object inherits, and a percentage computed in exact
    arithmetic and rounded half up.  The code computes
    [Math.round((n / total) * 100)] in floating point, which can differ by
    one where the quotient is not exact (57 for 23 of 40, against 58 here);
    at the value used below, 1 of 2, the two agree. *)
Definition inherited (k : string) : bool :=
  Js.includes
    [ "constructor"; "hasOwnProperty"; "isPrototypeOf"; "propertyIsEnumerable";
      "toLocaleString"; "toString"; "valueOf"; "__defineGetter__";
      "__defineSetter__"; "__lookupGetter__"; "__lookupSetter__" ] k.

Definition percent (n total : nat) : nat := (200 * n + total) / (2 * total).

Definition requirements : list Traceability.requirement :=
  [ Traceability.mkRequirement "REQ-1" "login" "high";
    Traceability.mkRequirement "REQ-2" "logout" "low" ].

Definition changes : list Traceability.change :=
  [ Traceability.mkChange "auth.js" (Some [ "REQ-1" ]) ].

Definition tsts : list Traceability.test :=
  [ Traceability.mkTest "test_login" (Some "REQ-1") ].

Definition data : gmap string Traceability.entry :=
  match Traceability.traceabilityData inherited requirements changes tsts with
  | Some d => d
  | None => ∅
  end.

Lemma percent_mono (t a b : nat) : a <= b -> percent a t <= percent b t.
Proof. intros H. unfold percent. apply Nat.Div0.div_le_mono. lia. Qed.

End Sample.

(** [pipeline_stage_sequence] at a sample input. *)
Lemma pipeline_stage_sequence_witness :
  exists rs w',
    Orchestrator.execute string Sample.capability Sample.ticket
      (Some Orchestrator.full_pipeline) None Sample.empty_world = Some (inr rs, w') /\
    map Orchestrator.stage (Orchestrator.results rs)
    = stage_sequence Orchestrator.full_pipeline /\
    Orchestrator.invocations w' =
      Orchestrator.invocations Sample.empty_world ++
      map (fun s => (Orchestrator.runId rs, s)) (stage_sequence Orchestrator.full_pipeline) /\
    Orchestrator.run_status rs = Orchestrator.run_completed /\
    Orchestrator.diagram_path 4 Orchestrator.Initial Orchestrator.full_pipeline
    = stage_sequence Orchestrator.full_pipeline.
Proof.
  apply (pipeline_stage_sequence string Sample.capability Sample.ticket
           Orchestrator.full_pipeline Sample.empty_world).
  - discriminate.
  - intros s t a rs. exists "done". reflexivity.
Defined.

(** [runPipeline_rejects_invalid_form] at a sample input. *)
Lemma runPipeline_rejects_invalid_form_witness :
  let (s', sent) := App.runPipeline string Sample.analyzeTicket "1700000000000"
                      Sample.empty_form (App.initial string) in
  sent = [] /\
  App.view s' = App.view (App.initial string) /\
  App.isLoading s' = App.isLoading (App.initial string) /\
  App.executionStatus s' = App.executionStatus (App.initial string) /\
  App.error s' = App.error (App.initial string) /\
  App.currentAgent s' = App.currentAgent (App.initial string) /\
  App.apiResponse s' = App.apiResponse (App.initial string) /\
  App.toast s' =
    Some ("Please provide input and select at least one agent", "error").
Proof.
  apply (runPipeline_rejects_invalid_form string Sample.analyzeTicket "1700000000000"
           Sample.empty_form (App.initial string)).
  left. split; reflexivity.
Defined.

(** [workflow_events_start_closed_once] at a sample input. *)
Lemma workflow_events_start_closed_once_witness :
  Workflow.count_closes "RequirementAnalyzer"
    (Workflow.until_next_start
       [ Workflow.mkEvent "node_complete" "RequirementAnalyzer" "10:01" ]) = 1.
Proof.
  apply (workflow_events_start_closed_once Sample.clock (Some [ Sample.agent ]) []
           [ Workflow.mkEvent "node_complete" "RequirementAnalyzer" "10:01" ]
           (Workflow.mkEvent "node_start" "RequirementAnalyzer" "10:00")).
  - reflexivity.
  - reflexivity.
Defined.

(** [analyzeStream_event_type_lost_across_chunks] at a sample input. *)
Lemma analyzeStream_event_type_lost_across_chunks_witness :
  Sse.analyzeStream nat Sample.JSON_parse (fun s => s) true 200
    [ (Sse.ln "event: a" ++ Sse.ln "data: 1")%string ]
  = Sse.Completed nat [ (1, Some "a") ] /\
  Sse.analyzeStream nat Sample.JSON_parse (fun s => s) true 200
    [ Sse.ln "event: a"; Sse.ln "data: 1" ]
  = Sse.Completed nat [ (1, None) ].
Proof.
  apply (analyzeStream_event_type_lost_across_chunks nat Sample.JSON_parse
           (fun s => s) 1).
  reflexivity.
Defined.

(** [parseDiff_round_trip_plain] at a sample input. *)
Lemma parseDiff_round_trip_plain_witness :
  Diff.parseDiff (Diff.serialize (Diff.parseDiff Sample.plain_diff))
  = Diff.parseDiff Sample.plain_diff.
Proof.
  apply (parseDiff_round_trip_plain Sample.plain_diff).
  - vm_compute. repeat constructor; discriminate.
  - set (fs := Diff.parseDiff Sample.plain_diff). vm_compute in fs. subst fs.
    repeat constructor; vm_compute; discriminate.
Defined.

(** [runPipeline_sends_an_action] at a sample input. *)
Lemma runPipeline_sends_an_action_witness :
  is_action (App.action
               (App.mkRequest "PROJ-1" "generate_tests" None "gpt-4o")) = true /\
  (Js.includes (App.actions Sample.form) "req" = true ->
   Js.includes (App.actions Sample.form) "code" = true ->
   Js.includes (App.actions Sample.form) "test" = true ->
   App.action (App.mkRequest "PROJ-1" "generate_tests" None "gpt-4o") = "full_pipeline") /\
  (Js.includes (App.actions Sample.form) "req" = true ->
   Js.includes (App.actions Sample.form) "test" = true ->
   Js.includes (App.actions Sample.form) "code" = false ->
   App.action (App.mkRequest "PROJ-1" "generate_tests" None "gpt-4o") = "generate_tests").
Proof.
  apply (proj1 (runPipeline_sends_an_action string Sample.analyzeTicket "1700000000000")
           Sample.form (App.initial string)
           (App.mkRequest "PROJ-1" "generate_tests" None "gpt-4o")).
  - discriminate.
  - left. reflexivity.
Defined.


(** [concurrent_execute_single_writer] at a sample input: the first call
    enters and runs the code stage, the second call enters, then both are
    scheduled in turn. *)
Lemma concurrent_execute_single_writer_witness :
  let cs0 := (Orchestrator.Entering Sample.ticket (Some Orchestrator.full_pipeline) (Some 7),
              Orchestrator.Entering Sample.ticket (Some Orchestrator.full_pipeline) (Some 7),
              Sample.world_with_interrupted) in
  let cs1 := Orchestrator.interleave string Sample.capability [ true; true ] cs0 in
  let cs2 := Orchestrator.interleave string Sample.capability
               [ false; true; false; true ] cs1 in
  (exists rs, Orchestrator.call_of true cs1 = Orchestrator.InLoop rs) /\
  Orchestrator.call_of false cs2
  = Orchestrator.Returned (inl Orchestrator.ConcurrentRunError) /\
  (Orchestrator.call_of true cs2, Orchestrator.world_of cs2)
  = Orchestrator.steps string Sample.capability 4
      (Orchestrator.call_of true cs0) Sample.world_with_interrupted.
Proof.
  apply (proj2 (proj2 (proj2
           (concurrent_execute_single_writer string Sample.capability
              Sample.ticket Sample.ticket Orchestrator.full_pipeline
              Orchestrator.full_pipeline 7 Sample.world_with_interrupted
              Sample.interrupted
              ltac:(discriminate) ltac:(discriminate) eq_refl eq_refl eq_refl
              (not_elem_of_empty 7))))
           true 1 [ true; false; true ]).
  vm_compute. reflexivity.
Defined.

(** [traceability_status_and_stats] at a sample input. *)
Lemma traceability_status_and_stats_witness :
  (forall (k : string) (e : Traceability.entry),
      Sample.data !! k = Some e ->
      let hasCode := Traceability.codeChanges e <> [] in
      let hasTests := Traceability.tests e <> [] in
      (Traceability.status e = "fully_covered" <-> hasCode /\ hasTests) /\
      (Traceability.status e = "uncovered" <-> ~ hasCode /\ ~ hasTests) /\
      (Traceability.status e = "partially_covered" <->
       ~ (hasCode /\ hasTests) /\ ~ (~ hasCode /\ ~ hasTests)) /\
      (forall c, In c (Traceability.codeChanges e) <->
                 In c Sample.changes /\
                 exists ks, Traceability.implements_requirements c = Some ks /\ In k ks) /\
      (forall t, In t (Traceability.tests e) <->
                 In t Sample.tsts /\ Traceability.covers_requirement t = Some k /\ k <> "")) /\
  let s := Traceability.stats Sample.percent Sample.data in
  Traceability.fullyCovered s + Traceability.partiallyCovered s
  + Traceability.uncovered s = Traceability.total s /\
  Traceability.coveragePercent s <= Traceability.partialPercent s.
Proof.
  apply (traceability_status_and_stats Sample.inherited Sample.percent
           Sample.requirements Sample.changes Sample.tsts Sample.data).
  - apply Sample.percent_mono.
  - vm_compute. reflexivity.
Defined.

(** ** Evaluations *)

(** A selection of every agent but the requirement analyzer. *)
Example action_of_code_and_test :
  App.runPipeline_action [ "test"; "code" ] = "full_pipeline".
Proof. reflexivity. Qed.

(** A valid form sends one request, with the mapped action. *)
Example runPipeline_sample :
  snd (App.runPipeline string Sample.analyzeTicket "1700000000000" Sample.form
         (App.initial string))
  = [ App.mkRequest "PROJ-1" "generate_tests" None "gpt-4o" ].
Proof. reflexivity. Qed.

(** A last line without its line feed stays in the buffer. *)
Example read_loop_unfinished_line :
  Sse.read_loop nat Sample.JSON_parse (fun s => s)
    [ Sse.ln "data: 1"; "data: 1" ] ""
  = [ (1, None) ].
Proof. reflexivity. Qed.

(** A run with [generate_tests] skips the code stage and writes three
    checkpoints: one for each stage and one on completion. *)
Example execute_generate_tests :
  match Orchestrator.execute string Sample.capability Sample.ticket
          (Some Orchestrator.generate_tests) None Sample.empty_world with
  | Some (inr rs, w) =>
      (Orchestrator.invocations w,
       map (Orchestrator.seq string) (Orchestrator.history w (Orchestrator.runId rs)))
  | _ => ([], [])
  end
  = ([ (0, Orchestrator.Requirement); (0, Orchestrator.Test) ], [ 1; 2; 3 ]).
Proof. vm_compute. reflexivity. Qed.

(** The run that fails at its code stage: two results, the second failed,
    the status [failed], three checkpoints of which the last holds the
    returned state, the events in the order of section 4.2, and no lock
    left behind. *)
Example execute_failing_at_code :
  (map Orchestrator.status (Orchestrator.results Sample.failed_run),
   Orchestrator.run_status Sample.failed_run,
   map (Orchestrator.seq string)
       (Orchestrator.history Sample.world_after_failure
          (Orchestrator.runId Sample.failed_run)),
   Orchestrator.latest Sample.world_after_failure (Orchestrator.runId Sample.failed_run),
   map (fun e => Orchestrator.kind string (snd e))
       (Orchestrator.published Sample.world_after_failure),
   Orchestrator.invocations Sample.world_after_failure,
   Orchestrator.held (Orchestrator.runId Sample.failed_run) Sample.world_after_failure)
  = ([ Orchestrator.completed; Orchestrator.failed ],
     Orchestrator.run_failed,
     [ 1; 2; 3 ],
     Some Sample.failed_run,
     [ Orchestrator.stage_start; Orchestrator.stage_complete;
       Orchestrator.stage_start; Orchestrator.stage_error; Orchestrator.run_error ],
     [ (0, Orchestrator.Requirement); (0, Orchestrator.Code) ],
     false).
Proof. vm_compute. reflexivity. Qed.

(** The greedy first group of the diff pattern takes the last [" b/"] that
    leaves a second group. *)
Example match_diff_git_greedy :
  Diff.match_diff_git "diff --git a/x b/ y b/z b/" = Some ("x b/ y", "z b/").
Proof. reflexivity. Qed.

(** A count of zero is read as one. *)
Example parseDiff_zero_count :
  map (fun f => map Diff.oldCount (Diff.hunks f))
      (Diff.parseDiff (Js.join_nl [ "diff --git a/x b/x"; "@@ -0,0 +1,3 @@" ]))
  = [ [ 1%N ] ].
Proof. vm_compute. reflexivity. Qed.

(** The statistics of the sample, and a key that reaches [Object.prototype]. *)
Example stats_sample :
  Traceability.stats Sample.percent Sample.data
  = Traceability.mkStats 2 1 0 1 50 50.
Proof. vm_compute. reflexivity. Qed.

Example traceabilityData_inherited_key :
  Traceability.traceabilityData Sample.inherited []
    [ Traceability.mkChange "x.js" (Some [ "constructor" ]) ] []
  = None.
Proof. reflexivity. Qed.

(** * Further properties of the front end

    The handlers and derived values around the code studied above: the
    agent toggles of [App.jsx], the summary of [WorkflowVisualizer.jsx],
    the rest of [DiffViewer.jsx] and [TraceabilityMatrix.jsx], and the
    filters of [TestSuiteMatrix.jsx]. *)

(** ** [api.js]: what [analyzeStream] delivers *)

(** X1.  When the response is [ok], [analyzeStream] completes, and the
    parsed data it hands to [onEvent] are, in order, those of the [data: ]
    lines that parse among the complete lines of the response body, the
    lines closed by a line feed: they depend on the body only, not on how
    it is cut into chunks, and a last line without its line feed is never
    delivered. *)
Theorem analyzeStream_delivers_complete_lines :
  forall (Json : Type) (JSON_parse : string -> option Json)
         (trim : string -> string) (status : nat) (chunks : list string),
    exists calls : list (Sse.call Json),
      Sse.analyzeStream Json JSON_parse trim true status chunks
      = Sse.Completed Json calls /\
      map fst calls
      = Sse.data_of Json JSON_parse
          (removelast (Js.split_nl (Sse.body_of chunks))).
Proof.
  intros Json JSON_parse trim status chunks. eexists. split; [reflexivity |].
  now rewrite Sse.read_loop_data.
Qed.

(** ** [App.jsx]: the two action mappings and the agent toggles *)

(** X2.  The action the guarded [runPipeline] computes from a selection is
    the one the earlier component computes exactly when the selection does
    not consist of the code and test agents without the requirement
    agent. *)
Theorem action_maps_agree_iff :
  forall sel : list string,
    App.runPipeline_action sel = AppAlt.runPipeline_action sel <->
    Js.includes sel "code" && Js.includes sel "test" && negb (Js.includes sel "req")
    = false.
Proof.
  intros sel. unfold App.runPipeline_action, AppAlt.runPipeline_action.
  destruct (Js.includes sel "req"), (Js.includes sel "code"),
    (Js.includes sel "test"); simpl; split; congruence.
Qed.

Module Toggle.

Import Js.

(** [toggleAgent]: the updater handed to [setFormData]. *)
Definition toggleAgent (agentId : string) (prev : App.formData) : App.formData :=
  App.mkForm (App.jiraId prev) (App.repoUrl prev)
    (if includes (App.actions prev) agentId
     then filter (fun a => negb (String.eqb a agentId)) (App.actions prev)
     else App.actions prev ++ [ agentId ])
    (App.model prev).

Lemma includes_app (l1 l2 : list string) (x : string) :
  includes (l1 ++ l2) x = includes l1 x || includes l2 x.
Proof. apply existsb_app. Qed.

Lemma includes_filter (p : string -> bool) (l : list string) (x : string) :
  includes (filter p l) x = p x && includes l x.
Proof.
  unfold includes. induction l as [| a l IH]; cbn [filter existsb].
  - now rewrite andb_false_r.
  - destruct (p a) eqn:Ha; cbn [existsb]; rewrite IH.
    + destruct (String.eqb_spec x a) as [-> |]; [| reflexivity].
      rewrite Ha. reflexivity.
    + destruct (String.eqb_spec x a) as [-> |]; [| reflexivity].
      rewrite Ha. reflexivity.
Qed.

(** Membership after a toggle: flipped for the toggled agent, kept for the
    others. *)
Lemma toggleAgent_includes (agentId : string) (fd : App.formData) (x : string) :
  includes (App.actions (toggleAgent agentId fd)) x
  = if String.eqb x agentId then negb (includes (App.actions fd) agentId)
    else includes (App.actions fd) x.
Proof.
  unfold toggleAgent. cbn [App.actions].
  destruct (includes (App.actions fd) agentId) eqn:Hin.
  - rewrite includes_filter.
    destruct (String.eqb_spec x agentId) as [-> |]; [reflexivity |].
    reflexivity.
  - rewrite includes_app. cbn [includes existsb]. rewrite orb_false_r.
    destruct (String.eqb_spec x agentId) as [-> |].
    + rewrite Hin. reflexivity.
    + now rewrite orb_false_r.
Qed.

(** The action depends on the selection through membership only. *)
Lemma action_by_membership (sel1 sel2 : list string) :
  (forall x, includes sel1 x = includes sel2 x) ->
  App.runPipeline_action sel1 = App.runPipeline_action sel2.
Proof. intros H. unfold App.runPipeline_action. now rewrite !H. Qed.

Lemma empty_by_membership (sel1 sel2 : list string) :
  (forall x, includes sel1 x = includes sel2 x) ->
  (length sel1 =? 0)%nat = (length sel2 =? 0)%nat.
Proof.
  intros H. destruct sel1 as [| a l1], sel2 as [| b l2]; try reflexivity.
  - specialize (H b). cbn in H. now rewrite String.eqb_refl in H.
  - specialize (H a). cbn in H. now rewrite String.eqb_refl in H.
Qed.

End Toggle.

(** X3.  [toggleAgent] flips the membership of the toggled agent in the
    selection and keeps that of every other agent, and it touches nothing
    else of the form.  Toggling an agent twice may reorder the selection,
    but the action [runPipeline] computes and the guard of the Run button
    are as before. *)
Theorem toggleAgent_flips_membership :
  forall (agentId : string) (fd : App.formData),
    (forall x : string,
        Js.includes (App.actions (Toggle.toggleAgent agentId fd)) x
        = if String.eqb x agentId then negb (Js.includes (App.actions fd) agentId)
          else Js.includes (App.actions fd) x) /\
    (App.jiraId (Toggle.toggleAgent agentId fd) = App.jiraId fd /\
     App.repoUrl (Toggle.toggleAgent agentId fd) = App.repoUrl fd /\
     App.model (Toggle.toggleAgent agentId fd) = App.model fd) /\
    (let fd2 := Toggle.toggleAgent agentId (Toggle.toggleAgent agentId fd) in
     App.runPipeline_action (App.actions fd2) = App.runPipeline_action (App.actions fd) /\
     App.invalid fd2 = App.invalid fd).
Proof.
  intros agentId fd. split; [apply Toggle.toggleAgent_includes |].
  split; [repeat split |].
  assert (H : forall x,
             Js.includes
               (App.actions (Toggle.toggleAgent agentId (Toggle.toggleAgent agentId fd))) x
             = Js.includes (App.actions fd) x).
  { intros x. rewrite !Toggle.toggleAgent_includes.
    destruct (String.eqb_spec x agentId) as [-> |]; [| reflexivity].
    rewrite String.eqb_refl. apply negb_involutive. }
  split.
  - now apply Toggle.action_by_membership.
  - unfold App.invalid. rewrite (Toggle.empty_by_membership _ _ H). reflexivity.
Qed.

(** ** [WorkflowVisualizer.jsx]: the summary of the nodes [App.jsx] builds *)

Module Visualizer.

(** A node as [App.jsx] builds it, without its [icon], [duration] and
    [result], which the summary does not read. *)
Record node := mkNode {
  id : string;
  name : string;
  status : string
}.

(** The callback of [agents.map((agent, idx) => ...)]. *)
Definition node_of (idx : nat) (a : Workflow.agent) : node :=
  mkNode ("node-" ++ Diff.to_string (N.of_nat idx)) (Workflow.agent_name a)
    (if String.eqb (Workflow.status a) "completed" then "completed"
     else if String.eqb (Workflow.status a) "failed" then "error"
     else "pending").

Fixpoint map_from (idx : nat) (agents : list Workflow.agent) : list node :=
  match agents with
  | [] => []
  | a :: rest => node_of idx a :: map_from (S idx) rest
  end.

(** The [nodes] property: [(apiResponse.agents || []).map(...)]. *)
Definition nodes (agents : option (list Workflow.agent)) : list node :=
  map_from 0 (match agents with Some l => l | None => [] end).

Definition has_status (s : string) (n : node) : bool := String.eqb (status n) s.

Section Summary.

(** [Math.round((n / total) * 100)] for a positive [total]. *)
Variable percent : nat -> nat -> nat.

Variable nodes : list node.

Definition runningNode : option node := find (has_status "running") nodes.

Definition completedCount : nat := length (filter (has_status "completed") nodes).

Definition totalCount : nat := length nodes.

Definition overallProgress : nat :=
  if (0 <? totalCount)%nat then percent completedCount totalCount else 0.

Definition hasError : bool := existsb (has_status "error") nodes.

Definition isComplete : bool :=
  (completedCount =? totalCount)%nat && (0 <? totalCount)%nat.

Definition isRunning : bool := existsb (has_status "running") nodes.

(** The text of the status badge. *)
Definition badge : string :=
  if hasError then "Error"
  else if isComplete then "Complete"
  else if isRunning then "Running"
  else "Pending".

End Summary.

(** The events of one kind. *)
Definition count_kind (k : string) (evs : list Workflow.event) : nat :=
  length (filter (fun e => String.eqb (Workflow.event_kind e) k) evs).

Lemma count_kind_app (k : string) (l1 l2 : list Workflow.event) :
  count_kind k (l1 ++ l2) = count_kind k l1 + count_kind k l2.
Proof. unfold count_kind. now rewrite filter_app, length_app. Qed.

(** Nodes and events of the same agents, counted together. *)
Lemma counts_from (clock : nat -> string) (agents : list Workflow.agent) :
  forall idx : nat,
    let ns := map_from idx agents in
    let evs := Workflow.flatMap_from clock idx agents in
    length evs = 2 * totalCount ns /\
    count_kind "node_start" evs = totalCount ns /\
    count_kind "node_complete" evs = completedCount ns /\
    count_kind "node_error" evs + completedCount ns = totalCount ns /\
    length (filter (has_status "error") ns) <= count_kind "node_error" evs /\
    isRunning ns = false /\
    runningNode ns = None.
Proof.
  induction agents as [| a rest IH]; intros idx; [repeat split; reflexivity || lia |].
  destruct (IH (S idx)) as (H1 & H2 & H3 & H4 & H5 & H6 & H7).
  cbn zeta in *. cbn [map_from Workflow.flatMap_from].
  rewrite !count_kind_app, length_app.
  unfold totalCount, completedCount, isRunning, runningNode in *.
  cbn [length filter existsb find]. rewrite H1, H2, H3, H6, H7.
  unfold node_of, has_status, Workflow.agent_events, count_kind in *.
  cbn [status filter Workflow.event_kind].
  destruct (String.eqb (Workflow.status a) "completed");
    [| destruct (String.eqb (Workflow.status a) "failed")];
    cbn [String.eqb Ascii.eqb Bool.eqb length filter orb];
    repeat split; lia.
Qed.

End Visualizer.

(** X4.  For the nodes and the events [App.jsx] hands to the Workflow tab,
    built from the same [agents] array: there are two events per node; the
    [node_complete] events are as many as the nodes the progress bar counts
    as completed, and every other node has a [node_error] event, also an
    agent that neither completed nor failed, whose node is shown as
    pending; no node is ever running; and the badge reads [Complete]
    exactly when there is an event and none is a [node_error]. *)
Theorem workflow_summary_matches_events :
  forall (clock : nat -> string) (agents : option (list Workflow.agent)),
    let ns := Visualizer.nodes agents in
    let evs := Workflow.events clock agents in
    length evs = 2 * Visualizer.totalCount ns /\
    Visualizer.count_kind "node_complete" evs = Visualizer.completedCount ns /\
    Visualizer.count_kind "node_error" evs + Visualizer.completedCount ns
    = Visualizer.totalCount ns /\
    Visualizer.isRunning ns = false /\
    Visualizer.runningNode ns = None /\
    (Visualizer.hasError ns = true -> 0 < Visualizer.count_kind "node_error" evs) /\
    (Visualizer.badge ns = "Complete" <->
     evs <> [] /\ Visualizer.count_kind "node_error" evs = 0).
Proof.
  intros clock agents ns evs. subst ns evs.
  unfold Visualizer.nodes, Workflow.events.
  set (l := match agents with Some l => l | None => [] end).
  destruct (Visualizer.counts_from clock l 0) as (H1 & H2 & H3 & H4 & H5 & H6 & H7).
  cbn zeta in *.
  set (ns := Visualizer.map_from 0 l) in *.
  set (evs := Workflow.flatMap_from clock 0 l) in *.
  split; [exact H1 |]. split; [exact H3 |]. split; [exact H4 |].
  split; [exact H6 |]. split; [exact H7 |].
  assert (He : Visualizer.hasError ns = true ->
               0 < length (filter (Visualizer.has_status "error") ns)).
  { unfold Visualizer.hasError. intros H. apply existsb_exists in H as (n & Hn & Hs).
    assert (Hin : In n (filter (Visualizer.has_status "error") ns))
      by (apply filter_In; auto).
    destruct (filter _ ns); [destruct Hin | cbn; lia]. }
  split; [intros H; apply He in H; lia |].
  unfold Visualizer.badge, Visualizer.isComplete. rewrite H6.
  destruct (Visualizer.hasError ns) eqn:Herr.
  - split; [discriminate |]. intros [_ H0]. specialize (He eq_refl). lia.
  - destruct (Nat.eqb_spec (Visualizer.completedCount ns) (Visualizer.totalCount ns)) as [Hc | Hc];
      destruct (Nat.ltb_spec 0 (Visualizer.totalCount ns)) as [Ht | Ht]; cbn [andb].
    + split; [intros _ | reflexivity]. split; [| lia].
      intros Hnil. rewrite Hnil in H1. cbn in H1. lia.
    + split; [discriminate |]. intros [Hnil _]. destruct evs; [congruence |].
      cbn in H1. lia.
    + split; [discriminate |]. intros [_ H0]. lia.
    + split; [discriminate |]. intros [_ H0]. lia.
Qed.

(** ** [DiffViewer.jsx]: what [parseDiff] makes of a text *)

Module DiffView.

Import Js.
Import Diff.

(** The state before the first line. *)
Definition start : state := mkState [] None None.

(** The guard on the empty text changes nothing: a text without a line
    leaves the loop in its first state. *)
Lemma parseDiff_fold (diffText : string) :
  parseDiff diffText = pushed (fold_left on_line (split_nl diffText) start).
Proof. unfold parseDiff. now destruct diffText. Qed.

(** [totalAdditions] and [totalDeletions]: the two [reduce] calls. *)
Definition totalAdditions (parsedFiles : list file) : nat :=
  fold_left (fun sum f => sum + additions f) parsedFiles 0.

Definition totalDeletions (parsedFiles : list file) : nat :=
  fold_left (fun sum f => sum + deletions f) parsedFiles 0.

(** The hunks of all files. *)
Definition all_hunks (fs : list file) : list hunk := concat (map hunks fs).

Lemma fold_left_sum (g : file -> nat) (fs : list file) :
  forall n : nat, fold_left (fun sum f => sum + g f) fs n = n + list_sum (map g fs).
Proof.
  induction fs as [| f fs IH]; intros n; cbn [fold_left map list_sum fold_right];
    [lia |].
  rewrite IH. unfold list_sum. lia.
Qed.

Lemma total_count_all (p : line -> bool) (g : file -> nat) (fs : list file) :
  Forall (fun f => g f = count_all p (hunks f)) fs ->
  fold_left (fun sum f => sum + g f) fs 0 = count_all p (all_hunks fs).
Proof.
  intros H. rewrite fold_left_sum. unfold all_hunks.
  induction H as [| f fs Hf Hfs IH]; [reflexivity |].
  cbn [map list_sum fold_right concat]. rewrite count_all_app, Hf.
  unfold list_sum in IH. cbn [Nat.add] in IH. lia.
Qed.

(** *** The files and the [diff --git] lines *)

Definition is_diff (ln : string) : bool := startsWith ln "diff --git".

Definition paths (f : file) : string * string := (oldPath f, newPath f).

Lemma paths_pushed_whole (fs : list file) (f : file) (ch ch' : option hunk) (f' : file) :
  paths f' = paths f ->
  map paths (pushed (mkState fs (Some f') ch'))
  = map paths (pushed (mkState fs (Some f) ch)).
Proof.
  intros H. unfold pushed. cbn [currentFile currentHunk files].
  rewrite !map_app. cbn [map]. unfold paths in *. cbn [whole oldPath newPath].
  now rewrite H.
Qed.

Lemma paths_on_line (st : state) (ln : string) :
  map paths (pushed (on_line st ln))
  = map paths (pushed st) ++ (if is_diff ln then [ diff_paths ln ] else []).
Proof.
  unfold on_line, is_diff. destruct (startsWith ln "diff --git").
  - destruct (diff_paths ln) as [o n]. unfold pushed at 1.
    cbn [currentFile currentHunk files]. now rewrite map_app.
  - rewrite app_nil_r. destruct st as [fs cf ch]. cbn [currentFile currentHunk files].
    destruct (startsWith ln "@@").
    + destruct (match_hunk ln) as [[[[[g1 g2] g3] g4] g5] |]; [| reflexivity].
      destruct cf as [f |]; [| reflexivity].
      now apply paths_pushed_whole.
    + destruct ch as [h |]; [| reflexivity]. destruct cf as [f |]; [| reflexivity].
      now apply paths_pushed_whole.
Qed.

Lemma paths_fold (lns : list string) :
  forall st : state,
    map paths (pushed (fold_left on_line lns st))
    = map paths (pushed st) ++ map diff_paths (filter is_diff lns).
Proof.
  induction lns as [| ln lns IH]; intros st; cbn [fold_left filter map].
  - now rewrite app_nil_r.
  - rewrite IH, paths_on_line, <- app_assoc. now destruct (is_diff ln).
Qed.

(** *** Texts put one after the other *)

Lemma split_nl_lf (t1 t2 : string) :
  split_nl (t1 ++ String LF t2) = split_nl t1 ++ split_nl t2.
Proof.
  induction t1 as [| c t1 IH]; [reflexivity |].
  rewrite append_cons. cbn [split_nl]. rewrite IH.
  pose proof (split_nl_nonempty t1) as Hne.
  destruct (Ascii.eqb c LF); [reflexivity |].
  destruct (split_nl t1) as [| p ps]; [congruence | reflexivity].
Qed.

(** A text that starts with [p], a string without line feed, has a first
    line that starts with [p]. *)
Lemma split_nl_prefix (p : string) :
  no_nl p = true ->
  forall t : string,
    startsWith t p = true ->
    exists l0 rest, split_nl t = l0 :: rest /\ startsWith l0 p = true.
Proof.
  unfold startsWith. induction p as [| c p IH]; intros Hp t Ht.
  - pose proof (split_nl_nonempty t) as Hne.
    destruct (split_nl t) as [| l0 rest]; [congruence |].
    exists l0, rest. split; [reflexivity | apply prefix_nil].
  - destruct t as [| x t]; [discriminate |]. cbn [String.prefix] in Ht.
    destruct (ascii_dec c x) as [<- |]; [| discriminate].
    cbn [no_nl] in Hp. apply andb_prop in Hp as [Hc Hp]. apply negb_true_iff in Hc.
    destruct (IH Hp t Ht) as (l0 & rest & Hs & Hl).
    exists (String c l0), rest. cbn [split_nl]. rewrite Hc, Hs.
    split; [reflexivity |]. cbn [String.prefix].
    destruct (ascii_dec c c); [exact Hl | congruence].
Qed.

(** The files already pushed stay as they are. *)
Definition behind (fs : list file) (st : state) : state :=
  mkState (fs ++ files st) (currentFile st) (currentHunk st).

Lemma pushed_behind (fs : list file) (st : state) :
  pushed (behind fs st) = fs ++ pushed st.
Proof.
  unfold pushed, behind. cbn [currentFile currentHunk files].
  destruct (currentFile st); [now rewrite app_assoc | reflexivity].
Qed.

Lemma on_line_behind (fs : list file) (st : state) (ln : string) :
  on_line (behind fs st) ln = behind fs (on_line st ln).
Proof.
  unfold on_line. destruct (startsWith ln "diff --git").
  - destruct (diff_paths ln) as [o n]. rewrite pushed_behind. reflexivity.
  - destruct st as [fs0 cf ch]. unfold behind. cbn [currentFile currentHunk files].
    destruct (startsWith ln "@@").
    + destruct (match_hunk ln) as [[[[[g1 g2] g3] g4] g5] |]; [| reflexivity].
      destruct cf; reflexivity.
    + destruct ch; [| reflexivity].
      destruct cf; reflexivity.
Qed.

Lemma fold_behind (lns : list string) :
  forall (fs : list file) (st : state),
    fold_left on_line lns (behind fs st) = behind fs (fold_left on_line lns st).
Proof.
  induction lns as [| ln lns IH]; intros fs st; [reflexivity |].
  cbn [fold_left]. now rewrite on_line_behind, IH.
Qed.

(** A [diff --git] line closes the files before it and starts afresh. *)
Lemma on_line_diff (st : state) (ln : string) :
  startsWith ln "diff --git" = true ->
  on_line st ln = behind (pushed st) (on_line start ln).
Proof.
  intros H. unfold on_line. rewrite H. destruct (diff_paths ln) as [o n].
  unfold behind. cbn [files currentFile currentHunk pushed start].
  now rewrite app_nil_r.
Qed.

(** *** Lines between a [diff --git] line and the first hunk *)

(** A line that starts neither a file nor a hunk. *)
Definition plain_line (ln : string) : bool :=
  negb (startsWith ln "diff --git") && negb (startsWith ln "@@").

(** Outside a hunk such lines leave the state as it is. *)
Lemma fold_plain_lines (lns : list string) (fs : list file) (cf : option file) :
  forallb plain_line lns = true ->
  fold_left on_line lns (mkState fs cf None) = mkState fs cf None.
Proof.
  induction lns as [| ln lns IH]; intros H; [reflexivity |].
  cbn [forallb] in H. apply andb_prop in H as [Hln H].
  unfold plain_line in Hln. apply andb_prop in Hln as [H1 H2].
  apply negb_true_iff in H1, H2.
  cbn [fold_left]. unfold on_line at 2. rewrite H1, H2.
  cbn [currentHunk]. now apply IH.
Qed.

Lemma parseDiff_lines (lns : list string) :
  Forall (fun l => no_nl l = true) lns ->
  parseDiff (join_nl lns) = pushed (fold_left on_line lns start).
Proof.
  intros H. rewrite parseDiff_fold. destruct lns as [| l lns]; [reflexivity |].
  rewrite split_join; [reflexivity | discriminate | exact H].
Qed.

(** *** Line numbers *)

(** [l.map((x, idx) => f(x, idx))], from index [idx]. *)
Fixpoint mapi_from {A B : Type} (f : A -> nat -> B) (idx : nat) (l : list A) : list B :=
  match l with
  | [] => []
  | x :: rest => f x idx :: mapi_from f (S idx) rest
  end.

Definition not_add (l : line) : bool := negb (is_add l).
Definition not_del (l : line) : bool := negb (is_del l).

(** The number [FileDiff] shows beside the line at [lineIdx].  The code
    adds JavaScript numbers: the sum in [N] is the code's as long as it is
    at most 2^53, which is at least the case when the start number plus the
    number of lines of the hunk is. *)
Definition lineNum (h : hunk) (l : line) (lineIdx : nat) : N :=
  match type l with
  | del => oldStart h + N.of_nat (length (filter not_add (firstn lineIdx (lines h))))
  | _ => newStart h + N.of_nat (length (filter not_del (firstn lineIdx (lines h))))
  end.

(** The lines of a hunk as they are rendered, each with its number. *)
Definition numbered (h : hunk) : list (line * N) :=
  mapi_from (fun l lineIdx => (l, lineNum h l lineIdx)) 0 (lines h).

(** The lines of one side of the hunk, numbered as in the file of that
    side: consecutively from the start of the hunk. *)
Definition side (keep : line -> bool) (first : N) (ls : list line) : list (line * N) :=
  let kept := filter keep ls in
  combine kept (map (fun j => (first + N.of_nat j)%N) (seq 0 (length kept))).

Definition side_from (keep : line -> bool) (first : N) (k : nat) (ls : list line)
  : list (line * N) :=
  let kept := filter keep ls in
  combine kept (map (fun j => (first + N.of_nat j)%N) (seq k (length kept))).

Lemma firstn_length_app {A : Type} (pre rest : list A) :
  firstn (length pre) (pre ++ rest) = pre.
Proof.
  induction pre as [| x pre IH]; [now destruct rest |]. cbn. now rewrite IH.
Qed.

Lemma length_filter_snoc (p : line -> bool) (pre : list line) (x : line) :
  length (filter p (pre ++ [ x ])) = length (filter p pre) + (if p x then 1 else 0).
Proof.
  rewrite filter_app, length_app. cbn [filter]. now destruct (p x).
Qed.

Lemma numbered_new_from (h : hunk) (rest : list line) :
  forall pre : list line,
    lines h = pre ++ rest ->
    filter (fun p => not_del (fst p))
           (mapi_from (fun l lineIdx => (l, lineNum h l lineIdx)) (length pre) rest)
    = side_from not_del (newStart h) (length (filter not_del pre)) rest.
Proof.
  induction rest as [| x rest IH]; intros pre Hl; [reflexivity |].
  cbn [mapi_from filter fst].
  assert (Hl' : lines h = (pre ++ [ x ]) ++ rest) by now rewrite <- app_assoc.
  specialize (IH (pre ++ [ x ]) Hl').
  rewrite length_app, Nat.add_1_r in IH. cbn [length] in IH. rewrite IH.
  rewrite length_filter_snoc. unfold side_from. cbn [filter].
  unfold lineNum. rewrite Hl, firstn_length_app.
  assert (Hx : not_del x = match type x with del => false | _ => true end)
    by (unfold not_del, is_del; now destruct (type x)).
  rewrite Hx.
  destruct (type x); cbn [length seq map combine];
    rewrite ?Nat.add_0_r, ?Nat.add_1_r; reflexivity.
Qed.

Lemma numbered_old_from (h : hunk) (rest : list line) :
  forall pre : list line,
    lines h = pre ++ rest ->
    filter (fun p => is_del (fst p))
           (mapi_from (fun l lineIdx => (l, lineNum h l lineIdx)) (length pre) rest)
    = filter (fun p => is_del (fst p))
             (side_from not_add (oldStart h) (length (filter not_add pre)) rest).
Proof.
  induction rest as [| x rest IH]; intros pre Hl; [reflexivity |].
  cbn [mapi_from filter fst].
  assert (Hl' : lines h = (pre ++ [ x ]) ++ rest) by now rewrite <- app_assoc.
  specialize (IH (pre ++ [ x ]) Hl').
  rewrite length_app, Nat.add_1_r in IH. cbn [length] in IH. rewrite IH.
  rewrite length_filter_snoc. unfold side_from. cbn [filter].
  unfold lineNum. rewrite Hl, firstn_length_app.
  assert (Ha : not_add x = match type x with add => false | _ => true end)
    by (unfold not_add, is_add; now destruct (type x)).
  assert (Hd : is_del x = match type x with del => true | _ => false end)
    by reflexivity.
  rewrite Ha, Hd.
  destruct (type x); cbn [length seq map combine filter fst]; rewrite ?Hd;
    rewrite ?Nat.add_0_r, ?Nat.add_1_r; reflexivity.
Qed.

(** *** The copied text *)

(** The text [handleCopy] writes to the clipboard. *)
Definition handleCopy (f : file) : string :=
  join_nl (map (fun h => join_nl (map line_text (lines h))) (hunks f)).

(** A line read as [parseDiff] reads the lines of a hunk. *)
Definition read_line (ln : string) : line := mkLine (slice 1 ln) (line_type ln).

Lemma read_line_text (l : line) : read_line (line_text l) = l.
Proof.
  unfold read_line. rewrite line_type_text, slice_line_text. now destruct l.
Qed.

(** *** The expanded files *)

(** [toggleFile]: the set handed to [setExpandedFiles]. *)
Definition toggleFile (index : nat) (expandedFiles : gset nat) : gset nat :=
  if bool_decide (index ∈ expandedFiles)
  then expandedFiles ∖ {[ index ]}
  else expandedFiles ∪ {[ index ]}.

End DiffView.

(** X5.  In every file [parseDiff] returns, [additions] and [deletions]
    are the numbers of added and deleted lines of its hunks, no hunk has an
    old or new count of zero, and no line content holds a line feed; so the
    totals in the header of the viewer are the numbers of added and deleted
    lines of all hunks shown. *)
Theorem parseDiff_counters :
  forall diffText : string,
    let parsedFiles := Diff.parseDiff diffText in
    Forall (fun f =>
              Diff.additions f = Diff.count_all Diff.is_add (Diff.hunks f) /\
              Diff.deletions f = Diff.count_all Diff.is_del (Diff.hunks f) /\
              Forall (fun h =>
                        Diff.oldCount h <> 0%N /\ Diff.newCount h <> 0%N /\
                        Forall (fun l => Js.no_nl (Diff.content l) = true) (Diff.lines h))
                     (Diff.hunks f))
           parsedFiles /\
    DiffView.totalAdditions parsedFiles
    = Diff.count_all Diff.is_add (DiffView.all_hunks parsedFiles) /\
    DiffView.totalDeletions parsedFiles
    = Diff.count_all Diff.is_del (DiffView.all_hunks parsedFiles).
Proof.
  intros diffText parsedFiles. subst parsedFiles.
  pose proof (Diff.parseDiff_wf diffText) as Hw.
  split; [| split].
  - eapply Forall_impl; [| exact Hw].
    intros f (_ & _ & _ & Hh & Ha & Hd). auto.
  - apply DiffView.total_count_all. eapply Forall_impl; [| exact Hw].
    intros f (_ & _ & _ & _ & Ha & _). exact Ha.
  - apply DiffView.total_count_all. eapply Forall_impl; [| exact Hw].
    intros f (_ & _ & _ & _ & _ & Hd). exact Hd.
Qed.

(** X6.  [parseDiff] returns one file for each line of the text that
    starts with [diff --git], in the order of these lines and with the
    paths read from them; a text without such a line, whatever hunks it
    holds, gives no file. *)
Theorem parseDiff_one_file_per_diff_line :
  forall diffText : string,
    map DiffView.paths (Diff.parseDiff diffText)
    = map Diff.diff_paths (filter DiffView.is_diff (Js.split_nl diffText)).
Proof.
  intros diffText. rewrite DiffView.parseDiff_fold.
  apply (DiffView.paths_fold (Js.split_nl diffText) DiffView.start).
Qed.

(** X7.  A text made of two texts, the second starting with [diff --git]
    on a new line, is parsed into the files of the first followed by the
    files of the second: what comes before a [diff --git] line has no
    effect on the files read after it. *)
Theorem parseDiff_of_two_texts :
  forall t1 t2 : string,
    Js.startsWith t2 "diff --git" = true ->
    Diff.parseDiff (t1 ++ String Js.LF t2) = Diff.parseDiff t1 ++ Diff.parseDiff t2.
Proof.
  intros t1 t2 Ht.
  rewrite !DiffView.parseDiff_fold, DiffView.split_nl_lf, fold_left_app.
  destruct (DiffView.split_nl_prefix "diff --git" eq_refl t2 Ht)
    as (l0 & rest & -> & Hl0).
  cbn [fold_left].
  rewrite (DiffView.on_line_diff
             (fold_left Diff.on_line (Js.split_nl t1) DiffView.start) l0 Hl0).
  now rewrite DiffView.fold_behind, DiffView.pushed_behind.
Qed.

(** X8.  The lines that follow a [diff --git] line before the first hunk
    of the file, and any line outside a hunk before the first file, leave
    no trace as long as they start neither with [diff --git] nor with
    [@@]: the [index], [---] and [+++] lines of a file header are not read
    as deleted or added lines. *)
Theorem parseDiff_skips_file_header :
  forall (before : list string) (d : string) (header after : list string),
    Forall (fun l => Js.no_nl l = true) (before ++ d :: header ++ after) ->
    DiffView.is_diff d = true ->
    forallb DiffView.plain_line header = true ->
    Diff.parseDiff (Js.join_nl (before ++ d :: header ++ after))
    = Diff.parseDiff (Js.join_nl (before ++ d :: after)) /\
    Diff.parseDiff (Js.join_nl (header ++ d :: after))
    = Diff.parseDiff (Js.join_nl (d :: after)).
Proof.
  intros before d header after Hnl Hd Hh.
  apply Forall_app in Hnl as [Hb Hnl]. inversion Hnl as [| ? ? Hdl Hnl']; subst.
  apply Forall_app in Hnl' as [Hhl Ha].
  assert (Hstep : forall st,
             fold_left Diff.on_line header (Diff.on_line st d) = Diff.on_line st d).
  { intros st. unfold Diff.on_line at 2 3. unfold DiffView.is_diff in Hd. rewrite Hd.
    destruct (Diff.diff_paths d) as [o n]. now apply DiffView.fold_plain_lines. }
  split.
  - rewrite !DiffView.parseDiff_lines.
    + rewrite !fold_left_app. cbn [fold_left]. rewrite fold_left_app.
      now rewrite Hstep.
    + apply Forall_app. split; [exact Hb |]. now constructor.
    + apply Forall_app. split; [exact Hb |]. constructor; [exact Hdl |].
      apply Forall_app. now split.
  - rewrite !DiffView.parseDiff_lines.
    + rewrite fold_left_app. unfold DiffView.start.
      now rewrite (DiffView.fold_plain_lines header [] None Hh).
    + now constructor.
    + apply Forall_app. split; [exact Hhl |]. now constructor.
Qed.

(** X9.  For a hunk whose two start numbers, each increased by the number
    of lines of the hunk, are at most 2^53, so that every sum [lineNum]
    forms is exact: among the rendered lines of the hunk, the context and
    added lines carry the consecutive numbers of the new file from
    [newStart] on, and each deleted line carries the number it has when the
    deleted and context lines, the lines of the old file, are numbered
    consecutively from [oldStart] on. *)
Theorem lineNum_numbers_each_side :
  forall h : Diff.hunk,
    Diff.safe_integer (Diff.oldStart h + N.of_nat (length (Diff.lines h))) ->
    Diff.safe_integer (Diff.newStart h + N.of_nat (length (Diff.lines h))) ->
    filter (fun p => DiffView.not_del (fst p)) (DiffView.numbered h)
    = DiffView.side DiffView.not_del (Diff.newStart h) (Diff.lines h) /\
    filter (fun p => Diff.is_del (fst p)) (DiffView.numbered h)
    = filter (fun p => Diff.is_del (fst p))
             (DiffView.side DiffView.not_add (Diff.oldStart h) (Diff.lines h)).
Proof.
  intros h _ _. split.
  - apply (DiffView.numbered_new_from h (Diff.lines h) []). reflexivity.
  - apply (DiffView.numbered_old_from h (Diff.lines h) []). reflexivity.
Qed.

(** X10.  When a file has a hunk, no hunk of it is without lines and no
    line content holds a line feed, the text [handleCopy] puts on the
    clipboard has one line per line of the file's hunks, and reading each
    as [parseDiff] reads a hunk line gives the lines back, types and
    contents. *)
Theorem handleCopy_read_back :
  forall f : Diff.file,
    Diff.hunks f <> [] ->
    Forall (fun h => Diff.lines h <> [] /\
                     Forall (fun l => Js.no_nl (Diff.content l) = true) (Diff.lines h))
           (Diff.hunks f) ->
    map DiffView.read_line (Js.split_nl (DiffView.handleCopy f))
    = concat (map Diff.lines (Diff.hunks f)).
Proof.
  intros f Hne Hh. unfold DiffView.handleCopy.
  rewrite <- (map_map (fun h => map Diff.line_text (Diff.lines h)) Js.join_nl).
  rewrite Diff.join_nl_concat.
  - rewrite Diff.split_join.
    + rewrite concat_map, map_map. f_equal. apply map_ext. intros h.
      rewrite map_map. rewrite <- (map_id (Diff.lines h)) at 2.
      apply map_ext, DiffView.read_line_text.
    + destruct (Diff.hunks f) as [| h hs]; [congruence |].
      inversion Hh as [| ? ? [Hl _] _]; subst. cbn [map concat].
      destruct (Diff.lines h); [congruence | discriminate].
    + apply Forall_concat, Forall_map. eapply Forall_impl; [| exact Hh].
      intros h [_ Hl]. apply Forall_map. eapply Forall_impl; [| exact Hl].
      intros l. apply Diff.no_nl_line_text.
  - apply Forall_map. eapply Forall_impl; [| exact Hh].
    intros h [Hl _]. destruct (Diff.lines h); [congruence | discriminate].
Qed.

(** X11.  [toggleFile] collapses an expanded file and expands a collapsed
    one, leaves every other file as it is, and applied twice to the same
    index gives back the set it started from. *)
Theorem toggleFile_involutive :
  forall (index : nat) (expandedFiles : gset nat),
    (index ∈ DiffView.toggleFile index expandedFiles <-> index ∉ expandedFiles) /\
    (forall j : nat, j <> index ->
       (j ∈ DiffView.toggleFile index expandedFiles <-> j ∈ expandedFiles)) /\
    DiffView.toggleFile index (DiffView.toggleFile index expandedFiles) = expandedFiles.
Proof.
  intros index s. unfold DiffView.toggleFile.
  destruct (decide (index ∈ s)) as [Hin | Hout].
  - rewrite (bool_decide_eq_true_2 _ Hin).
    assert (Hnot : index ∉ s ∖ {[ index ]}).
    { rewrite elem_of_difference, elem_of_singleton. tauto. }
    rewrite (bool_decide_eq_false_2 _ Hnot).
    split; [tauto | split].
    + intros j Hj. rewrite elem_of_difference, elem_of_singleton. tauto.
    + apply set_eq. intros x.
      rewrite elem_of_union, elem_of_difference, elem_of_singleton.
      destruct (decide (x = index)) as [-> | Hx]; tauto.
  - rewrite (bool_decide_eq_false_2 _ Hout).
    assert (Hyes : index ∈ s ∪ {[ index ]}).
    { rewrite elem_of_union, elem_of_singleton. tauto. }
    rewrite (bool_decide_eq_true_2 _ Hyes).
    split; [tauto | split].
    + intros j Hj. rewrite elem_of_union, elem_of_singleton. tauto.
    + apply set_eq. intros x.
      rewrite elem_of_difference, elem_of_union, elem_of_singleton.
      destruct (decide (x = index)) as [-> | Hx]; tauto.
Qed.

(** ** [TraceabilityMatrix.jsx]: which entries there are, and when the map
    is computed *)

Module Keys.

Import Traceability.

(** The last requirement of the list with identifier [k], if any. *)
Definition last_with_id (k : string) (requirements : list requirement)
  : option requirement :=
  fold_left (fun found r => if String.eqb (Traceability.id r) k then Some r else found)
            requirements None.

Definition has_id (requirements : list requirement) (k : string) : bool :=
  existsb (fun r => String.eqb (Traceability.id r) k) requirements.

(** The keys the links look up: the identifiers the code changes list and
    the truthy identifiers the tests name. *)
Definition referenced (changes : list change) (tsts : list test) : list string :=
  flat_map (fun c => match implements_requirements c with Some ks => ks | None => [] end)
           changes
  ++ flat_map (fun t => match covers_requirement t with
                        | Some k => if Js.truthy k then [ k ] else []
                        | None => []
                        end) tsts.

Lemma has_id_In (requirements : list requirement) (k : string) :
  has_id requirements k = true <-> exists r, In r requirements /\ Traceability.id r = k.
Proof.
  unfold has_id. rewrite existsb_exists. split; intros (r & Hr & He); exists r.
  - apply String.eqb_eq in He. auto.
  - split; [exact Hr | now apply String.eqb_eq].
Qed.

Lemma has_id_false (requirements : list requirement) (k : string) :
  has_id requirements k = false <-> forall r, In r requirements -> Traceability.id r <> k.
Proof.
  split.
  - intros H r Hr He. assert (Ht : has_id requirements k = true)
      by (apply has_id_In; eauto). congruence.
  - intros H. destruct (has_id requirements k) eqn:E; [| reflexivity].
    apply has_id_In in E as (r & Hr & He). now destruct (H r Hr).
Qed.

(** *** The entries *)

(** The requirement stored under [k]. *)
Definition stored (m : gmap string entry) (k : string) : option requirement :=
  entry_requirement <$> m !! k.

Lemma init_stored (requirements : list requirement) (k : string) :
  k <> "__proto__" ->
  forall m : object,
    stored (own (fold_left init_entry requirements m)) k
    = fold_left (fun found r => if String.eqb (Traceability.id r) k then Some r else found)
                requirements (stored (own m) k).
Proof.
  intros Hk. induction requirements as [| r rs IH]; intros m; [reflexivity |].
  cbn [fold_left]. rewrite IH. f_equal. unfold init_entry, stored.
  destruct (String.eqb_spec (Traceability.id r) "__proto__") as [Hp | Hp]; cbn [own].
  - destruct (String.eqb_spec (Traceability.id r) k) as [He |]; [congruence | reflexivity].
  - rewrite lookup_insert. case_decide as Hd.
    + rewrite Hd, String.eqb_refl. reflexivity.
    + destruct (String.eqb_spec (Traceability.id r) k) as [He |]; [congruence | reflexivity].
Qed.

Lemma init_proto_key (requirements : list requirement) :
  forall m : object,
    own (fold_left init_entry requirements m) !! "__proto__" = own m !! "__proto__".
Proof.
  induction requirements as [| r rs IH]; intros m; [reflexivity |].
  cbn [fold_left]. rewrite IH. unfold init_entry.
  destruct (String.eqb_spec (Traceability.id r) "__proto__") as [Hp | Hp]; cbn [own];
    [reflexivity |].
  rewrite lookup_insert. case_decide; [congruence | reflexivity].
Qed.

Lemma init_size (requirements : list requirement) :
  forall m : object,
    size (own (fold_left init_entry requirements m))
    <= size (own m) + length requirements.
Proof.
  induction requirements as [| r rs IH]; intros m; cbn [fold_left length]; [lia |].
  etransitivity; [apply IH |]. unfold init_entry.
  destruct (String.eqb (Traceability.id r) "__proto__"); cbn [own]; [lia |].
  rewrite map_size_insert. destruct (own m !! Traceability.id r); cbn; lia.
Qed.

Lemma init_size_distinct (requirements : list requirement) :
  NoDup (map Traceability.id requirements) ->
  ~ In "__proto__" (map Traceability.id requirements) ->
  forall m : object,
    (forall r, In r requirements -> own m !! Traceability.id r = None) ->
    size (own (fold_left init_entry requirements m))
    = size (own m) + length requirements.
Proof.
  induction requirements as [| r rs IH]; intros Hnd Hp m Hm;
    cbn [fold_left length]; [lia |].
  cbn [map] in Hnd, Hp. inversion Hnd as [| ? ? Hr Hnd']; subst.
  rewrite IH; [| exact Hnd' | intros H; apply Hp; now right |].
  - unfold init_entry.
    destruct (String.eqb_spec (Traceability.id r) "__proto__") as [He | He];
      [destruct Hp; now left |].
    cbn [own]. rewrite map_size_insert_None by (apply Hm; now left). lia.
  - intros r' Hr'. unfold init_entry.
    destruct (String.eqb_spec (Traceability.id r) "__proto__") as [He | He];
      [destruct Hp; now left |].
    cbn [own]. rewrite lookup_insert. case_decide as Hd.
    + destruct Hr. rewrite Hd. apply in_map. exact Hr'.
    + apply Hm. now right.
Qed.

Lemma existsb_flat_map {A B : Type} (p : B -> bool) (f : A -> list B) (l : list A) :
  existsb p (flat_map f l) = existsb (fun x => existsb p (f x)) l.
Proof.
  induction l as [| x l IH]; [reflexivity |].
  cbn [flat_map existsb]. now rewrite existsb_app, IH.
Qed.

Section Keys.

Variable inherited : string -> bool.

(** A name that resolves through the prototype chain of a fresh object. *)
Definition special (k : string) : bool := inherited k || String.eqb k "__proto__".

(** A special name that is not the identifier of a requirement. *)
Definition unresolved (requirements : list requirement) (k : string) : bool :=
  special k && negb (has_id requirements k).

(** A link adds no key, removes none and leaves the requirements. *)
Definition same_keys (m m' : object) : Prop :=
  (forall k, stored (own m') k = stored (own m) k) /\ size (own m') = size (own m).

Lemma same_keys_refl (m : object) : same_keys m m.
Proof. split; auto. Qed.

Lemma same_keys_trans (m1 m2 m3 : object) :
  same_keys m1 m2 -> same_keys m2 m3 -> same_keys m1 m3.
Proof. intros [H1 H2] [H3 H4]. split; [intros k |]; congruence. Qed.

Lemma push_at_same_keys (push : entry -> entry) (m m' : object) (k0 : string) :
  (forall e, entry_requirement (push e) = entry_requirement e) ->
  push_at inherited push m k0 = Some m' -> same_keys m m'.
Proof.
  intros Hpush H. apply push_at_own in H. unfold same_keys, stored. rewrite H.
  destruct (own m !! k0) as [e |] eqn:E; [| auto].
  split.
  - intros k. rewrite lookup_insert. case_decide as Hd; [| reflexivity].
    subst k0. rewrite E. cbn. now rewrite Hpush.
  - apply map_size_insert_Some. now rewrite E.
Qed.

Lemma forEach_same_keys {A : Type} (body : object -> A -> option object) (l : list A) :
  (forall m x m', body m x = Some m' -> same_keys m m') ->
  forall m m', forEach body l m = Some m' -> same_keys m m'.
Proof.
  intros Hbody. induction l as [| x l IH]; intros m m' H; cbn [forEach] in H.
  - injection H as <-. apply same_keys_refl.
  - destruct (body m x) as [m1 |] eqn:E; [| discriminate].
    eapply same_keys_trans; [eapply Hbody, E | now apply IH].
Qed.

Lemma link_change_same_keys (m : object) (c : change) (m' : object) :
  link_change inherited m c = Some m' -> same_keys m m'.
Proof.
  unfold link_change. apply forEach_same_keys. intros m0 k m1.
  now apply push_at_same_keys.
Qed.

Lemma link_test_same_keys (m : object) (t : test) (m' : object) :
  link_test inherited m t = Some m' -> same_keys m m'.
Proof.
  unfold link_test. destruct (covers_requirement t) as [k |].
  - destruct (Js.truthy k).
    + now apply push_at_same_keys.
    + intros [= <-]. apply same_keys_refl.
  - intros [= <-]. apply same_keys_refl.
Qed.

(** The result holds the keys of the map after the first loop. *)
Lemma traceabilityData_same_keys (requirements : list requirement)
    (changes : list change) (tsts : list test) (data : gmap string entry) :
  traceabilityData inherited requirements changes tsts = Some data ->
  (forall k, stored data k
             = stored (own (fold_left init_entry requirements (mkObject ∅ None))) k) /\
  size data = size (own (fold_left init_entry requirements (mkObject ∅ None))).
Proof.
  unfold traceabilityData.
  destruct (forEach _ changes _) as [m1 |] eqn:H1; [| discriminate].
  destruct (forEach _ tsts m1) as [m2 |] eqn:H2; [| discriminate].
  intros [= <-].
  apply (forEach_same_keys _ _ link_change_same_keys) in H1 as [H1 S1].
  apply (forEach_same_keys _ _ link_test_same_keys) in H2 as [H2 S2].
  split.
  - intros k. rewrite <- H1, <- H2. unfold stored. rewrite lookup_fmap.
    now destruct (own m2 !! k).
  - rewrite map_size_fmap. congruence.
Qed.

(** *** When a link throws *)

(** The map after the first loop, as long as no requirement is called
    ["__proto__"]: no prototype was installed, and the own keys are the
    identifiers of the requirements. *)
Definition keyed (requirements : list requirement) (m : object) : Prop :=
  proto m = None /\
  forall k, is_Some (own m !! k) <-> has_id requirements k = true.

Lemma init_keyed (requirements : list requirement) :
  (forall r, In r requirements -> Traceability.id r <> "__proto__") ->
  keyed requirements (fold_left init_entry requirements (mkObject ∅ None)).
Proof.
  intros Hp.
  assert (H : forall rs m,
             (forall r, In r rs -> Traceability.id r <> "__proto__") ->
             proto (fold_left init_entry rs m) = proto m /\
             forall k, is_Some (own (fold_left init_entry rs m) !! k)
                       <-> is_Some (own m !! k) \/ has_id rs k = true).
  { induction rs as [| r rs IH]; intros m Hrs.
    - split; [reflexivity |]. intros k. cbn. intuition discriminate.
    - cbn [fold_left]. destruct (IH (init_entry m r)) as [IH1 IH2];
        [intros; apply Hrs; now right |].
      specialize (Hrs r (or_introl eq_refl)). apply String.eqb_neq in Hrs.
      unfold init_entry in *. rewrite Hrs in *. cbn [proto own] in *.
      split; [exact IH1 |]. intros k. rewrite IH2, lookup_insert_is_Some.
      unfold has_id. cbn [existsb]. rewrite orb_true_iff, String.eqb_eq.
      destruct (decide (Traceability.id r = k)); tauto. }
  destruct (H requirements (mkObject ∅ None) Hp) as [H1 H2].
  split; [exact H1 |]. intros k. rewrite H2. cbn [own]. rewrite lookup_empty.
  split; [intros [[x Hx] | Hk]; [discriminate | exact Hk] | auto].
Qed.

Lemma push_at_keyed (requirements : list requirement) (push : entry -> entry)
    (m : object) (k : string) :
  keyed requirements m ->
  (push_at inherited push m k = None <-> unresolved requirements k = true) /\
  (forall m', push_at inherited push m k = Some m' -> keyed requirements m').
Proof.
  intros [Hp Hk]. unfold push_at, get, unresolved, special. rewrite Hp.
  specialize (Hk k) as Hkk.
  destruct (own m !! k) as [e |] eqn:E.
  - assert (Hid : has_id requirements k = true) by (apply Hkk; eauto).
    rewrite Hid, andb_false_r. split; [split; discriminate |].
    intros m' [= <-]. split; [reflexivity |]. intros k'. cbn [own].
    rewrite lookup_insert_is_Some, <- Hk.
    destruct (decide (k = k')) as [<- |]; [rewrite E |]; intuition eauto.
  - assert (Hid : has_id requirements k = false).
    { destruct (has_id requirements k) eqn:Hh; [| reflexivity].
      exfalso. assert (Hx : is_Some (own m !! k))
        by (apply Hk; first [exact Hh | reflexivity]).
      rewrite E in Hx. destruct Hx as [x Hx]. discriminate. }
    rewrite Hid, andb_true_r.
    destruct (String.eqb k "__proto__"); [rewrite orb_true_r; split; [tauto | discriminate] |].
    rewrite orb_false_r.
    destruct (inherited k); [split; [tauto | discriminate] |].
    split; [split; discriminate |]. intros m' [= <-]. split; assumption.
Qed.

(** A loop whose body throws on the bad elements and on no other. *)
Lemma forEach_keyed {A : Type} (requirements : list requirement)
    (body : object -> A -> option object) (bad : A -> bool) (l : list A) :
  (forall m x, keyed requirements m ->
               (body m x = None <-> bad x = true) /\
               (forall m', body m x = Some m' -> keyed requirements m')) ->
  forall m, keyed requirements m ->
            (forEach body l m = None <-> existsb bad l = true) /\
            (forall m', forEach body l m = Some m' -> keyed requirements m').
Proof.
  intros Hbody. induction l as [| x l IH]; intros m Hm; cbn [forEach existsb].
  - split; [split; discriminate |]. now intros m' [= <-].
  - destruct (Hbody m x Hm) as [Hnone Hsome].
    destruct (body m x) as [m1 |] eqn:E.
    + assert (Hb : bad x = false).
      { destruct (bad x) eqn:Hb; [| reflexivity]. exfalso.
        assert (Hx : Some m1 = None)
          by (apply Hnone; first [exact Hb | reflexivity]).
        discriminate. }
      rewrite Hb. cbn [orb]. apply IH, Hsome. reflexivity.
    + rewrite (proj1 Hnone eq_refl). split; [tauto | discriminate].
Qed.

Definition bad_change (requirements : list requirement) (c : change) : bool :=
  existsb (unresolved requirements)
          (match implements_requirements c with Some ks => ks | None => [] end).

Definition bad_test (requirements : list requirement) (t : test) : bool :=
  existsb (unresolved requirements)
          (match covers_requirement t with
           | Some k => if Js.truthy k then [ k ] else []
           | None => []
           end).

Lemma link_change_keyed (requirements : list requirement) (m : object) (c : change) :
  keyed requirements m ->
  (link_change inherited m c = None <-> bad_change requirements c = true) /\
  (forall m', link_change inherited m c = Some m' -> keyed requirements m').
Proof.
  intros Hm. unfold link_change, bad_change.
  apply forEach_keyed; [| exact Hm]. intros m0 k. apply push_at_keyed.
Qed.

Lemma link_test_keyed (requirements : list requirement) (m : object) (t : test) :
  keyed requirements m ->
  (link_test inherited m t = None <-> bad_test requirements t = true) /\
  (forall m', link_test inherited m t = Some m' -> keyed requirements m').
Proof.
  intros Hm. unfold link_test, bad_test.
  destruct (covers_requirement t) as [k |];
    [destruct (Js.truthy k) |]; cbn [existsb].
  - rewrite orb_false_r. now apply push_at_keyed.
  - split; [split; discriminate | now intros m' [= <-]].
  - split; [split; discriminate | now intros m' [= <-]].
Qed.

Lemma traceabilityData_None (requirements : list requirement)
    (changes : list change) (tsts : list test) :
  (forall r, In r requirements -> Traceability.id r <> "__proto__") ->
  traceabilityData inherited requirements changes tsts = None <->
  existsb (unresolved requirements) (referenced changes tsts) = true.
Proof.
  intros Hp. unfold traceabilityData, referenced.
  rewrite existsb_app, !existsb_flat_map, orb_true_iff.
  pose proof (init_keyed requirements Hp) as H0.
  destruct (forEach_keyed requirements (link_change inherited) (bad_change requirements)
              changes (link_change_keyed requirements) _ H0) as [Hc1 Hc2].
  unfold bad_change in Hc1.
  destruct (forEach (link_change inherited) changes _) as [m1 |] eqn:E1.
  - destruct (forEach_keyed requirements (link_test inherited) (bad_test requirements)
                tsts (link_test_keyed requirements) m1 (Hc2 m1 eq_refl)) as [Ht1 _].
    unfold bad_test in Ht1.
    destruct (forEach (link_test inherited) tsts m1) as [m2 |] eqn:E2.
    + split; [discriminate |]. intros [H | H].
      * apply Hc1 in H. discriminate.
      * apply Ht1 in H. discriminate.
    + split; [intros _; right; now apply Ht1 | reflexivity].
  - split; [intros _; left; now apply Hc1 | reflexivity].
Qed.

End Keys.

End Keys.

(** X12.  Whenever [traceabilityData] is computed, its keys are the
    requirement identifiers other than ["__proto__"], and the entry of an
    identifier holds the last requirement of the list with that identifier:
    a requirement whose identifier comes again later has no entry of its
    own.  So [total] is at most the number of requirements, and equal to it
    when the identifiers are pairwise different and none is
    ["__proto__"]. *)
Theorem traceabilityData_entries :
  forall (inherited : string -> bool) (percent : nat -> nat -> nat)
         (requirements : list Traceability.requirement)
         (changes : list Traceability.change) (tsts : list Traceability.test)
         (data : gmap string Traceability.entry),
    Traceability.traceabilityData inherited requirements changes tsts = Some data ->
    (forall k : string,
        Keys.stored data k
        = if String.eqb k "__proto__" then None
          else Keys.last_with_id k requirements) /\
    Traceability.total (Traceability.stats percent data) <= length requirements /\
    (NoDup (map Traceability.id requirements) ->
     ~ In "__proto__" (map Traceability.id requirements) ->
     Traceability.total (Traceability.stats percent data) = length requirements).
Proof.
  intros inherited percent requirements changes tsts data Hdata.
  apply Keys.traceabilityData_same_keys in Hdata as [Hst Hsize].
  assert (Htotal : Traceability.total (Traceability.stats percent data) = size data).
  { unfold Traceability.stats. cbn [Traceability.total].
    now rewrite length_map, length_map_to_list. }
  rewrite Htotal, Hsize. split; [| split].
  - intros k. rewrite Hst.
    destruct (String.eqb_spec k "__proto__") as [-> | Hk].
    + unfold Keys.stored. rewrite Keys.init_proto_key. reflexivity.
    + rewrite (Keys.init_stored requirements k Hk). reflexivity.
  - etransitivity; [apply Keys.init_size |]. cbn [Traceability.own].
    rewrite map_size_empty. lia.
  - intros Hnd Hp. rewrite Keys.init_size_distinct; [| assumption .. |].
    + cbn [Traceability.own]. rewrite map_size_empty. lia.
    + intros r _. apply lookup_empty.
Qed.

(** X13.  When no requirement is called ["__proto__"], computing
    [traceabilityData] throws exactly when a code change lists, or a test
    names, a key that is ["__proto__"] or the name of a property every
    object inherits, and that is not the identifier of a requirement: the
    look-up of such a key finds a value without the array to push to. *)
Theorem traceabilityData_throws_iff :
  forall (inherited : string -> bool)
         (requirements : list Traceability.requirement)
         (changes : list Traceability.change) (tsts : list Traceability.test),
    (forall r, In r requirements -> Traceability.id r <> "__proto__") ->
    (Traceability.traceabilityData inherited requirements changes tsts = None <->
     exists k : string,
       In k (Keys.referenced changes tsts) /\
       Keys.special inherited k = true /\
       forall r, In r requirements -> Traceability.id r <> k).
Proof.
  intros inherited requirements changes tsts Hp.
  rewrite (Keys.traceabilityData_None inherited requirements changes tsts Hp).
  rewrite existsb_exists. unfold Keys.unresolved.
  split; intros (k & Hk & H); exists k.
  - apply andb_prop in H as [Hs Hn]. apply negb_true_iff in Hn.
    split; [exact Hk |]. split; [exact Hs |].
    exact (proj1 (Keys.has_id_false requirements k) Hn).
  - destruct H as [Hs Hn]. split; [exact Hk |]. rewrite Hs.
    now rewrite (proj2 (Keys.has_id_false requirements k) Hn).
Qed.

(** ** [DiffViewer.jsx]: the files built from the [hunks] property *)

Module Hunks.

Import Js.

(** An element of the [hunks] property, as far as the component reads it;
    every field but [file] may be absent. *)
Record hunk := mkProp {
  file : string;
  content : option string;
  old_start : option N;
  old_count : option N;
  new_start : option N;
  new_count : option N;
  description : option string
}.

(** [x || d] for a number: absent and [0] are falsy. *)
Definition num_or (x : option N) (d : N) : N :=
  match x with
  | Some 0%N | None => d
  | Some n => n
  end.

(** [x || ''] for a string. *)
Definition text_or_empty (x : option string) : string :=
  match x with
  | Some s => s
  | None => ""
  end.

(** "Parse hunk content": a context line keeps its first character. *)
Definition lines_of (h : hunk) : list Diff.line :=
  map (fun line =>
         Diff.mkLine (if startsWith line "+" || startsWith line "-"
                      then slice 1 line else line)
                     (Diff.line_type line))
      (split_nl (text_or_empty (content h))).

(** The hunk pushed onto the file. *)
Definition hunk_of (h : hunk) : Diff.hunk :=
  Diff.mkHunk (num_or (old_start h) 1) (num_or (old_count h) 0)
              (num_or (new_start h) 1) (num_or (new_count h) 0)
              (text_or_empty (description h)) (lines_of h).

(** The file after the push and the two [+=]. *)
Definition with_hunk (h : hunk) (f : Diff.file) : Diff.file :=
  Diff.mkFile (Diff.oldPath f) (Diff.newPath f)
    (Diff.hunks f ++ [ hunk_of h ])
    (Diff.additions f + Diff.count Diff.is_add (lines_of h))
    (Diff.deletions f + Diff.count Diff.is_del (lines_of h)).

(** The object [fileMap]: its own properties, in the order they were
    created. *)
Definition fileMap : Type := list (string * Diff.file).

Definition own (m : fileMap) (k : string) : option Diff.file :=
  option_map snd (find (fun p => String.eqb (fst p) k) m).

(** An array index: the canonical decimal text of a number below
    [2 ^ 32 - 1]. *)
Definition array_index (k : string) : option N :=
  match DecimalString.NilEmpty.uint_of_string k with
  | Some u =>
      let n := N.of_uint u in
      if String.eqb (Diff.to_string n) k && (n <? 4294967295)%N then Some n else None
  | None => None
  end.

Fixpoint insert_by_index (x : N * Diff.file) (l : list (N * Diff.file))
  : list (N * Diff.file) :=
  match l with
  | [] => [ x ]
  | y :: rest => if (fst x <? fst y)%N then x :: l else y :: insert_by_index x rest
  end.

Definition indexed (p : string * Diff.file) : option (N * Diff.file) :=
  match array_index (fst p) with
  | Some n => Some (n, snd p)
  | None => None
  end.

Definition named (p : string * Diff.file) : bool :=
  match array_index (fst p) with
  | Some _ => false
  | None => true
  end.

(** [Object.values]: the properties whose name is an array index, by
    ascending index, then the others in the order of their creation. *)
Definition Object_values (m : fileMap) : list Diff.file :=
  map snd (fold_right insert_by_index [] (omap indexed m))
  ++ map snd (filter named m).

(** A file consistent with its hunks, stored under its path. *)
Definition sound (p : string * Diff.file) : Prop :=
  Diff.oldPath (snd p) = fst p /\ Diff.newPath (snd p) = fst p /\
  Diff.additions (snd p) = Diff.count_all Diff.is_add (Diff.hunks (snd p)) /\
  Diff.deletions (snd p) = Diff.count_all Diff.is_del (Diff.hunks (snd p)).

(** The hunks of the files stored under [k]. *)
Definition hunks_at (k : string) (m : fileMap) : list Diff.hunk :=
  flat_map (fun p => if String.eqb (fst p) k then Diff.hunks (snd p) else []) m.

(** The hunks of the elements whose file is [k]. *)
Definition hunks_for (k : string) (hunks : list hunk) : list Diff.hunk :=
  map hunk_of (filter (fun h => String.eqb (file h) k) hunks).

Lemma own_None (m : fileMap) (k : string) :
  own m k = None <-> ~ In k (map fst m).
Proof.
  unfold own. induction m as [| [k0 f0] m IH]; cbn [find map In fst option_map].
  - tauto.
  - destruct (String.eqb_spec k0 k) as [-> | Hk]; cbn [option_map].
    + split; [discriminate | intros H; destruct H; now left].
    + rewrite IH. tauto.
Qed.

Lemma hunks_at_cons (k : string) (p : string * Diff.file) (m : fileMap) :
  hunks_at k (p :: m)
  = (if String.eqb (fst p) k then Diff.hunks (snd p) else []) ++ hunks_at k m.
Proof. reflexivity. Qed.

Lemma hunks_at_fresh (k' : string) (m : fileMap) :
  ~ In k' (map fst m) -> hunks_at k' m = [].
Proof.
  induction m as [| [k0 f0] m IH]; [reflexivity |].
  rewrite hunks_at_cons. cbn [map In fst snd].
  intros H. destruct (String.eqb_spec k0 k') as [-> | Hk]; [destruct H; now left |].
  cbn [app]. apply IH. tauto.
Qed.

Lemma map_fst_update (g : Diff.file -> Diff.file) (k : string) (m : fileMap) :
  map fst (map (fun p => if String.eqb (fst p) k then (fst p, g (snd p)) else p) m)
  = map fst m.
Proof.
  rewrite map_map. apply map_ext. intros [k0 f0]. cbn [fst snd].
  now destruct (String.eqb k0 k).
Qed.

Lemma count_all_snoc (p : Diff.line -> bool) (hs : list Diff.hunk) (h : Diff.hunk) :
  Diff.count_all p (hs ++ [ h ]) = Diff.count_all p hs + Diff.count p (Diff.lines h).
Proof. rewrite Diff.count_all_app. cbn [Diff.count_all]. lia. Qed.

Lemma sound_with_hunk (k : string) (f : Diff.file) (h : hunk) :
  sound (k, f) -> sound (k, with_hunk h f).
Proof.
  intros (Ho & Hn & Ha & Hd). unfold sound, with_hunk in *.
  cbn [fst snd Diff.oldPath Diff.newPath Diff.hunks Diff.additions Diff.deletions] in *.
  rewrite !count_all_snoc. cbn [hunk_of Diff.lines]. auto with lia.
Qed.

Lemma hunks_at_update (k : string) (h : hunk) (m : fileMap) :
  NoDup (map fst m) -> In (file h) (map fst m) ->
  hunks_at k (map (fun p => if String.eqb (fst p) (file h)
                            then (fst p, with_hunk h (snd p)) else p) m)
  = hunks_at k m ++ (if String.eqb (file h) k then [ hunk_of h ] else []).
Proof.
  induction m as [| [k0 f0] m IH]; intros Hnd Hin; [destruct Hin |].
  cbn [map fst] in Hnd, Hin. inversion Hnd as [| ? ? Hk0 Hnd']; subst.
  cbn [map]. rewrite !hunks_at_cons. cbn [fst snd].
  destruct (String.eqb_spec k0 (file h)) as [-> | Hne].
  - cbn [fst snd].
    assert (Hrest : map (fun p => if String.eqb (fst p) (file h)
                                  then (fst p, with_hunk h (snd p)) else p) m = m).
    { rewrite <- (map_id m) at 2. apply map_ext_in. intros [k1 f1] H1. cbn [fst snd].
      destruct (String.eqb_spec k1 (file h)) as [-> |]; [| reflexivity].
      destruct Hk0. apply (in_map fst) in H1. exact H1. }
    rewrite Hrest.
    destruct (String.eqb_spec (file h) k) as [<- | Hk]; cbn [with_hunk Diff.hunks].
    + rewrite (hunks_at_fresh (file h) m Hk0), !app_nil_r. reflexivity.
    + now rewrite app_nil_r.
  - cbn [fst snd]. destruct Hin as [Hin | Hin]; [congruence |].
    rewrite (IH Hnd' Hin). now rewrite app_assoc.
Qed.

(** A measure of a file that grows by [d h] when the element [h] is added
    to it, from zero. *)
Definition additive (g : Diff.file -> nat) (d : hunk -> nat) : Prop :=
  (forall h f, g (with_hunk h f) = g f + d h) /\
  (forall k, g (Diff.mkFile k k [] 0 0) = 0).

Lemma list_sum_cons (x : nat) (l : list nat) : list_sum (x :: l) = x + list_sum l.
Proof. reflexivity. Qed.

Lemma list_sum_snoc (l : list nat) (x : nat) : list_sum (l ++ [ x ]) = list_sum l + x.
Proof. rewrite list_sum_app, list_sum_cons. cbn. lia. Qed.

Lemma sum_update (g : Diff.file -> nat) (d : hunk -> nat) (h : hunk) (m : fileMap) :
  additive g d -> NoDup (map fst m) -> In (file h) (map fst m) ->
  list_sum (map (fun p => g (snd p))
                (map (fun p => if String.eqb (fst p) (file h)
                               then (fst p, with_hunk h (snd p)) else p) m))
  = list_sum (map (fun p => g (snd p)) m) + d h.
Proof.
  intros [Hg _]. induction m as [| [k0 f0] m IH]; intros Hnd Hin; [destruct Hin |].
  cbn [map fst] in Hnd, Hin. inversion Hnd as [| ? ? Hk0 Hnd']; subst.
  cbn [map fst snd]. destruct (String.eqb_spec k0 (file h)) as [-> | Hne].
  - assert (Hrest : map (fun p => if String.eqb (fst p) (file h)
                                  then (fst p, with_hunk h (snd p)) else p) m = m).
    { rewrite <- (map_id m) at 2. apply map_ext_in. intros [k1 f1] H1. cbn [fst snd].
      destruct (String.eqb_spec k1 (file h)) as [-> |]; [| reflexivity].
      destruct Hk0. apply (in_map fst) in H1. exact H1. }
    rewrite Hrest, !list_sum_cons. cbn [snd]. rewrite Hg.
    apply Nat.add_shuffle0.
  - destruct Hin as [Hin | Hin]; [congruence |].
    rewrite !list_sum_cons, (IH Hnd' Hin). apply Nat.add_assoc.
Qed.

Lemma hunks_for_snoc (k : string) (hunks : list hunk) (h : hunk) :
  hunks_for k (hunks ++ [ h ])
  = hunks_for k hunks ++ (if String.eqb (file h) k then [ hunk_of h ] else []).
Proof.
  unfold hunks_for. rewrite filter_app, map_app. cbn [filter].
  now destruct (String.eqb (file h) k).
Qed.

(** *** The order of [Object.values] *)

Lemma insert_by_index_perm (x : N * Diff.file) (l : list (N * Diff.file)) :
  Permutation (insert_by_index x l) (x :: l).
Proof.
  induction l as [| y l IH]; cbn [insert_by_index]; [reflexivity |].
  destruct (fst x <? fst y)%N; [reflexivity |].
  rewrite IH. apply perm_swap.
Qed.

Lemma sort_perm (l : list (N * Diff.file)) :
  Permutation (fold_right insert_by_index [] l) l.
Proof.
  induction l as [| x l IH]; cbn [fold_right]; [reflexivity |].
  now rewrite insert_by_index_perm, IH.
Qed.

Lemma indexed_named_perm (m : fileMap) :
  Permutation (map snd (omap indexed m) ++ map snd (filter named m)) (map snd m).
Proof.
  induction m as [| [k f] m IH]; [reflexivity |].
  cbn [omap list_omap filter map snd]. unfold indexed at 1, named at 1. cbn [fst snd].
  destruct (array_index k); cbn [map snd app].
  - now apply perm_skip.
  - rewrite <- Permutation_middle. now apply perm_skip.
Qed.

Lemma Object_values_perm (m : fileMap) :
  Permutation (Object_values m) (map snd m).
Proof.
  unfold Object_values. rewrite sort_perm. apply indexed_named_perm.
Qed.

Lemma list_sum_perm (l l' : list nat) : Permutation l l' -> list_sum l = list_sum l'.
Proof.
  induction 1 as [| x l l' _ IH | x y l | l l' l'' _ IH1 _ IH2];
    rewrite ?list_sum_cons; lia.
Qed.

Lemma hunks_at_In (k : string) (f : Diff.file) (m : fileMap) :
  NoDup (map fst m) -> In (k, f) m -> hunks_at k m = Diff.hunks f.
Proof.
  induction m as [| [k0 f0] m IH]; intros Hnd Hin; [destruct Hin |].
  cbn [map fst] in Hnd. inversion Hnd as [| ? ? Hk0 Hnd']; subst.
  rewrite hunks_at_cons. cbn [fst snd]. destruct Hin as [[= -> ->] | Hin].
  - rewrite String.eqb_refl, (hunks_at_fresh k m Hk0). apply app_nil_r.
  - destruct (String.eqb_spec k0 k) as [-> | Hne].
    + destruct Hk0. apply (in_map fst) in Hin. exact Hin.
    + now apply IH.
Qed.

Section Build.

(** The property names every object literal inherits, apart from
    ["__proto__"]. *)
Variable inherited : string -> bool.

(** The body of [for (const hunk of hunks)]; [None] is the [TypeError]
    raised when [fileMap[hunk.file]] is an inherited value, which is truthy
    and has no [hunks]. *)
Definition on_hunk (m : fileMap) (h : hunk) : option fileMap :=
  match own m (file h) with
  | Some _ =>
      Some (map (fun p => if String.eqb (fst p) (file h)
                          then (fst p, with_hunk h (snd p)) else p) m)
  | None =>
      if Keys.special inherited (file h) then None
      else Some (m ++ [ (file h, with_hunk h (Diff.mkFile (file h) (file h) [] 0 0)) ])
  end.

(** [parsedFiles]; [None] when the computation throws. *)
Definition parsedFiles (diffContent : string) (hunks : list hunk)
  : option (list Diff.file) :=
  if truthy diffContent then Some (Diff.parseDiff diffContent)
  else if (0 <? length hunks)%nat
       then option_map Object_values (Traceability.forEach on_hunk hunks [])
       else Some [].

(** *** The loop *)

(** What the loop keeps: one sound file per name, holding the hunks of the
    elements read so far that carry this name, in their order. *)
Definition built (hunks : list hunk) (m : fileMap) : Prop :=
  NoDup (map fst m) /\
  Forall sound m /\
  (forall k, In k (map fst m) -> Keys.special inherited k = false) /\
  (forall k, In k (map fst m) <-> In k (map file hunks)) /\
  (forall k, hunks_at k m = hunks_for k hunks) /\
  (forall (g : Diff.file -> nat) (d : hunk -> nat),
      additive g d ->
      list_sum (map (fun p => g (snd p)) m) = list_sum (map d hunks)).

Lemma on_hunk_built (done : list hunk) (m : fileMap) (h : hunk) :
  built done m ->
  (on_hunk m h = None <-> Keys.special inherited (file h) = true) /\
  (forall m', on_hunk m h = Some m' -> built (done ++ [ h ]) m').
Proof.
  intros (Hnd & Hs & Hsp & Hk & Hh & Hsum). unfold on_hunk.
  destruct (own m (file h)) as [f |] eqn:E.
  - assert (Hin : In (file h) (map fst m)).
    { destruct (in_dec string_dec (file h) (map fst m)) as [H | H]; [exact H |].
      apply own_None in H. congruence. }
    rewrite (Hsp _ Hin). split; [split; discriminate |].
    intros m' [= <-]. split; [| split; [| split; [| split; [| split]]]].
    + now rewrite map_fst_update.
    + apply Forall_map. eapply Forall_impl; [| exact Hs].
      intros [k0 f0] H0. destruct (String.eqb (fst (k0, f0)) (file h)); [| exact H0].
      now apply sound_with_hunk.
    + intros k. rewrite map_fst_update. apply Hsp.
    + intros k. rewrite map_fst_update, map_app, in_app_iff, Hk. cbn [map In].
      split; [tauto |]. intros [H | [<- | []]]; [exact H |]. now apply Hk.
    + intros k. rewrite hunks_at_update, hunks_for_snoc, Hh by assumption.
      reflexivity.
    + intros g d Hgd. rewrite (sum_update g d h m Hgd Hnd Hin), map_app.
      cbn [map]. now rewrite list_sum_snoc, (Hsum g d Hgd).
  - apply own_None in E.
    destruct (Keys.special inherited (file h)) eqn:Hspecial;
      [split; [tauto | discriminate] |].
    split; [split; discriminate |].
    intros m' [= <-]. split; [| split; [| split; [| split; [| split]]]].
    + rewrite map_app. cbn [map fst]. apply NoDup_app.
      * exact Hnd.
      * repeat constructor. intros [].
      * intros x Hx [<- | []]. contradiction.
    + apply Forall_app. split; [exact Hs |]. constructor; [| constructor].
      apply sound_with_hunk. repeat split.
    + intros k. rewrite map_app, in_app_iff. cbn [map fst In].
      intros [H | [<- | []]]; [now apply Hsp | exact Hspecial].
    + intros k. rewrite !map_app, !in_app_iff, Hk. cbn [map fst In]. tauto.
    + intros k. unfold hunks_at. rewrite flat_map_app. fold (hunks_at k m).
      rewrite hunks_for_snoc, Hh. cbn [flat_map fst snd with_hunk Diff.hunks app].
      now rewrite app_nil_r.
    + intros g d Hgd. rewrite !map_app. cbn [map snd].
      rewrite !list_sum_snoc, (Hsum g d Hgd). destruct Hgd as [Hg H0].
      now rewrite Hg, H0.
Qed.

Lemma forEach_built (hunks : list hunk) :
  forall (done : list hunk) (m : fileMap),
    built done m ->
    (Traceability.forEach on_hunk hunks m = None
     <-> existsb (fun h => Keys.special inherited (file h)) hunks = true) /\
    (forall m', Traceability.forEach on_hunk hunks m = Some m' ->
                built (done ++ hunks) m').
Proof.
  induction hunks as [| h hunks IH]; intros done m Hm;
    cbn [Traceability.forEach existsb].
  - rewrite app_nil_r. split; [split; discriminate |]. now intros m' [= <-].
  - destruct (on_hunk_built done m h Hm) as [Hnone Hsome].
    destruct (on_hunk m h) as [m1 |] eqn:E.
    + assert (Hb : Keys.special inherited (file h) = false).
      { destruct (Keys.special inherited (file h)) eqn:Hb; [| reflexivity]. exfalso.
        assert (Hx : Some m1 = None)
          by (apply Hnone; first [exact Hb | reflexivity]).
        discriminate. }
      rewrite Hb. cbn [orb].
      replace (done ++ h :: hunks) with ((done ++ [ h ]) ++ hunks)
        by now rewrite <- app_assoc.
      apply IH, Hsome. reflexivity.
    + rewrite (proj1 Hnone eq_refl). split; [tauto | discriminate].
Qed.

Lemma built_nil : built [] [].
Proof.
  split; [constructor | split; [constructor | split; [intros k [] |]]].
  split; [intros k; reflexivity | split; [reflexivity |]].
  intros g d _. reflexivity.
Qed.

Lemma parsedFiles_built (hunks : list hunk) (fs : list Diff.file) :
  parsedFiles "" hunks = Some fs ->
  exists m : fileMap, built hunks m /\ Permutation fs (map snd m).
Proof.
  unfold parsedFiles. cbn [truthy].
  destruct hunks as [| h hunks].
  - intros [= <-]. exists []. split; [apply built_nil | reflexivity].
  - cbn [length Nat.ltb Nat.leb].
    destruct (forEach_built (h :: hunks) [] [] built_nil) as [_ Hsome].
    destruct (Traceability.forEach on_hunk (h :: hunks) []) as [m |]; [| discriminate].
    intros [= <-]. exists m. split; [now apply Hsome | apply Object_values_perm].
Qed.

Lemma parsedFiles_None (hunks : list hunk) :
  parsedFiles "" hunks = None
  <-> existsb (fun h => Keys.special inherited (file h)) hunks = true.
Proof.
  unfold parsedFiles. cbn [truthy].
  destruct hunks as [| h hunks]; [split; discriminate |].
  cbn [length Nat.ltb Nat.leb].
  destruct (forEach_built (h :: hunks) [] [] built_nil) as [Hnone _].
  destruct (Traceability.forEach on_hunk (h :: hunks) []) as [m |];
    cbn [option_map]; [| tauto].
  rewrite <- Hnone. split; discriminate.
Qed.

End Build.

End Hunks.

(** X14.  Without a diff text, building the files from the [hunks]
    property throws exactly when the [file] of some element is
    ["__proto__"] or the name of a property every object inherits: the
    look-up in [fileMap] then finds a value that is truthy and has no
    [hunks]. *)
Theorem parsedFiles_throws_iff :
  forall (inherited : string -> bool) (hunks : list Hunks.hunk),
    Hunks.parsedFiles inherited "" hunks = None <->
    exists h : Hunks.hunk,
      In h hunks /\ Keys.special inherited (Hunks.file h) = true.
Proof.
  intros inherited hunks. rewrite Hunks.parsedFiles_None, existsb_exists. reflexivity.
Qed.

(** X15.  Without a diff text, the files built from the [hunks] property
    are one per [file] name of the elements, each with that name as both
    paths and with the hunks of the elements of this name, in their order;
    [additions] and [deletions] of a file count the added and deleted lines
    of its hunks, and the two totals of the header count those of all
    elements. *)
Theorem parsedFiles_of_hunks :
  forall (inherited : string -> bool) (hunks : list Hunks.hunk)
         (parsedFiles : list Diff.file),
    Hunks.parsedFiles inherited "" hunks = Some parsedFiles ->
    Forall (fun f =>
              Diff.newPath f = Diff.oldPath f /\
              Diff.hunks f = Hunks.hunks_for (Diff.oldPath f) hunks /\
              Diff.additions f = Diff.count_all Diff.is_add (Diff.hunks f) /\
              Diff.deletions f = Diff.count_all Diff.is_del (Diff.hunks f))
           parsedFiles /\
    NoDup (map Diff.oldPath parsedFiles) /\
    (forall k : string,
        In k (map Diff.oldPath parsedFiles) <-> In k (map Hunks.file hunks)) /\
    DiffView.totalAdditions parsedFiles
    = list_sum (map (fun h => Diff.count Diff.is_add (Hunks.lines_of h)) hunks) /\
    DiffView.totalDeletions parsedFiles
    = list_sum (map (fun h => Diff.count Diff.is_del (Hunks.lines_of h)) hunks).
Proof.
  intros inherited hunks fs H.
  apply Hunks.parsedFiles_built in H as (m & (Hnd & Hs & _ & Hk & Hh & Hsum) & Hperm).
  assert (Hpaths : map Diff.oldPath (map snd m) = map fst m).
  { rewrite map_map. apply map_ext_in. intros p Hp.
    rewrite Forall_forall in Hs. now destruct (Hs p Hp). }
  split; [| split; [| split; [| split]]].
  - apply Forall_forall. intros f Hf.
    apply (Permutation_in _ Hperm), in_map_iff in Hf as ([k f'] & <- & Hin).
    rewrite Forall_forall in Hs. destruct (Hs _ Hin) as (Ho & Hn & Ha & Hd).
    cbn [fst snd] in *. repeat split; try assumption; try congruence.
    rewrite Ho, <- Hh. symmetry. now apply Hunks.hunks_at_In.
  - apply (Permutation_NoDup (l := map fst m)); [| exact Hnd].
    rewrite <- Hpaths. apply Permutation_map. now symmetry.
  - intros k. rewrite <- Hk, <- Hpaths. split; apply Permutation_in, Permutation_map;
      [exact Hperm | now symmetry].
  - unfold DiffView.totalAdditions. rewrite DiffView.fold_left_sum. cbn [Nat.add].
    rewrite (Hunks.list_sum_perm _ _ (Permutation_map Diff.additions Hperm)), map_map.
    apply Hsum. split; reflexivity.
  - unfold DiffView.totalDeletions. rewrite DiffView.fold_left_sum. cbn [Nat.add].
    rewrite (Hunks.list_sum_perm _ _ (Permutation_map Diff.deletions Hperm)), map_map.
    apply Hsum. split; reflexivity.
Qed.

(** ** [DiffViewer.jsx]: the lines [handleDownload] writes, read by [parseDiff] *)

Module ReadBack.

Import Js.
Import Diff.

(** A string without line terminator: what a run of [.] matches whole. *)
Definition no_terminator (s : string) : Prop :=
  forall c, In c (list_ascii_of_string s) -> is_terminator c = false.

(** A string in which [" b/"] occurs only at its very end, if at all: the
    second group of the pattern cannot start inside it. *)
Definition no_split (s : string) : Prop :=
  forall x y : string, s = (x ++ " b/" ++ y)%string -> y = "".

Lemma dots_whole (s : string) : no_terminator s -> dots s = s.
Proof.
  intros H. unfold dots. rewrite <- (append_nil_r s) at 1.
  rewrite span_all; [reflexivity | | exact I].
  intros c Hc. now rewrite (H c Hc).
Qed.

Lemma split_b_second (s p1 p2 : string) : split_b s = Some (p1, p2) -> p2 <> "".
Proof.
  revert p1. induction s as [| c s IH]; intros p1; [discriminate |].
  cbn [split_b]. destruct (split_b s) as [[q1 q2] |].
  - intros [= <- <-]. now apply (IH q1).
  - destruct (startsWith (String c s) " b/"); [| discriminate].
    destruct (String.eqb_spec (slice 3 (String c s)) "") as [| Hne]; [discriminate |].
    now intros [= <- <-].
Qed.

Lemma split_b_none (s : string) : no_split s -> split_b s = None.
Proof.
  intros H. destruct (split_b s) as [[p1 p2] |] eqn:E; [| reflexivity].
  pose proof (split_b_second s p1 p2 E) as Hne.
  apply split_b_sound in E. now destruct (Hne (H p1 p2 E)).
Qed.

Lemma no_split_tail (c : ascii) (s : string) : no_split (String c s) -> no_split s.
Proof. intros H x y ->. apply (H (String c x) y). reflexivity. Qed.

(** Where [" b/"] is followed by a character, there is a split. *)
Lemma split_b_complete (x y : string) :
  y <> "" -> split_b (x ++ " b/" ++ y) <> None.
Proof.
  intros Hy. induction x as [| c x IH].
  - rewrite append_nil_l.
    change (" b/" ++ y)%string with (String " " (String "b" (String "/" y))).
    cbn [split_b]. destruct (split_b y) as [[p1 p2] |]; [discriminate |].
    change (String " " (String "b" (String "/" y))) with (" b/" ++ y)%string.
    change (String "b" (String "/" y)) with ("b/" ++ y)%string.
    change (String "/" y) with ("/" ++ y)%string.
    destruct (startsWith ("/" ++ y) " b/" && _); [discriminate |].
    destruct (startsWith ("b/" ++ y) " b/" && _); [discriminate |].
    rewrite startsWith_append.
    change 3 with (String.length " b/"). rewrite slice_append.
    destruct (String.eqb_spec y ""); [contradiction | discriminate].
  - rewrite append_cons. cbn [split_b].
    destruct (split_b (x ++ " b/" ++ y)) as [[p1 p2] |]; [discriminate | congruence].
Qed.

(** The condition can be checked by running [split_b]. *)
Lemma no_split_checked (s : string) : split_b s = None -> no_split s.
Proof.
  intros H x y ->. destruct y as [| c y]; [reflexivity |].
  now destruct (split_b_complete x (String c y)).
Qed.

Lemma split_b_cons (c : ascii) (rest : string) :
  split_b (String c rest)
  = match split_b rest with
    | Some (p1, p2) => Some (String c p1, p2)
    | None =>
        if startsWith (String c rest) " b/" && negb (String.eqb (slice 3 (String c rest)) "")
        then Some ("", slice 3 (String c rest))
        else None
    end.
Proof. reflexivity. Qed.

(** The greedy first group gives way up to the last [" b/"]. *)
Lemma split_b_last (p n : string) :
  n <> "" -> no_split n -> split_b (p ++ " b/" ++ n) = Some (p, n).
Proof.
  intros Hn Hs. induction p as [| c p IH].
  - rewrite append_nil_l.
    assert (H1 : split_b (String "/" n) = None).
    { rewrite split_b_cons, (split_b_none n Hs). reflexivity. }
    assert (H2 : split_b (String "b" (String "/" n)) = None).
    { rewrite split_b_cons, H1. reflexivity. }
    change (" b/" ++ n)%string with (String " " (String "b" (String "/" n))).
    rewrite split_b_cons, H2.
    change (String " " (String "b" (String "/" n))) with (" b/" ++ n)%string.
    rewrite startsWith_append.
    change 3 with (String.length " b/"). rewrite slice_append.
    destruct (String.eqb_spec n ""); [contradiction | reflexivity].
  - rewrite append_cons, split_b_cons. now rewrite IH.
Qed.

(** *** The hunk line *)

Lemma number_or_1_written (n : N) :
  number_or_1 (to_string n) = if (n =? 0)%N then 1%N else n.
Proof. unfold number_or_1. rewrite parseInt_to_string. now destruct n. Qed.

(** The header as it is written after the second [@@]. *)
Definition written_header (h : hunk) : string :=
  if truthy (header h) then (" " ++ header h)%string else "".

Lemma no_terminator_written (h : hunk) :
  no_terminator (header h) -> no_terminator (written_header h).
Proof.
  intros H c. unfold written_header. destruct (truthy (header h)); [| intros []].
  rewrite append_cons, append_nil_l. cbn [list_ascii_of_string In].
  intros [<- | Hc]; [reflexivity | now apply H].
Qed.

Lemma hunk_at_written (h : hunk) :
  no_terminator (header h) ->
  hunk_at (hunk_line h)
  = Some (to_string (oldStart h), to_string (oldCount h),
          to_string (newStart h), to_string (newCount h), written_header h).
Proof.
  intros Hh. unfold hunk_line. fold (written_header h).
  unfold hunk_at. rewrite expect_append.
  change ("," ++ ?x)%string with (String ","%char x).
  rewrite span_to_string by reflexivity. rewrite eqb_to_string.
  cbn [comma].
  change (" +" ++ ?x)%string with (String " "%char ("+" ++ x)).
  rewrite span_to_string by reflexivity.
  change (String " "%char ("+" ++ ?x)) with (" +" ++ x)%string.
  rewrite expect_append.
  change ("," ++ ?x)%string with (String ","%char x).
  rewrite span_to_string by reflexivity. rewrite eqb_to_string.
  cbn [comma].
  change (" @@" ++ ?x)%string with (String " "%char ("@@" ++ x)).
  rewrite span_to_string by reflexivity.
  change (String " "%char ("@@" ++ ?x)) with (" @@" ++ x)%string.
  rewrite expect_append.
  now rewrite (dots_whole _ (no_terminator_written h Hh)).
Qed.

End ReadBack.

(** X16.  The first line [handleDownload] writes for a file is read back
    by [parseDiff] as the same two paths whenever the paths hold no line
    terminator, the old path is not empty, and the new path is not empty
    and holds no [" b/"] followed by a character; the old path may hold
    [" b/"]. *)
Theorem diff_line_read_back :
  forall o n : string,
    ReadBack.no_terminator o -> ReadBack.no_terminator n ->
    o <> "" -> n <> "" -> ReadBack.no_split n ->
    Diff.diff_paths (Diff.diff_line o n) = (o, n).
Proof.
  intros o n Ho Hn Ho0 Hn0 Hs. unfold Diff.diff_paths, Diff.match_diff_git.
  rewrite (Diff.search_at_start _ _ (o, n)); [reflexivity |].
  unfold Diff.diff_git_at, Diff.diff_line.
  rewrite Diff.startsWith_append.
  change 13 with (String.length "diff --git a/"). rewrite Diff.slice_append.
  rewrite ReadBack.dots_whole.
  - destruct o as [| c o]; [congruence |]. rewrite Js.append_cons.
    now rewrite (ReadBack.split_b_last o n Hn0 Hs).
  - intros c Hc. apply Diff.in_append in Hc as [Hc | Hc]; [now apply Ho |].
    apply Diff.in_append in Hc as [Hc | Hc]; [| now apply Hn].
    cbn in Hc. destruct Hc as [<- | [<- | [<- | []]]]; reflexivity.
Qed.

(** X17.  The first line [handleDownload] writes for a hunk whose four
    numbers are at most 2^53, so that they are written in full and read
    exactly, and whose header holds no line terminator, is read by
    [parseDiff], inside a file, as the start of a hunk with the same two
    start numbers, with each count as written except that a count of zero
    is read as one, and with the header as written after the second [@@]:
    a header that is not empty comes back with one more space in front. *)
Theorem hunk_line_read_back :
  forall (fs : list Diff.file) (f : Diff.file) (ch : option Diff.hunk) (h : Diff.hunk),
    Diff.safe_integer (Diff.oldStart h) ->
    Diff.safe_integer (Diff.oldCount h) ->
    Diff.safe_integer (Diff.newStart h) ->
    Diff.safe_integer (Diff.newCount h) ->
    ReadBack.no_terminator (Diff.header h) ->
    Diff.on_line (Diff.mkState fs (Some f) ch) (Diff.hunk_line h)
    = Diff.mkState fs (Some (Diff.whole f ch))
        (Some (Diff.mkHunk
                 (Diff.oldStart h)
                 (if (Diff.oldCount h =? 0)%N then 1%N else Diff.oldCount h)
                 (Diff.newStart h)
                 (if (Diff.newCount h =? 0)%N then 1%N else Diff.newCount h)
                 (if Js.truthy (Diff.header h) then (" " ++ Diff.header h)%string else "")
                 [])).
Proof.
  intros fs f ch h _ _ _ _ Hh. unfold Diff.on_line.
  assert (H1 : Js.startsWith (Diff.hunk_line h) "diff --git" = false) by reflexivity.
  assert (H2 : Js.startsWith (Diff.hunk_line h) "@@" = true).
  { unfold Diff.hunk_line.
    change ("@@ -" ++ ?x)%string with ("@@" ++ (" -" ++ x))%string.
    apply Diff.startsWith_append. }
  rewrite H1, H2. unfold Diff.match_hunk.
  rewrite (Diff.search_at_start _ _ _ (ReadBack.hunk_at_written h Hh)).
  cbn [Diff.currentFile Diff.currentHunk Diff.files].
  now rewrite !Diff.number_to_string, !ReadBack.number_or_1_written.
Qed.

(** ** [TestSuiteMatrix.jsx]: the filters and the counts *)

Module TestSuite.

Import Js.

(** A test, as far as the filters and the counts read it. *)
Record test := mkTest {
  name : string;
  test_type : option string;
  status : option string;
  assertions : option nat
}.

(** [x === s] for a property that may be absent. *)
Definition equals (x : option string) (s : string) : bool :=
  match x with
  | Some v => String.eqb v s
  | None => false
  end.

(** [filteredTests]. *)
Definition filteredTests (filterType filterStatus : string) (tests : list test)
  : list test :=
  filter (fun t =>
            if negb (String.eqb filterType "all") && negb (equals (test_type t) filterType)
            then false
            else if negb (String.eqb filterStatus "all")
                    && negb (equals (status t) filterStatus)
            then false
            else true) tests.

Definition totalTests (tests : list test) : nat := length tests.

Definition passedTests (tests : list test) : nat :=
  length (filter (fun t => equals (status t) "passed") tests).

Definition failedTests (tests : list test) : nat :=
  length (filter (fun t => equals (status t) "failed") tests).

(** [tests.reduce((sum, t) => sum + (t.assertions || 0), 0)]. *)
Definition totalAssertions (tests : list test) : nat :=
  fold_left (fun sum t => sum + match assertions t with Some n => n | None => 0 end)
            tests 0.

(** [t.test_type || 'unit']. *)
Definition type_or_unit (t : test) : string :=
  match test_type t with
  | Some s => or_else s "unit"
  | None => "unit"
  end.

(** The elements of [new Set(l)], in the order of their first occurrence;
    [seen] are those already in the set. *)
Fixpoint unique (seen l : list string) : list string :=
  match l with
  | [] => []
  | x :: rest =>
      if includes seen x then unique seen rest else x :: unique (x :: seen) rest
  end.

(** [testTypes], the types the type filter offers after ["all"]. *)
Definition testTypes (tests : list test) : list string :=
  unique [] (map type_or_unit tests).

Lemma unique_In (l : list string) :
  forall (seen : list string) (x : string),
    In x (unique seen l) <-> In x l /\ ~ In x seen.
Proof.
  induction l as [| a l IH]; intros seen x; cbn [unique In]; [tauto |].
  destruct (includes seen a) eqn:Ha.
  - apply includes_In in Ha. rewrite IH. split; [tauto |].
    intros [[<- | H] Hn]; [contradiction | tauto].
  - assert (Hn : ~ In a seen).
    { intros H. apply includes_In in H. congruence. }
    cbn [In]. rewrite IH. cbn [In].
    destruct (string_dec a x) as [<- |]; tauto.
Qed.

Lemma unique_NoDup (l : list string) : forall seen : list string, NoDup (unique seen l).
Proof.
  induction l as [| a l IH]; intros seen; cbn [unique]; [constructor |].
  destruct (includes seen a); [apply IH |].
  constructor; [| apply IH]. rewrite unique_In. cbn [In]. tauto.
Qed.

End TestSuite.

(** X18.  With both filters on ["all"] every test is shown, and whatever
    the filters the tests shown are tests of the list, in their order; the
    passed and the failed tests together are at most all tests; the type
    filter offers each type once, and each type it offers other than
    ["unit"], the type shown for a test without one, selects at least one
    test. *)
Theorem testTypes_select_tests :
  forall tests : list TestSuite.test,
    TestSuite.filteredTests "all" "all" tests = tests /\
    (forall filterType filterStatus : string,
        sublist (TestSuite.filteredTests filterType filterStatus tests) tests) /\
    TestSuite.passedTests tests + TestSuite.failedTests tests
    <= TestSuite.totalTests tests /\
    NoDup (TestSuite.testTypes tests) /\
    (forall type : string,
        In type (TestSuite.testTypes tests) -> type <> "unit" ->
        TestSuite.filteredTests type "all" tests <> []).
Proof.
  intros tests. split; [| split; [| split; [| split]]].
  - unfold TestSuite.filteredTests. cbn [String.eqb Ascii.eqb Bool.eqb negb andb].
    induction tests as [| t l IH]; [reflexivity |]. cbn [filter]. now rewrite IH.
  - intros filterType filterStatus. unfold TestSuite.filteredTests.
    induction tests as [| t l IH]; cbn [filter]; [constructor |].
    match goal with |- context [if ?b then _ else _] => destruct b end;
      now constructor.
  - unfold TestSuite.passedTests, TestSuite.failedTests, TestSuite.totalTests.
    induction tests as [| t l IH]; cbn [filter length]; [lia |].
    destruct (TestSuite.status t) as [s |]; cbn [TestSuite.equals]; [| lia].
    destruct (String.eqb_spec s "passed") as [-> |]; cbn [length String.eqb Ascii.eqb Bool.eqb];
      [lia |].
    destruct (String.eqb s "failed"); cbn [length]; lia.
  - apply TestSuite.unique_NoDup.
  - intros type Hin Hunit. unfold TestSuite.testTypes in Hin.
    apply TestSuite.unique_In in Hin as [Hin _]. apply in_map_iff in Hin as (t & Ht & Hin).
    assert (Hty : TestSuite.test_type t = Some type).
    { unfold TestSuite.type_or_unit in Ht.
      destruct (TestSuite.test_type t) as [s |]; [| congruence].
      destruct s; [cbn in Ht; congruence | now cbn in Ht; subst]. }
    assert (Hshown : In t (TestSuite.filteredTests type "all" tests)).
    { unfold TestSuite.filteredTests. apply filter_In. split; [exact Hin |].
      rewrite Hty. cbn [TestSuite.equals]. rewrite String.eqb_refl.
      cbn [negb]. rewrite andb_false_r. reflexivity. }
    intros Hnil. rewrite Hnil in Hshown. destruct Hshown.
Qed.

(** ** Instances of the further properties *)

Module Cases.

(** A second diff, and a file with one hunk. *)
Definition other_diff : string :=
  Js.join_nl [ "diff --git a/lib.js b/lib.js"; "@@ -3 +3,2 @@"; " kept"; "+added" ].

Definition file : Diff.file :=
  Diff.mkFile "app.js" "app.js"
    [ Diff.mkHunk 1 2 1 2 ""
        [ Diff.mkLine "old" Diff.del; Diff.mkLine "new" Diff.add;
          Diff.mkLine "same" Diff.context ] ]
    1 1.

(** A hunk that starts at line 7 of the old file and line 9 of the new. *)
Definition hunk : Diff.hunk :=
  Diff.mkHunk 7 3 9 3 ""
    [ Diff.mkLine "a" Diff.context; Diff.mkLine "b" Diff.del;
      Diff.mkLine "c" Diff.del; Diff.mkLine "d" Diff.add;
      Diff.mkLine "e" Diff.add; Diff.mkLine "f" Diff.context ].

(** Hunks of three files; two names are array indices. *)
Definition hunks : list Hunks.hunk :=
  [ Hunks.mkProp "b.js" (Some (Js.join_nl [ "+x"; " y" ])) (Some 4%N) (Some 1%N)
      (Some 4%N) (Some 2%N) (Some "add x");
    Hunks.mkProp "10" (Some "-gone") None None None None None;
    Hunks.mkProp "9" None None None None None None;
    Hunks.mkProp "b.js" (Some "+z") (Some 9%N) None (Some 10%N) (Some 1%N) None ].

Definition parsedFiles : list Diff.file :=
  match Hunks.parsedFiles Sample.inherited "" hunks with
  | Some fs => fs
  | None => []
  end.

(** A code change that lists a name every object inherits. *)
Definition odd_changes : list Traceability.change :=
  [ Traceability.mkChange "auth.js" (Some [ "REQ-1"; "toString" ]) ].

(** Three tests, the first without a type. *)
Definition tests : list TestSuite.test :=
  [ TestSuite.mkTest "t1" None (Some "passed") (Some 2);
    TestSuite.mkTest "t2" (Some "e2e") (Some "failed") None;
    TestSuite.mkTest "t3" (Some "unit") None (Some 1) ].

End Cases.

(** [parseDiff_of_two_texts] at a sample input. *)
Lemma parseDiff_of_two_texts_witness :
  Diff.parseDiff (Sample.plain_diff ++ String Js.LF Cases.other_diff)
  = Diff.parseDiff Sample.plain_diff ++ Diff.parseDiff Cases.other_diff.
Proof.
  apply (parseDiff_of_two_texts Sample.plain_diff Cases.other_diff).
  reflexivity.
Defined.

(** [handleCopy_read_back] at a sample input. *)
Lemma handleCopy_read_back_witness :
  map DiffView.read_line (Js.split_nl (DiffView.handleCopy Cases.file))
  = concat (map Diff.lines (Diff.hunks Cases.file)).
Proof.
  apply (handleCopy_read_back Cases.file).
  - discriminate.
  - repeat constructor; discriminate.
Defined.

(** [traceabilityData_entries] at a sample input. *)
Lemma traceabilityData_entries_witness :
  (forall k : string,
      Keys.stored Sample.data k
      = if String.eqb k "__proto__" then None
        else Keys.last_with_id k Sample.requirements) /\
  Traceability.total (Traceability.stats Sample.percent Sample.data)
  <= length Sample.requirements /\
  (NoDup (map Traceability.id Sample.requirements) ->
   ~ In "__proto__" (map Traceability.id Sample.requirements) ->
   Traceability.total (Traceability.stats Sample.percent Sample.data)
   = length Sample.requirements).
Proof.
  apply (traceabilityData_entries Sample.inherited Sample.percent
           Sample.requirements Sample.changes Sample.tsts Sample.data).
  vm_compute. reflexivity.
Defined.

(** [traceabilityData_throws_iff] at a sample input. *)
Lemma traceabilityData_throws_iff_witness :
  Traceability.traceabilityData Sample.inherited Sample.requirements
    Cases.odd_changes Sample.tsts = None <->
  exists k : string,
    In k (Keys.referenced Cases.odd_changes Sample.tsts) /\
    Keys.special Sample.inherited k = true /\
    forall r, In r Sample.requirements -> Traceability.id r <> k.
Proof.
  apply (traceabilityData_throws_iff Sample.inherited Sample.requirements
           Cases.odd_changes Sample.tsts).
  intros r [<- | [<- | []]]; discriminate.
Defined.

(** [parsedFiles_of_hunks] at a sample input. *)
Lemma parsedFiles_of_hunks_witness :
  Forall (fun f =>
            Diff.newPath f = Diff.oldPath f /\
            Diff.hunks f = Hunks.hunks_for (Diff.oldPath f) Cases.hunks /\
            Diff.additions f = Diff.count_all Diff.is_add (Diff.hunks f) /\
            Diff.deletions f = Diff.count_all Diff.is_del (Diff.hunks f))
         Cases.parsedFiles /\
  NoDup (map Diff.oldPath Cases.parsedFiles) /\
  (forall k : string,
      In k (map Diff.oldPath Cases.parsedFiles) <-> In k (map Hunks.file Cases.hunks)) /\
  DiffView.totalAdditions Cases.parsedFiles
  = list_sum (map (fun h => Diff.count Diff.is_add (Hunks.lines_of h)) Cases.hunks) /\
  DiffView.totalDeletions Cases.parsedFiles
  = list_sum (map (fun h => Diff.count Diff.is_del (Hunks.lines_of h)) Cases.hunks).
Proof.
  apply (parsedFiles_of_hunks Sample.inherited Cases.hunks Cases.parsedFiles).
  vm_compute. reflexivity.
Defined.

(** [diff_line_read_back] at a sample input. *)
Lemma diff_line_read_back_witness :
  Diff.diff_paths (Diff.diff_line "src b/app.js" "lib/app.js")
  = ("src b/app.js", "lib/app.js").
Proof.
  apply (diff_line_read_back "src b/app.js" "lib/app.js").
  - intros c H. cbn in H. repeat (destruct H as [<- | H]; [reflexivity |]). destruct H.
  - intros c H. cbn in H. repeat (destruct H as [<- | H]; [reflexivity |]). destruct H.
  - discriminate.
  - discriminate.
  - apply ReadBack.no_split_checked. reflexivity.
Defined.

(** [hunk_line_read_back] at a sample input. *)
Lemma hunk_line_read_back_witness :
  Diff.on_line (Diff.mkState [] (Some Cases.file) None)
    (Diff.hunk_line (Diff.mkHunk 4 0 4 2 "main" []))
  = Diff.mkState [] (Some (Diff.whole Cases.file None))
      (Some (Diff.mkHunk 4 1 4 2 " main" [])).
Proof.
  apply (hunk_line_read_back [] Cases.file None (Diff.mkHunk 4 0 4 2 "main" []));
    try (vm_compute; discriminate).
  intros c H. cbn in H. repeat (destruct H as [<- | H]; [reflexivity |]). destruct H.
Defined.

(** [lineNum_numbers_each_side] at a sample input. *)
Lemma lineNum_numbers_each_side_witness :
  filter (fun p => DiffView.not_del (fst p)) (DiffView.numbered Cases.hunk)
  = DiffView.side DiffView.not_del 9 (Diff.lines Cases.hunk) /\
  filter (fun p => Diff.is_del (fst p)) (DiffView.numbered Cases.hunk)
  = filter (fun p => Diff.is_del (fst p))
           (DiffView.side DiffView.not_add 7 (Diff.lines Cases.hunk)).
Proof.
  apply (lineNum_numbers_each_side Cases.hunk); vm_compute; discriminate.
Defined.

(** [workflow_summary_matches_events] at a sample input. *)
Lemma workflow_summary_matches_events_witness :
  0 < Visualizer.count_kind "node_error"
        (Workflow.events Sample.clock
           (Some [ Sample.agent; Workflow.mkAgent "CodeGenerator" "failed" None None ])).
Proof.
  apply (workflow_summary_matches_events Sample.clock
           (Some [ Sample.agent; Workflow.mkAgent "CodeGenerator" "failed" None None ])).
  reflexivity.
Defined.

(** [toggleFile_involutive] at a sample input. *)
Lemma toggleFile_involutive_witness :
  1 ∈ DiffView.toggleFile 0 {[ 0; 1 ]} <-> 1 ∈ ({[ 0; 1 ]} : gset nat).
Proof.
  apply (toggleFile_involutive 0 {[ 0; 1 ]}). discriminate.
Defined.

(** [testTypes_select_tests] at a sample input. *)
Lemma testTypes_select_tests_witness :
  TestSuite.testTypes Cases.tests = [ "unit"; "e2e" ] /\
  TestSuite.filteredTests "e2e" "all" Cases.tests <> [].
Proof.
  split; [reflexivity |].
  apply (proj2 (proj2 (proj2 (proj2 (testTypes_select_tests Cases.tests)))) "e2e").
  - right. left. reflexivity.
  - discriminate.
Defined.

(** [parseDiff_skips_file_header] at a sample input. *)
Lemma parseDiff_skips_file_header_witness :
  Diff.parseDiff
    (Js.join_nl ([ "diff --git a/x b/x"; "@@ -1 +1 @@"; "-a" ]
                 ++ "diff --git a/app.js b/app.js"
                 :: [ "index 83db48f..bf269f4 100644"; "--- a/app.js"; "+++ b/app.js" ]
                 ++ [ "@@ -1,2 +1,2 @@"; "-old"; "+new" ]))
  = Diff.parseDiff
      (Js.join_nl ([ "diff --git a/x b/x"; "@@ -1 +1 @@"; "-a" ]
                   ++ "diff --git a/app.js b/app.js"
                   :: [ "@@ -1,2 +1,2 @@"; "-old"; "+new" ])) /\
  Diff.parseDiff
    (Js.join_nl ([ "index 83db48f..bf269f4 100644"; "--- a/app.js"; "+++ b/app.js" ]
                 ++ "diff --git a/app.js b/app.js"
                 :: [ "@@ -1,2 +1,2 @@"; "-old"; "+new" ]))
  = Diff.parseDiff
      (Js.join_nl ("diff --git a/app.js b/app.js"
                   :: [ "@@ -1,2 +1,2 @@"; "-old"; "+new" ])).
Proof.
  apply (parseDiff_skips_file_header
           [ "diff --git a/x b/x"; "@@ -1 +1 @@"; "-a" ]
           "diff --git a/app.js b/app.js"
           [ "index 83db48f..bf269f4 100644"; "--- a/app.js"; "+++ b/app.js" ]
           [ "@@ -1,2 +1,2 @@"; "-old"; "+new" ]).
  - repeat constructor.
  - reflexivity.
  - reflexivity.
Defined.

(** ** Further evaluations *)

(** The files built from hunks come with the array indices first, by
    ascending index, and their counts. *)
Example parsedFiles_sample :
  map (fun f => (Diff.newPath f, length (Diff.hunks f), Diff.additions f, Diff.deletions f))
      Cases.parsedFiles
  = [ ("9", 1, 0, 0); ("10", 1, 0, 1); ("b.js", 2, 2, 0) ].
Proof. vm_compute. reflexivity. Qed.

(** A hunk for a file called [constructor] makes the viewer throw. *)
Example parsedFiles_inherited_name :
  Hunks.parsedFiles Sample.inherited ""
    [ Hunks.mkProp "constructor" (Some "+x") None None None None None ]
  = None.
Proof. reflexivity. Qed.

(** The numbers beside the lines of a hunk that starts at line 7 of the old
    file and line 9 of the new one. *)
Example lineNum_sample :
  map snd (DiffView.numbered
             (Diff.mkHunk 7 3 9 3 ""
                [ Diff.mkLine "a" Diff.context; Diff.mkLine "b" Diff.del;
                  Diff.mkLine "c" Diff.del; Diff.mkLine "d" Diff.add;
                  Diff.mkLine "e" Diff.add; Diff.mkLine "f" Diff.context ]))
  = [ 9%N; 8%N; 9%N; 10%N; 11%N; 12%N ].
Proof. vm_compute. reflexivity. Qed.

(** Deselecting the requirement agent and selecting it again moves it to
    the end of the selection. *)
Example toggleAgent_twice :
  App.actions (Toggle.toggleAgent "req" (Toggle.toggleAgent "req" Sample.empty_form))
  = [ "code"; "test"; "req" ].
Proof. reflexivity. Qed.

(** An agent that was skipped: its node is pending, its event an error. *)
Example workflow_skipped_agent :
  let agents := Some [ Workflow.mkAgent "TestGenerator" "skipped" None None ] in
  (map Visualizer.status (Visualizer.nodes agents),
   map Workflow.event_kind (Workflow.events Sample.clock agents),
   Visualizer.badge (Visualizer.nodes agents))
  = ([ "pending" ], [ "node_start"; "node_error" ], "Pending").
Proof. reflexivity. Qed.

(** A test without a type is offered under [unit] and hidden by that
    filter. *)
Example testTypes_unit :
  let tests := [ TestSuite.mkTest "t1" None (Some "passed") (Some 2) ] in
  (TestSuite.testTypes tests, TestSuite.filteredTests "unit" "all" tests)
  = ([ "unit" ], []).
Proof. reflexivity. Qed.
